(** * Position-based cloth solver of [node_addon/physics/PBD_stretch_bend_gpu.py]

    A shallow embedding of [TiClothSimulation]: the constructor and the
    topology builder ([set_edges], [set_faces], [set_attachments],
    [initialize]), the two substep kernels ([substep_cpu], [substep_gpu]) and
    the frame generator of [animate].

    The kernels are written once over an abstract scalar type (classes [Num]
    and [Elementary]) and read at two instances:
    - [R_Num]: the real numbers, the ideal arithmetic in which the algebraic
      properties of the solver are stated;
    - [f32_Num]: IEEE-754 binary32 (the element type [ti.f32] of every field),
      built from the Standard Library's [SpecFloat], in which infinities and
      NaN exist and the kernels can be evaluated.

    Loops are executed sequentially, in index order.  Taichi runs the
    loops at the outermost scope of a kernel in parallel; where the order of
    their iterations matters (the solver loop of [substep_cpu], the link
    loop of [substep_gpu]) a second definition of the kernel takes the order
    as an argument. *)

From Stdlib Require Import ZArith List Bool Reals Lra Lia.
From Stdlib Require Import Floats.SpecFloat.
From stdpp Require Import base list.

(** ** Scalars *)

(** The arithmetic the source uses on scalars.  [of_ratio n d] is the decimal
    literal [n/d] (for instance [9.8] is [of_ratio 98 10]); [of_int] is the
    cast of an integer to the scalar type. *)
Class Num (F : Type) := {
  of_ratio : Z -> Z -> F;
  of_int : Z -> F;
  nadd : F -> F -> F;
  nsub : F -> F -> F;
  nmul : F -> F -> F;
  ndiv : F -> F -> F;
  nopp : F -> F;
  nsqrt : F -> F;
  ngt : F -> F -> bool;
  nlt : F -> F -> bool
}.

(** The two elementary functions of the kernels, [ti.exp] and [pow]. *)
Class Elementary (F : Type) := {
  nexp : F -> F;
  npow : F -> F -> F
}.

Declare Scope num_scope.
Delimit Scope num_scope with num.
Infix "+" := nadd : num_scope.
Infix "-" := nsub : num_scope.
Infix "*" := nmul : num_scope.
Infix "/" := ndiv : num_scope.
Notation "- a" := (nopp a) : num_scope.
Infix ">?" := ngt : num_scope.
Infix "<?" := nlt : num_scope.

(** ** Vectors ([ti.Vector] of three scalars) *)

Record vec3 (F : Type) := Vec3 { vx : F; vy : F; vz : F }.
Arguments Vec3 {F} _ _ _.
Arguments vx {F} _.
Arguments vy {F} _.
Arguments vz {F} _.

Section Vectors.
Context {F : Type} `{Num F}.
Local Open Scope num_scope.

Definition vzero : vec3 F := Vec3 (of_int 0) (of_int 0) (of_int 0).

Definition vadd (a b : vec3 F) : vec3 F :=
  Vec3 (vx a + vx b) (vy a + vy b) (vz a + vz b).

Definition vsub (a b : vec3 F) : vec3 F :=
  Vec3 (vx a - vx b) (vy a - vy b) (vz a - vz b).

(** [c * a], scalar on the left. *)
Definition vscale (c : F) (a : vec3 F) : vec3 F :=
  Vec3 (c * vx a) (c * vy a) (c * vz a).

(** [a * c], scalar on the right. *)
Definition vscale_r (a : vec3 F) (c : F) : vec3 F :=
  Vec3 (vx a * c) (vy a * c) (vz a * c).

(** [a / c]. *)
Definition vdiv (a : vec3 F) (c : F) : vec3 F :=
  Vec3 (vx a / c) (vy a / c) (vz a / c).

(** [a.norm()]: the square root of the sum of the squared entries. *)
Definition norm (a : vec3 F) : F :=
  nsqrt (vx a * vx a + vy a * vy a + vz a * vz a).

(** [a.normalized()]: [invlen = 1 / a.norm(); invlen * a]. *)
Definition normalized (a : vec3 F) : vec3 F :=
  vscale (of_int 1 / norm a) a.

(** [calc_dist(first, second)]; the squares [(loc)**2] are products.  The
    host evaluates it on Python floats and the result is rounded once, when
    it is stored in a field; at the instance [f32_Num] every operation is
    rounded to binary32 instead.  What is stated about the distance itself
    is stated at the instance [R_Num]. *)
Definition calc_dist (first second : vec3 F) : F :=
  let locx := vx second - vx first in
  let locy := vy second - vy first in
  let locz := vz second - vz first in
  nsqrt (locx * locx + locy * locy + locz * locz).
End Vectors.

(** ** Module constants *)

Section Constants.
Context {F : Type} `{Num F}.

Definition coll_r : F := of_ratio 101 100.
Definition k_stretch : F := of_ratio 9 10.
Definition k_bend : F := of_ratio 7 10.
Definition k_LRA : F := of_ratio 5 10.
Definition tether_give : F := of_ratio 2 10.
Definition eps : F := of_ratio 1 1000.
End Constants.

(** ** Host mesh data read by the constructor *)

Inductive Device := CPU | GPU.

(** A [BMVert]: its index in the mesh and its coordinates. *)
Record BMVert (F : Type) := { index : nat; co : vec3 F }.
Arguments index {F} _.
Arguments co {F} _.

(** A [BMEdge] has two vertices, a [BMFace] a loop of vertices. *)
Record BMesh (F : Type) := {
  verts : list (BMVert F);
  edges : list (BMVert F * BMVert F);
  faces : list (list (BMVert F))
}.
Arguments verts {F} _.
Arguments edges {F} _.
Arguments faces {F} _.

(** [me.vertices[i].groups]: the vertex groups a mesh vertex belongs to, as
    pairs of the group's index and the vertex's weight in it. *)
Record ClothObj (F : Type) := {
  vertex_groups : list (list (nat * F));
  bm_of : BMesh F
}.
Arguments vertex_groups {F} _.
Arguments bm_of {F} _.

(** The settings object handed to the constructor.  The vertex groups are
    given by their resolved indices. *)
Record SdfPhy (F : Type) := {
  time_step : F;
  phy_device : Device;
  phy_substep_num : nat;
  phy_solver_num : nat;
  phy_drag_damping : F;
  phy_enable_LRA : bool;
  cloth_obj : ClothObj F;
  pin_group : nat;
  attach_group : nat
}.
Arguments time_step {F} _.
Arguments phy_device {F} _.
Arguments phy_substep_num {F} _.
Arguments phy_solver_num {F} _.
Arguments phy_drag_damping {F} _.
Arguments phy_enable_LRA {F} _.
Arguments cloth_obj {F} _.
Arguments pin_group {F} _.
Arguments attach_group {F} _.

(** ** The simulation object *)

Record Sim (F : Type) := {
  dt : F;
  device : Device;
  substep_num : nat;
  solver_num : nat;
  drag_damping : F;
  enable_LRA : bool;
  frame_num : nat;
  me_groups : list (list (nat * F));
  pin_index : nat;
  bm : BMesh F;
  vertex_num : nat;
  edge_num : nat;
  face_num : nat;
  link_num : nat;
  x : list (vec3 F);
  p : list (vec3 F);
  v : list (vec3 F);
  w : list F;
  link : list (nat * nat);
  link_len : list F;
  link_k : list F;
  link_idx : nat;
  coll_origin : vec3 F;
  attach : list nat;
  attach_num : nat;
  attach_pos : list (vec3 F);
  tether_len : list (list F)
}.
Arguments dt {F} _.
Arguments device {F} _.
Arguments substep_num {F} _.
Arguments solver_num {F} _.
Arguments drag_damping {F} _.
Arguments enable_LRA {F} _.
Arguments frame_num {F} _.
Arguments me_groups {F} _.
Arguments pin_index {F} _.
Arguments bm {F} _.
Arguments vertex_num {F} _.
Arguments edge_num {F} _.
Arguments face_num {F} _.
Arguments link_num {F} _.
Arguments x {F} _.
Arguments p {F} _.
Arguments v {F} _.
Arguments w {F} _.
Arguments link {F} _.
Arguments link_len {F} _.
Arguments link_k {F} _.
Arguments link_idx {F} _.
Arguments coll_origin {F} _.
Arguments attach {F} _.
Arguments attach_num {F} _.
Arguments attach_pos {F} _.
Arguments tether_len {F} _.

Section Fields.
Context {F : Type} `{Num F}.

(** Field updates [self.f = ...]. *)
Definition set_x (a : list (vec3 F)) (s : Sim F) : Sim F :=
  Build_Sim F (dt s) (device s) (substep_num s) (solver_num s)
    (drag_damping s) (enable_LRA s) (frame_num s) (me_groups s)
    (pin_index s) (bm s) (vertex_num s) (edge_num s) (face_num s)
    (link_num s) a (p s) (v s) (w s) (link s) (link_len s) (link_k s)
    (link_idx s) (coll_origin s) (attach s) (attach_num s) (attach_pos s)
    (tether_len s).

Definition set_p (a : list (vec3 F)) (s : Sim F) : Sim F :=
  Build_Sim F (dt s) (device s) (substep_num s) (solver_num s)
    (drag_damping s) (enable_LRA s) (frame_num s) (me_groups s)
    (pin_index s) (bm s) (vertex_num s) (edge_num s) (face_num s)
    (link_num s) (x s) a (v s) (w s) (link s) (link_len s) (link_k s)
    (link_idx s) (coll_origin s) (attach s) (attach_num s) (attach_pos s)
    (tether_len s).

Definition set_v (a : list (vec3 F)) (s : Sim F) : Sim F :=
  Build_Sim F (dt s) (device s) (substep_num s) (solver_num s)
    (drag_damping s) (enable_LRA s) (frame_num s) (me_groups s)
    (pin_index s) (bm s) (vertex_num s) (edge_num s) (face_num s)
    (link_num s) (x s) (p s) a (w s) (link s) (link_len s) (link_k s)
    (link_idx s) (coll_origin s) (attach s) (attach_num s) (attach_pos s)
    (tether_len s).

Definition set_w (a : list F) (s : Sim F) : Sim F :=
  Build_Sim F (dt s) (device s) (substep_num s) (solver_num s)
    (drag_damping s) (enable_LRA s) (frame_num s) (me_groups s)
    (pin_index s) (bm s) (vertex_num s) (edge_num s) (face_num s)
    (link_num s) (x s) (p s) (v s) a (link s) (link_len s) (link_k s)
    (link_idx s) (coll_origin s) (attach s) (attach_num s) (attach_pos s)
    (tether_len s).

(** One row of the link table: [link[i]], [link_len[i]], [link_k[i]] and
    [link_idx += 1]. *)
Definition set_link (i : nat) (ij : nat * nat) (len k : F) (s : Sim F)
  : Sim F :=
  Build_Sim F (dt s) (device s) (substep_num s) (solver_num s)
    (drag_damping s) (enable_LRA s) (frame_num s) (me_groups s)
    (pin_index s) (bm s) (vertex_num s) (edge_num s) (face_num s)
    (link_num s) (x s) (p s) (v s) (w s) (<[i := ij]> (link s))
    (<[i := len]> (link_len s)) (<[i := k]> (link_k s))
    (S (link_idx s)) (coll_origin s) (attach s) (attach_num s)
    (attach_pos s) (tether_len s).

Definition set_link_idx (i : nat) (s : Sim F) : Sim F :=
  Build_Sim F (dt s) (device s) (substep_num s) (solver_num s)
    (drag_damping s) (enable_LRA s) (frame_num s) (me_groups s)
    (pin_index s) (bm s) (vertex_num s) (edge_num s) (face_num s)
    (link_num s) (x s) (p s) (v s) (w s) (link s) (link_len s) (link_k s)
    i (coll_origin s) (attach s) (attach_num s) (attach_pos s)
    (tether_len s).

Definition set_coll_origin (c : vec3 F) (s : Sim F) : Sim F :=
  Build_Sim F (dt s) (device s) (substep_num s) (solver_num s)
    (drag_damping s) (enable_LRA s) (frame_num s) (me_groups s)
    (pin_index s) (bm s) (vertex_num s) (edge_num s) (face_num s)
    (link_num s) (x s) (p s) (v s) (w s) (link s) (link_len s) (link_k s)
    (link_idx s) c (attach s) (attach_num s) (attach_pos s)
    (tether_len s).

Definition set_attach_pos (a : list (vec3 F)) (s : Sim F) : Sim F :=
  Build_Sim F (dt s) (device s) (substep_num s) (solver_num s)
    (drag_damping s) (enable_LRA s) (frame_num s) (me_groups s)
    (pin_index s) (bm s) (vertex_num s) (edge_num s) (face_num s)
    (link_num s) (x s) (p s) (v s) (w s) (link s) (link_len s) (link_k s)
    (link_idx s) (coll_origin s) (attach s) (attach_num s) a
    (tether_len s).

Definition set_tether_len (a : list (list F)) (s : Sim F) : Sim F :=
  Build_Sim F (dt s) (device s) (substep_num s) (solver_num s)
    (drag_damping s) (enable_LRA s) (frame_num s) (me_groups s)
    (pin_index s) (bm s) (vertex_num s) (edge_num s) (face_num s)
    (link_num s) (x s) (p s) (v s) (w s) (link s) (link_len s) (link_k s)
    (link_idx s) (coll_origin s) (attach s) (attach_num s) (attach_pos s)
    a.

(** Field reads [f[i]] and writes [f[i] = ...].  Every access of the source
    is in range (the fields are allocated with the sizes the loops run over);
    outside it the model reads zero and, with the list update [<[i := _]>],
    writes nothing. *)
Definition vget (a : list (vec3 F)) (i : nat) : vec3 F :=
  default vzero (a !! i).

Definition sget (a : list F) (i : nat) : F :=
  default (of_int 0) (a !! i).

Definition tget (a : list (list F)) (i j : nat) : F :=
  sget (default [] (a !! i)) j.

(** [for i in range(n): body], run in index order. *)
Definition for_range {S : Type} (n : nat) (body : nat -> S -> S) (s : S)
  : S :=
  fold_left (fun s i => body i s) (seq 0 n) s.


End Fields.

(** ** Topology builder *)

Section Builder.
Context {F : Type} `{Num F}.
Local Open Scope num_scope.

(** [for i in range(n): body] where the body may raise ([None]). *)
Definition for_range_opt {S : Type} (n : nat) (body : nat -> S -> option S)
  (s : S) : option S :=
  fold_left (fun os i => os ≫= body i) (seq 0 n) (Some s).

(** [attach_index in [vg.group for vg in v.groups]] *)
Definition in_group (g : nat) (gs : list (nat * F)) : bool :=
  existsb (fun vg => Nat.eqb g (fst vg)) gs.

(** [[v.index for v in me.vertices if ... in v.groups]] *)
Definition attach_indices (g : nat) (groups : list (list (nat * F)))
  : list nat :=
  fst <$> filter (fun ig => in_group g (snd ig) = true)
            (zip (seq 0 (length groups)) groups).

(** [set_faces]: two links per face, between the loop vertices [v[0+j]] and
    [v[1+j]] for [j] in [range(2)].  Indexing a face loop that is too short
    raises. *)
Definition set_face_link (fv : list (BMVert F)) (j : nat) (s : Sim F)
  : option (Sim F) :=
  a ← fv !! (0 + j)%nat;
  b ← fv !! (1 + j)%nat;
  Some (set_link (link_idx s) (index a, index b)
          (calc_dist (co a) (co b)) k_bend s).

Definition set_faces (s : Sim F) : option (Sim F) :=
  for_range_opt (face_num s)
    (fun i s =>
       fv ← faces (bm s) !! i;
       s0 ← set_face_link fv 0 s;
       set_face_link fv 1 s0) s.

(** [set_edges]: one link per mesh edge; [e.calc_length()] is the distance
    between the two ends of the edge. *)
Definition set_edges (s : Sim F) : option (Sim F) :=
  for_range_opt (edge_num s)
    (fun i s =>
       e ← edges (bm s) !! link_idx s;
       Some (set_link (link_idx s) (index (fst e), index (snd e))
               (calc_dist (co (fst e)) (co (snd e))) k_stretch s)) s.

(** [set_attachments] *)
Definition set_attachments (s : Sim F) : option (Sim F) :=
  for_range_opt (attach_num s)
    (fun i s =>
       a ← attach s !! i;
       bv ← verts (bm s) !! a;
       Some (set_attach_pos (<[i := co bv]> (attach_pos s)) s)) s.

(** The pin-group loop of [initialize]: a vertex in the pin group gets
    [w = 1 - weight] ([pin_group.weight(i)] is the weight of the group
    element [g] itself). *)
Definition set_pin_weight (i : nat) (gs : list (nat * F)) (s : Sim F)
  : Sim F :=
  fold_left
    (fun s g =>
       if Nat.eqb (fst g) (pin_index s)
       then set_w (<[i := of_int 1 - snd g]> (w s)) s
       else s) gs s.

(** [tether_len[i, att] = ...] *)
Definition set_tether (i att : nat) (d : F) (s : Sim F) : Sim F :=
  set_tether_len
    (<[i := <[att := d]> (default [] (tether_len s !! i))]> (tether_len s))
    s.

Definition initialize_vertex (i : nat) (s : Sim F) : option (Sim F) :=
  bv ← verts (bm s) !! i;
  let s := set_x (<[i := co bv]> (x s)) s in
  let s := set_w (<[i := of_int 1]> (w s)) s in
  gs ← me_groups s !! i;
  let s := set_pin_weight i gs s in
  Some (if enable_LRA s
        then for_range (attach_num s)
               (fun att s =>
                  set_tether i att
                    (calc_dist (vget (x s) i) (vget (attach_pos s) att)) s)
               s
        else s).

Definition initialize (s : Sim F) : option (Sim F) :=
  s ← (if enable_LRA s then set_attachments s else Some s);
  s ← for_range_opt (vertex_num s) initialize_vertex s;
  let s := set_link_idx 0 s in
  s ← set_edges s;
  set_faces s.

(** [TiClothSimulation.__init__] up to its last line: every field is
    allocated, filled with zeros.  Taichi refuses a field of size 0, and the
    source looks the vertex groups up by name; neither failure is modelled:
    a field of size 0 is the empty list, and the settings give the groups
    by their index.  The model's constructor so returns on some inputs on
    which the source raises; what is stated about its result is stated for
    the case that it returns. *)
Definition allocated (sdf_phy : SdfPhy F) (frame_end : nat) : Sim F :=
  let obj := cloth_obj sdf_phy in
  let b := bm_of obj in
  let vertex_num := length (verts b) in
  let edge_num := length (edges b) in
  let face_num := length (faces b) in
  let link_num := (edge_num + face_num * 2)%nat in
  let att :=
    if phy_enable_LRA sdf_phy
    then attach_indices (attach_group sdf_phy) (vertex_groups obj)
    else [] in
  let attach_num := length att in
  {| dt := time_step sdf_phy / of_ratio 1000 1;
     device := phy_device sdf_phy;
     substep_num := phy_substep_num sdf_phy;
     solver_num := phy_solver_num sdf_phy;
     drag_damping := phy_drag_damping sdf_phy;
     enable_LRA := phy_enable_LRA sdf_phy;
     frame_num := frame_end;
     me_groups := vertex_groups obj;
     pin_index := pin_group sdf_phy;
     bm := b;
     vertex_num := vertex_num;
     edge_num := edge_num;
     face_num := face_num;
     link_num := link_num;
     x := replicate vertex_num vzero;
     p := replicate vertex_num vzero;
     v := replicate vertex_num vzero;
     w := replicate vertex_num (of_int 0);
     link := replicate link_num (0, 0)%nat;
     link_len := replicate link_num (of_int 0);
     link_k := replicate link_num (of_int 0);
     link_idx := 0;
     coll_origin := vzero;
     attach := att;
     attach_num := attach_num;
     attach_pos := replicate attach_num vzero;
     tether_len := replicate vertex_num (replicate attach_num (of_int 0))
  |}.

(** [TiClothSimulation.__init__]: the allocation, then [initialize]. *)
Definition TiClothSimulation_init (sdf_phy : SdfPhy F) (frame_end : nat)
  : option (Sim F) :=
  initialize (allocated sdf_phy frame_end).
End Builder.

(** ** The substep kernels *)

Section Solver.
Context {F : Type} `{Num F} `{Elementary F}.
Local Open Scope num_scope.

(** [p[i] += d] *)
Definition p_add (i : nat) (d : vec3 F) (s : Sim F) : Sim F :=
  set_p (<[i := vadd (vget (p s) i) d]> (p s)) s.

(** [ti.Vector([0, 0, -9.8])] *)
Definition gravity : vec3 F :=
  Vec3 (of_int 0) (of_int 0) (- of_ratio 98 10).

(** Lines 149-152 (and 203-206): gravity, drag, predicted position. *)
Definition predict_vertex (i : nat) (s : Sim F) : Sim F :=
  let s :=
    set_v (<[i := vadd (vget (v s) i)
                    (vscale_r (vscale (dt s) gravity) (sget (w s) i))]>
             (v s)) s in
  let s :=
    set_v (<[i := vscale_r (vget (v s) i)
                    (nexp (- dt s * drag_damping s))]> (v s)) s in
  set_p (<[i := vadd (vget (x s) i) (vscale (dt s) (vget (v s) i))]> (p s))
    s.

Definition predict (s : Sim F) : Sim F :=
  for_range (vertex_num s) predict_vertex s.

(** Lines 158-165: the tether of vertex [vi] to attachment [att]. *)
Definition tether_dp (wv : F) (pv a : vec3 F) (dist_diff dist : F)
  : vec3 F :=
  vdiv (vscale (- of_ratio 5 10 * wv * dist_diff) (vsub pv a)) dist.

Definition tether_pair (vi att : nat) (s : Sim F) : Sim F :=
  if sget (w s) vi >? eps then
    let dist := norm (vsub (vget (p s) vi) (vget (attach_pos s) att)) in
    let dist_diff := dist - tget (tether_len s) vi att in
    if dist_diff / tget (tether_len s) vi att >? tether_give then
      let dp :=
        tether_dp (sget (w s) vi) (vget (p s) vi)
          (vget (attach_pos s) att) dist_diff dist in
      p_add vi (vscale k_LRA dp) s
    else s
  else s.

Definition tether_stage (s : Sim F) : Sim F :=
  for_range (vertex_num s)
    (fun vi s => for_range (attach_num s) (fun att s => tether_pair vi att s) s)
    s.

(** Line 174: [kp = 1 - pow((1 - link_k[l]), 1 / (n + 1))] *)
Definition link_kp (k : F) (n : nat) : F :=
  of_int 1 - npow (of_int 1 - k) (of_int 1 / of_int (Z.of_nat n + 1)).

(** Lines 178-179 and 183-184: the two endpoint corrections of a link. *)
Definition link_dp0 (w0 : F) (p_01 : vec3 F) (length : F) : vec3 F :=
  vscale (- of_ratio 5 10 * w0 * (norm p_01 - length)) (normalized p_01).

Definition link_dp1 (w1 : F) (p_01 : vec3 F) (length : F) : vec3 F :=
  vscale (of_ratio 5 10 * w1 * (norm p_01 - length)) (normalized p_01).

(** Lines 170-185: one link. *)
Definition link_one (n l : nat) (s : Sim F) : Sim F :=
  let p0 := fst (default (0, 0)%nat (link s !! l)) in
  let p1 := snd (default (0, 0)%nat (link s !! l)) in
  let p_01 := vsub (vget (p s) p0) (vget (p s) p1) in
  let kp := link_kp (sget (link_k s) l) n in
  let length := sget (link_len s) l in
  let s :=
    if sget (w s) p0 >? eps
    then p_add (fst (default (0, 0)%nat (link s !! l)))
           (vscale kp (link_dp0 (sget (w s) p0) p_01 length)) s
    else s in
  if sget (w s) p1 >? eps
  then p_add (snd (default (0, 0)%nat (link s !! l)))
         (vscale kp (link_dp1 (sget (w s) p1) p_01 length)) s
  else s.

Definition link_stage (n : nat) (s : Sim F) : Sim F :=
  for_range (link_num s) (link_one n) s.

(** Lines 188-194: the sphere collision of one vertex. *)
Definition collision_dp (pv c : vec3 F) (dist_diff dist : F) : vec3 F :=
  vscale (- dist_diff / dist) (vsub pv c).

Definition collide_vertex (vi : nat) (s : Sim F) : Sim F :=
  if sget (w s) vi >? eps then
    let dist := norm (vsub (vget (p s) vi) (coll_origin s)) in
    let dist_diff := dist - coll_r in
    if dist_diff <? of_int 0 then
      p_add vi (collision_dp (vget (p s) vi) (coll_origin s) dist_diff dist)
        s
    else s
  else s.

Definition collision_stage (s : Sim F) : Sim F :=
  for_range (vertex_num s) collide_vertex s.

(** Lines 155-194 (and, letter for letter, 209-248): the body of the
    solver loop for iteration [n]. *)
Definition solver_iteration (n : nat) (s : Sim F) : Sim F :=
  let s := if enable_LRA s then tether_stage s else s in
  let s := link_stage n s in
  collision_stage s.

(** Lines 196-199: velocity from the displacement, then commit. *)
Definition finalize_vertex (i : nat) (s : Sim F) : Sim F :=
  let s :=
    set_v (<[i := vdiv (vsub (vget (p s) i) (vget (x s) i)) (dt s)]> (v s))
      s in
  set_x (<[i := vget (p s) i]> (x s)) s.

Definition finalize (s : Sim F) : Sim F :=
  for_range (vertex_num s) finalize_vertex s.

(** [substep_cpu]: the solver loop is a run-time [range] loop, here with
    its iterations in index order. *)
Definition substep_cpu (s : Sim F) : Sim F :=
  let s := predict s in
  let s := for_range (solver_num s) solver_iteration s in
  finalize s.


(** [ti.static(range(k))]: the loop is unrolled when the kernel is
    compiled, into one copy of the body per value of [n]. *)
Fixpoint static_range {S : Type} (start k : nat) (body : nat -> S -> S)
  : list (S -> S) :=
  match k with
  | O => []
  | Datatypes.S k' => body start :: static_range (Datatypes.S start) k' body
  end.

Definition run_unrolled {S : Type} (code : list (S -> S)) (s : S) : S :=
  fold_right (fun stmt k => fun s => k (stmt s)) (fun s => s) code s.

(** [substep_gpu], from its own lines 203-253. *)

(** Lines 203-206. *)
Definition gpu_predict_vertex (i : nat) (s : Sim F) : Sim F :=
  let s :=
    set_v (<[i := vadd (vget (v s) i)
                    (vscale_r
                       (vscale (dt s)
                          (Vec3 (of_int 0) (of_int 0) (- of_ratio 98 10)))
                       (sget (w s) i))]>
             (v s)) s in
  let s :=
    set_v (<[i := vscale_r (vget (v s) i)
                    (nexp (- dt s * drag_damping s))]> (v s)) s in
  set_p (<[i := vadd (vget (x s) i) (vscale (dt s) (vget (v s) i))]> (p s))
    s.

Definition gpu_predict (s : Sim F) : Sim F :=
  for_range (vertex_num s) gpu_predict_vertex s.

(** Lines 212-219. *)
Definition gpu_tether_pair (vi att : nat) (s : Sim F) : Sim F :=
  if sget (w s) vi >? eps then
    let dist := norm (vsub (vget (p s) vi) (vget (attach_pos s) att)) in
    let dist_diff := dist - tget (tether_len s) vi att in
    if dist_diff / tget (tether_len s) vi att >? tether_give then
      let dp :=
        vdiv (vscale (- of_ratio 5 10 * sget (w s) vi * dist_diff)
                (vsub (vget (p s) vi) (vget (attach_pos s) att)))
          dist in
      set_p (<[vi := vadd (vget (p s) vi) (vscale k_LRA dp)]> (p s)) s
    else s
  else s.

(** Lines 210-219. *)
Definition gpu_tether_stage (s : Sim F) : Sim F :=
  for_range (vertex_num s)
    (fun vi s =>
       for_range (attach_num s) (fun att s => gpu_tether_pair vi att s) s)
    s.

(** Lines 224-239. *)
Definition gpu_link_one (n l : nat) (s : Sim F) : Sim F :=
  let p0 := fst (default (0, 0)%nat (link s !! l)) in
  let p1 := snd (default (0, 0)%nat (link s !! l)) in
  let p_01 := vsub (vget (p s) p0) (vget (p s) p1) in
  let kp :=
    of_int 1
    - npow (of_int 1 - sget (link_k s) l)
        (of_int 1 / of_int (Z.of_nat n + 1)) in
  let length := sget (link_len s) l in
  let s :=
    if sget (w s) p0 >? eps
    then
      let dp0 :=
        vscale (- of_ratio 5 10 * sget (w s) p0 * (norm p_01 - length))
          (normalized p_01) in
      set_p (<[fst (default (0, 0)%nat (link s !! l))
               := vadd (vget (p s) (fst (default (0, 0)%nat (link s !! l))))
                    (vscale kp dp0)]> (p s)) s
    else s in
  if sget (w s) p1 >? eps
  then
    let dp1 :=
      vscale (of_ratio 5 10 * sget (w s) p1 * (norm p_01 - length))
        (normalized p_01) in
    set_p (<[snd (default (0, 0)%nat (link s !! l))
             := vadd (vget (p s) (snd (default (0, 0)%nat (link s !! l))))
                  (vscale kp dp1)]> (p s)) s
  else s.

(** Lines 223-239, in index order. *)
Definition gpu_link_stage (n : nat) (s : Sim F) : Sim F :=
  for_range (link_num s) (gpu_link_one n) s.

(** Lines 242-248. *)
Definition gpu_collide_vertex (vi : nat) (s : Sim F) : Sim F :=
  if sget (w s) vi >? eps then
    let dist := norm (vsub (vget (p s) vi) (coll_origin s)) in
    let dist_diff := dist - coll_r in
    if dist_diff <? of_int 0 then
      let dp := vscale (- dist_diff / dist) (vsub (vget (p s) vi)
                                                (coll_origin s)) in
      set_p (<[vi := vadd (vget (p s) vi) dp]> (p s)) s
    else s
  else s.

(** Lines 241-248. *)
Definition gpu_collision_stage (s : Sim F) : Sim F :=
  for_range (vertex_num s) gpu_collide_vertex s.

(** Lines 209-248: one copy of the body of the unrolled loop. *)
Definition gpu_solver_iteration (n : nat) (s : Sim F) : Sim F :=
  let s := if enable_LRA s then gpu_tether_stage s else s in
  let s := gpu_link_stage n s in
  gpu_collision_stage s.

(** Lines 250-253. *)
Definition gpu_finalize_vertex (i : nat) (s : Sim F) : Sim F :=
  let s :=
    set_v (<[i := vdiv (vsub (vget (p s) i) (vget (x s) i)) (dt s)]> (v s))
      s in
  set_x (<[i := vget (p s) i]> (x s)) s.

Definition gpu_finalize (s : Sim F) : Sim F :=
  for_range (vertex_num s) gpu_finalize_vertex s.

(** [substep_gpu]: the solver loop is unrolled, and every loop runs in
    index order. *)
Definition substep_gpu (s : Sim F) : Sim F :=
  let s := gpu_predict s in
  let s :=
    run_unrolled (static_range 0 (solver_num s) gpu_solver_iteration) s in
  gpu_finalize s.



(** ** The frame generator of [animate] *)

(** [substep = self.substep_cpu if self.device == 'CPU' else
    self.substep_gpu] *)
Definition substep (s : Sim F) : Sim F :=
  match device s with
  | CPU => substep_cpu s
  | GPU => substep_gpu s
  end.

(** The inner loop of [main]: before each substep the collider origin is
    read from [c_obj.location]; [location step] is the value read at
    substep [step]. *)
Definition run_substeps (location : nat -> vec3 F) (s : Sim F) : Sim F :=
  for_range (substep_num s)
    (fun step s => substep (set_coll_origin (location step) s)) s.

(** What the generator hands to the host at a [yield]: the positions given
    to [nb.mesh_update]. *)
Inductive Event := MeshUpdate (xs : list (vec3 F)).

(** [main]: per frame, first the [yield] of the mesh update, then the
    substeps.  [location frame step] is what [c_obj.location] holds at that
    substep.  The result is the sequence of yields and the state the
    generator ends in. *)
Fixpoint main_loop (location : nat -> nat -> vec3 F) (frame count : nat)
  (s : Sim F) : list Event * Sim F :=
  match count with
  | O => ([], s)
  | Datatypes.S count' =>
      let ev := MeshUpdate (x s) in
      let s := run_substeps (location frame) s in
      let '(evs, s') := main_loop location (Datatypes.S frame) count' s in
      (ev :: evs, s')
  end.

Definition animate (location : nat -> nat -> vec3 F) (s : Sim F)
  : list Event * Sim F :=
  main_loop location 0 (frame_num s) s.
End Solver.

(** ** The two scalar instances *)

(** *** Real numbers *)

Definition Rgtb (a b : R) : bool := if Rgt_dec a b then true else false.
Definition Rltb (a b : R) : bool := if Rlt_dec a b then true else false.

#[export] Instance R_Num : Num R := {
  of_ratio n d := (IZR n / IZR d)%R;
  of_int := IZR;
  nadd := Rplus;
  nsub := Rminus;
  nmul := Rmult;
  ndiv := Rdiv;
  nopp := Ropp;
  nsqrt := sqrt;
  ngt := Rgtb;
  nlt := Rltb
}.

(** [pow] on a positive base, which is all the kernels apply it to:
    [1 - link_k] is [1 - k_stretch] or [1 - k_bend]. *)
#[export] Instance R_Elementary : Elementary R := {
  nexp := exp;
  npow := Rpower
}.

(** *** IEEE-754 binary32 *)

Definition f32 : Type := spec_float.
Definition prec32 : Z := 24.
Definition emax32 : Z := 128.

Definition f32_of_int (z : Z) : f32 := binary_normalize prec32 emax32 z 0 false.

(** A decimal literal, rounded to nearest: numerator and denominator of every
    literal of the source are exact in binary32. *)
Definition f32_of_ratio (n d : Z) : f32 :=
  SFdiv prec32 emax32 (f32_of_int n) (f32_of_int d).

#[export] Instance f32_Num : Num f32 := {
  of_ratio := f32_of_ratio;
  of_int := f32_of_int;
  nadd := SFadd prec32 emax32;
  nsub := SFsub prec32 emax32;
  nmul := SFmul prec32 emax32;
  ndiv := SFdiv prec32 emax32;
  nopp := SFopp;
  nsqrt := SFsqrt prec32 emax32;
  ngt a b := SFltb b a;
  nlt a b := SFltb a b
}.

Definition is_nan (a : f32) : bool :=
  match a with S754_nan => true | _ => false end.

Definition is_finite (a : f32) : bool :=
  match a with S754_zero _ | S754_finite _ _ _ => true | _ => false end.

Definition nan3 : vec3 f32 := Vec3 S754_nan S754_nan S754_nan.

(** ** Vocabulary of the statements *)

Section Vocabulary.
Context {F : Type} `{Num F} `{Elementary F}.
Local Open Scope num_scope.

(** The simulation object without its three evolving fields. *)
Definition static (s : Sim F) : Sim F := set_x [] (set_p [] (set_v [] s)).

(** [s'] differs from [s] at most in the contents of [x], [p] and [v]. *)
Definition kernel_frame (s s' : Sim F) : Prop :=
  static s' = static s /\
  length (x s') = length (x s) /\
  length (p s') = length (p s) /\
  length (v s') = length (v s).

(** The fields [x], [p] and [v] have the shape they are allocated with. *)
Definition shaped (s : Sim F) : Prop :=
  length (x s) = vertex_num s /\
  length (p s) = vertex_num s /\
  length (v s) = vertex_num s.

(** The velocity and the position the predict stage computes for a vertex
    of inverse mass [wi] at [xi] moving with [vi]. *)
Definition predicted_v (s : Sim F) (wi : F) (vi : vec3 F) : vec3 F :=
  vscale_r (vadd vi (vscale_r (vscale (dt s) gravity) wi))
    (nexp (- dt s * drag_damping s)).

Definition predicted_p (s : Sim F) (wi : F) (xi vi : vec3 F) : vec3 F :=
  vadd xi (vscale (dt s) (predicted_v s wi vi)).

(** Where the collision stage leaves a vertex of inverse mass [wi] whose
    predicted position is [pv], the collider being at [c]. *)
Definition collided (wi : F) (c pv : vec3 F) : vec3 F :=
  if wi >? eps then
    let dist := norm (vsub pv c) in
    let dist_diff := dist - coll_r in
    if dist_diff <? of_int 0
    then vadd pv (collision_dp pv c dist_diff dist)
    else pv
  else pv.

(** The guard [w[i] > eps] of the correction stages fails for vertex
    [i]. *)
Definition passed_over (s : Sim F) (i : nat) : Prop :=
  (sget (w s) i >? eps) = false.

(** The simulation object without the fields the topology builder
    fills. *)
Definition builder_static (s : Sim F) : Sim F :=
  set_tether_len [] (set_attach_pos [] (set_link_idx 0
    (Build_Sim F (dt s) (device s) (substep_num s) (solver_num s)
       (drag_damping s) (enable_LRA s) (frame_num s) (me_groups s)
       (pin_index s) (bm s) (vertex_num s) (edge_num s) (face_num s)
       (link_num s) [] (p s) (v s) [] [] [] [] (link_idx s)
       (coll_origin s) (attach s) (attach_num s) (attach_pos s)
       (tether_len s)))).

(** [s'] differs from [s] at most in the contents of the fields the
    builder fills. *)
Definition builder_frame (s s' : Sim F) : Prop :=
  builder_static s' = builder_static s /\
  length (x s') = length (x s) /\
  length (w s') = length (w s) /\
  length (link s') = length (link s) /\
  length (link_len s') = length (link_len s) /\
  length (link_k s') = length (link_k s) /\
  length (attach_pos s') = length (attach_pos s).

(** Row [k] of the link table. *)
Definition link_row (s : Sim F) (k : nat)
  : option (nat * nat) * option F * option F :=
  (link s !! k, link_len s !! k, link_k s !! k).

(** The rows of the faces: at [base + 2 * i + j] the link between the
    loop vertices [j] and [j + 1] of face [i], for the first [m] faces. *)
Definition bend_rows (fs : list (list (BMVert F))) (base m : nat)
  (s' : Sim F) : Prop :=
  forall i fv j, (i < m)%nat -> fs !! i = Some fv -> (j < 2)%nat ->
    exists a b,
      fv !! j = Some a /\ fv !! Datatypes.S j = Some b /\
      link_row s' (base + 2 * i + j)%nat
      = (Some (index a, index b), Some (calc_dist (co a) (co b)),
         Some k_bend).

(** The rows of the edges: at [i] the link between the two ends of edge
    [i], for the first [m] edges. *)
Definition stretch_rows (es : list (BMVert F * BMVert F)) (m : nat)
  (s' : Sim F) : Prop :=
  forall i e, (i < m)%nat -> es !! i = Some e ->
    link_row s' i
    = (Some (index (fst e), index (snd e)),
       Some (calc_dist (co (fst e)) (co (snd e))), Some k_stretch).

(** The state after [k] iterations of the solver loop. *)
Definition relaxed (k : nat) (s : Sim F) : Sim F :=
  for_range k solver_iteration (predict s).

(** The state the generator has reached after [k] frames. *)
Definition after_frames (location : nat -> nat -> vec3 F) (k : nat)
  (s : Sim F) : Sim F :=
  for_range k (fun frame s => run_substeps (location frame) s) s.
End Vocabulary.

(** ** Concrete inputs *)

Section RealInputs.
Local Open Scope R_scope.

(** The state of a pinned vertex that the frames keep. *)
Definition pinned_at (i : nat) (xi : vec3 R) (s : Sim R) : Prop :=
  shaped s /\ w s !! i = Some 0 /\ x s !! i = Some xi /\
  v s !! i = Some vzero.

Definition bmvert (i : nat) (a b c : R) : BMVert R :=
  {| index := i; co := Vec3 a b c |}.

(** A single triangle; vertex 0 is in the pin group 0 with weight 1. *)
Definition tri_bm : BMesh R :=
  {| verts := [bmvert 0 0 0 0; bmvert 1 1 0 0; bmvert 2 0 1 0];
     edges := [(bmvert 0 0 0 0, bmvert 1 1 0 0);
               (bmvert 1 1 0 0, bmvert 2 0 1 0);
               (bmvert 2 0 1 0, bmvert 0 0 0 0)];
     faces := [[bmvert 0 0 0 0; bmvert 1 1 0 0; bmvert 2 0 1 0]] |}.

Definition tri_phy (substeps : nat) : SdfPhy R :=
  {| time_step := 1000;
     phy_device := CPU;
     phy_substep_num := substeps;
     phy_solver_num := 1;
     phy_drag_damping := 0;
     phy_enable_LRA := false;
     cloth_obj := {| vertex_groups := [[(0%nat, 1)]; []; []];
                     bm_of := tri_bm |};
     pin_group := 0;
     attach_group := 1 |}.

(** What the constructor makes of it. *)
Definition tri_sim (substeps : nat) : Sim R :=
  {| dt := 1000 / (1000 / 1);
     device := CPU;
     substep_num := substeps;
     solver_num := 1;
     drag_damping := 0;
     enable_LRA := false;
     frame_num := 2;
     me_groups := [[(0%nat, 1)]; []; []];
     pin_index := 0;
     bm := tri_bm;
     vertex_num := 3;
     edge_num := 3;
     face_num := 1;
     link_num := 5;
     x := [Vec3 0 0 0; Vec3 1 0 0; Vec3 0 1 0];
     p := [Vec3 0 0 0; Vec3 0 0 0; Vec3 0 0 0];
     v := [Vec3 0 0 0; Vec3 0 0 0; Vec3 0 0 0];
     w := [1 - 1; 1; 1];
     link := [(0, 1); (1, 2); (2, 0); (0, 1); (1, 2)]%nat;
     link_len := [calc_dist (Vec3 0 0 0) (Vec3 1 0 0);
                  calc_dist (Vec3 1 0 0) (Vec3 0 1 0);
                  calc_dist (Vec3 0 1 0) (Vec3 0 0 0);
                  calc_dist (Vec3 0 0 0) (Vec3 1 0 0);
                  calc_dist (Vec3 1 0 0) (Vec3 0 1 0)];
     link_k := [k_stretch; k_stretch; k_stretch; k_bend; k_bend];
     link_idx := 5;
     coll_origin := Vec3 0 0 0;
     attach := [];
     attach_num := 0;
     attach_pos := [];
     tether_len := [[]; []; []] |}.

(** One free-standing vertex of inverse mass [wi], at rest at the origin,
    with no links; the solver loop runs [iters] times. *)
Definition dot_sim (wi : R) (iters : nat) : Sim R :=
  {| dt := 1;
     device := CPU;
     substep_num := 1;
     solver_num := iters;
     drag_damping := 0;
     enable_LRA := false;
     frame_num := 1;
     me_groups := [[]];
     pin_index := 0;
     bm := {| verts := [bmvert 0 0 0 0]; edges := []; faces := [] |};
     vertex_num := 1;
     edge_num := 0;
     face_num := 0;
     link_num := 0;
     x := [Vec3 0 0 0];
     p := [Vec3 0 0 0];
     v := [Vec3 0 0 0];
     w := [wi];
     link := [];
     link_len := [];
     link_k := [];
     link_idx := 0;
     coll_origin := Vec3 0 0 0;
     attach := [];
     attach_num := 0;
     attach_pos := [];
     tether_len := [[]] |}.

(** The collider does not move. *)
Definition still (frame step : nat) : vec3 R := Vec3 0 0 0.
(** Two vertices of inverse masses [1] and [1/2], two units apart, joined
    by one stretch link of rest length [1]. *)
Definition pair_sim : Sim R :=
  {| dt := 1;
     device := CPU;
     substep_num := 1;
     solver_num := 1;
     drag_damping := 0;
     enable_LRA := false;
     frame_num := 1;
     me_groups := [[]; []];
     pin_index := 0;
     bm := {| verts := [bmvert 0 2 0 0; bmvert 1 0 0 0];
              edges := [(bmvert 0 2 0 0, bmvert 1 0 0 0)];
              faces := [] |};
     vertex_num := 2;
     edge_num := 1;
     face_num := 0;
     link_num := 1;
     x := [Vec3 2 0 0; Vec3 0 0 0];
     p := [Vec3 2 0 0; Vec3 0 0 0];
     v := [Vec3 0 0 0; Vec3 0 0 0];
     w := [1; 1 / 2];
     link := [(0, 1)%nat];
     link_len := [1];
     link_k := [k_stretch];
     link_idx := 1;
     coll_origin := Vec3 0 0 0;
     attach := [];
     attach_num := 0;
     attach_pos := [];
     tether_len := [[]; []] |}.
End RealInputs.

Section LoneVertex.
Context {F : Type} `{Num F}.

(** One vertex of inverse mass [wi] with no links, predicted at [pv], the
    collider being at [c]. *)
Definition lone_vertex (wi : F) (pv c : vec3 F) : Sim F :=
  {| dt := of_int 1;
     device := CPU;
     substep_num := 1;
     solver_num := 1;
     drag_damping := of_int 0;
     enable_LRA := false;
     frame_num := 1;
     me_groups := [[]];
     pin_index := 0;
     bm := {| verts := [{| index := 0; co := pv |}];
              edges := []; faces := [] |};
     vertex_num := 1;
     edge_num := 0;
     face_num := 0;
     link_num := 0;
     x := [pv];
     p := [pv];
     v := [vzero];
     w := [wi];
     link := [];
     link_len := [];
     link_k := [];
     link_idx := 0;
     coll_origin := c;
     attach := [];
     attach_num := 0;
     attach_pos := [];
     tether_len := [[]] |}.
End LoneVertex.

Section Binary32Inputs.
(** All three entries are zeros or finite numbers. *)
Definition finite3 (a : vec3 f32) : bool :=
  is_finite (vx a) && is_finite (vy a) && is_finite (vz a).

Definition zero3 : vec3 f32 :=
  Vec3 (S754_zero false) (S754_zero false) (S754_zero false).

(** [pow] and [exp] as far as the first solver iteration of a kernel
    without drag evaluates them: [pow(a, 1 / (0 + 1))] is [a] and
    [exp(-dt * 0)] is [1]. *)
Definition f32_first_iteration : Elementary f32 :=
  {| nexp := fun _ => f32_of_int 1; npow := fun a _ => a |}.

(** One vertex of inverse mass [1] at [(1, 0, 0)], tethered to an
    attachment point at the same place with rest length [tl]. *)
Definition tethered (tl : f32) : Sim f32 :=
  {| dt := of_int 1;
     device := CPU;
     substep_num := 1;
     solver_num := 1;
     drag_damping := of_int 0;
     enable_LRA := true;
     frame_num := 1;
     me_groups := [[(1, of_int 1)]];
     pin_index := 0;
     bm := {| verts := [{| index := 0;
                           co := Vec3 (of_int 1) (of_int 0) (of_int 0) |}];
              edges := []; faces := [] |};
     vertex_num := 1;
     edge_num := 0;
     face_num := 0;
     link_num := 0;
     x := [Vec3 (of_int 1) (of_int 0) (of_int 0)];
     p := [Vec3 (of_int 1) (of_int 0) (of_int 0)];
     v := [vzero];
     w := [of_int 1];
     link := [];
     link_len := [];
     link_k := [];
     link_idx := 0;
     coll_origin := Vec3 (of_int 5) (of_int 0) (of_int 0);
     attach := [0];
     attach_num := 1;
     attach_pos := [Vec3 (of_int 1) (of_int 0) (of_int 0)];
     tether_len := [[tl]] |}.
End Binary32Inputs.

(** ** Vocabulary of the further properties *)

Section BuilderVocabulary.
Context {F : Type} `{Num F}.
Local Open Scope num_scope.

(** The inverse mass the pin-group loop of [initialize] leaves for a vertex
    whose group list is [gs]: [1], overwritten by [1 - weight] at every
    entry of the pin group. *)
Definition pin_inverse_mass (pin : nat) (gs : list (nat * F)) : F :=
  fold_left
    (fun acc g => if Nat.eqb (fst g) pin then of_int 1 - snd g else acc)
    gs (of_int 1).

(** The row of rest lengths the tether loop of [initialize] writes for a
    vertex at [xi], over the row [row] it finds. *)
Definition tether_row (xi : vec3 F) (apos : list (vec3 F)) (n : nat)
  (row : list F) : list F :=
  for_range n (fun att row => <[att := calc_dist xi (vget apos att)]> row) row.

(** The fields the vertex loop of [initialize] fills. *)
Definition vertex_fields (s : Sim F)
  : list (vec3 F) * list F * list (list F) * list (vec3 F) :=
  (x s, w s, tether_len s, attach_pos s).

(** Every vertex an edge or a face refers to has its index inside the
    vertex table. *)
Definition mesh_in_range (b : BMesh F) : Prop :=
  (forall e, e ∈ edges b ->
     (index (fst e) < length (verts b))%nat /\
     (index (snd e) < length (verts b))%nat) /\
  (forall fv bv, fv ∈ faces b -> bv ∈ fv ->
     (index bv < length (verts b))%nat).
End BuilderVocabulary.

Section RealInputsLRA.
Local Open Scope R_scope.

(** The triangle again, with long-range attachment: vertex 0 is pinned
    (group 0, weight 1) and is the one attachment point (group 1); vertex 1
    is pinned half ([weight 1/2]). *)
Definition tri_phy_lra : SdfPhy R :=
  {| time_step := 1000;
     phy_device := GPU;
     phy_substep_num := 1;
     phy_solver_num := 1;
     phy_drag_damping := 0;
     phy_enable_LRA := true;
     cloth_obj := {| vertex_groups := [[(0%nat, 1); (1%nat, 1)];
                                       [(0%nat, 1 / 2)]; []];
                     bm_of := tri_bm |};
     pin_group := 0;
     attach_group := 1 |}.
End RealInputsLRA.

Section MeshVocabulary.
Context {F : Type}.

(** The two ends of every edge are different vertices, and no face loop
    visits a vertex twice. *)
Definition mesh_simple (b : BMesh F) : Prop :=
  (forall e, e ∈ edges b -> index (fst e) <> index (snd e)) /\
  (forall fv, fv ∈ faces b -> NoDup (index <$> fv)).
End MeshVocabulary.

Section FrameVocabulary.
Context {F : Type} `{Num F}.

(** The simulation object without what a frame may change: the three
    evolving fields and the collider origin. *)
Definition fixed_part (s : Sim F) : Sim F :=
  static (set_coll_origin vzero s).

(** [s'] differs from [s] at most in the contents of [x], [p], [v] and in
    the collider origin. *)
Definition frames_keep (s s' : Sim F) : Prop :=
  fixed_part s' = fixed_part s /\
  length (x s') = length (x s) /\
  length (p s') = length (p s) /\
  length (v s') = length (v s).

(** The positions a yield carries. *)
Definition event_positions (ev : @Event F) : list (vec3 F) :=
  match ev with MeshUpdate xs => xs end.
End FrameVocabulary.

Section RestVocabulary.
Local Open Scope R_scope.

(** The predicted positions satisfy every constraint the solver loop
    enforces: each link has its rest length, which is positive (so no link
    joins two vertices at the same place), no vertex is inside the
    collider, and, where long-range attachment is on, no tether is stretched
    beyond [tether_give].  No division of the solver loop is by zero on such
    a state. *)
Definition constraints_hold (s : Sim R) : Prop :=
  (forall l, (l < link_num s)%nat ->
     0 < sget (link_len s) l /\
     norm (vsub (vget (p s) (fst (default (0, 0)%nat (link s !! l))))
                (vget (p s) (snd (default (0, 0)%nat (link s !! l)))))
     = sget (link_len s) l) /\
  (forall vi, (vi < vertex_num s)%nat ->
     coll_r <= norm (vsub (vget (p s) vi) (coll_origin s))) /\
  (enable_LRA s = true ->
   forall vi att, (vi < vertex_num s)%nat -> (att < attach_num s)%nat ->
     0 < tget (tether_len s) vi att /\
     norm (vsub (vget (p s) vi) (vget (attach_pos s) att))
       - tget (tether_len s) vi att
     <= tether_give * tget (tether_len s) vi att).
End RestVocabulary.

Section Binary32InputsLRA.
(** The settings that give [tethered]: one vertex at [(1, 0, 0)], not
    pinned, which is the one attachment point (group 1). *)
Definition tethered_phy : SdfPhy f32 :=
  {| time_step := of_int 1000;
     phy_device := CPU;
     phy_substep_num := 1;
     phy_solver_num := 1;
     phy_drag_damping := of_int 0;
     phy_enable_LRA := true;
     cloth_obj :=
       {| vertex_groups := [[(1%nat, of_int 1)]];
          bm_of := {| verts := [{| index := 0;
                                   co := Vec3 (of_int 1) (of_int 0)
                                           (of_int 0) |}];
                      edges := []; faces := [] |} |};
     pin_group := 0;
     attach_group := 1 |}.
End Binary32InputsLRA.

Section Binary32Pair.
(** Two vertices of inverse mass [1], at [(7, 0, 0)] and [(5, 0, 0)], joined
    by one stretch link of rest length [2]; the collider is at the
    origin. *)
Definition pair_sim32 : Sim f32 :=
  {| dt := of_int 1;
     device := CPU;
     substep_num := 1;
     solver_num := 1;
     drag_damping := of_int 0;
     enable_LRA := false;
     frame_num := 1;
     me_groups := [[]; []];
     pin_index := 0;
     bm := {| verts := [{| index := 0;
                           co := Vec3 (of_int 7) (of_int 0) (of_int 0) |};
                        {| index := 1;
                           co := Vec3 (of_int 5) (of_int 0) (of_int 0) |}];
              edges := [({| index := 0;
                            co := Vec3 (of_int 7) (of_int 0) (of_int 0) |},
                         {| index := 1;
                            co := Vec3 (of_int 5) (of_int 0) (of_int 0) |})];
              faces := [] |};
     vertex_num := 2;
     edge_num := 1;
     face_num := 0;
     link_num := 1;
     x := [Vec3 (of_int 7) (of_int 0) (of_int 0);
           Vec3 (of_int 5) (of_int 0) (of_int 0)];
     p := [vzero; vzero];
     v := [vzero; vzero];
     w := [of_int 1; of_int 1];
     link := [(0, 1)%nat];
     link_len := [of_int 2];
     link_k := [k_stretch];
     link_idx := 1;
     coll_origin := vzero;
     attach := [];
     attach_num := 0;
     attach_pos := [];
     tether_len := [[]; []] |}.
End Binary32Pair.

Section Binary32Quad.
(** A single quadrilateral face, the unit square, with its four edges; no
    vertex is pinned and long-range attachment is off. *)
Definition quad_vert (i : nat) (a b : Z) : BMVert f32 :=
  {| index := i; co := Vec3 (of_int a) (of_int b) (of_int 0) |}.

Definition quad_bm : BMesh f32 :=
  {| verts := [quad_vert 0 0 0; quad_vert 1 1 0; quad_vert 2 1 1;
               quad_vert 3 0 1];
     edges := [(quad_vert 0 0 0, quad_vert 1 1 0);
               (quad_vert 1 1 0, quad_vert 2 1 1);
               (quad_vert 2 1 1, quad_vert 3 0 1);
               (quad_vert 3 0 1, quad_vert 0 0 0)];
     faces := [[quad_vert 0 0 0; quad_vert 1 1 0; quad_vert 2 1 1;
                quad_vert 3 0 1]] |}.

Definition quad_phy : SdfPhy f32 :=
  {| time_step := of_int 1000;
     phy_device := CPU;
     phy_substep_num := 1;
     phy_solver_num := 1;
     phy_drag_damping := of_int 0;
     phy_enable_LRA := false;
     cloth_obj := {| vertex_groups := [[]; []; []; []]; bm_of := quad_bm |};
     pin_group := 0;
     attach_group := 1 |}.
End Binary32Quad.

Section RealInputsHanging.
Local Open Scope R_scope.



End RealInputsHanging.

(** * Properties *)

(** ** Loops *)

Section Loops.
Context {S : Type}.

Lemma for_range_succ n (body : nat -> S -> S) s :
  for_range (Datatypes.S n) body s = body n (for_range n body s).
Proof.
  unfold for_range. rewrite seq_S, fold_left_app. reflexivity.
Qed.

(** An invariant of the body is an invariant of the loop. *)
Lemma for_range_inv (P : S -> Prop) n (body : nat -> S -> S) s :
  (forall i s, i < n -> P s -> P (body i s)) ->
  P s -> P (for_range n body s).
Proof.
  intros Hbody Hs. induction n as [|n IH]; [exact Hs|].
  rewrite for_range_succ. apply Hbody; [lia|].
  apply IH. intros i s' Hi. apply Hbody. lia.
Qed.

(** A loop whose iterations leave an observation alone leaves it alone. *)
Lemma for_range_skip {A : Type} (Inv : S -> Prop) (obs : S -> A)
  n (body : nat -> S -> S) s :
  (forall j s, Inv s -> Inv (body j s)) ->
  (forall j s, j < n -> Inv s -> obs (body j s) = obs s) ->
  Inv s -> obs (for_range n body s) = obs s.
Proof.
  intros Hinv Hne Hs.
  apply (for_range_inv (fun s' => Inv s' /\ obs s' = obs s)); [|by split].
  intros j s' Hj [Hs' Ho]. split; [by apply Hinv|].
  by rewrite Hne.
Qed.

(** A loop whose iteration [j] leaves an observation alone unless [j = i],
    and whose iteration [i] maps it through [g], maps it through [g]. *)
Lemma for_range_at {A : Type} (Inv : S -> Prop) (obs : S -> A) (g : A -> A)
  i n (body : nat -> S -> S) s :
  (forall j s, Inv s -> Inv (body j s)) ->
  (forall j s, j <> i -> Inv s -> obs (body j s) = obs s) ->
  (forall s, Inv s -> obs (body i s) = g (obs s)) ->
  Inv s -> i < n -> obs (for_range n body s) = g (obs s).
Proof.
  intros Hinv Hne Hi Hs. induction n as [|n IH]; [lia|].
  intros Hlt. rewrite for_range_succ.
  assert (Hinvn : Inv (for_range n body s)).
  { apply for_range_inv; [|exact Hs]. intros; by apply Hinv. }
  destruct (decide (i = n)) as [->|Hin].
  - rewrite Hi by exact Hinvn. f_equal.
    apply (for_range_skip Inv); [exact Hinv| |exact Hs].
    intros j s' Hj. apply Hne. lia.
  - rewrite Hne by done. apply IH. lia.
Qed.

Lemma for_range_ext n (body body' : nat -> S -> S) s :
  (forall i s, body i s = body' i s) ->
  for_range n body s = for_range n body' s.
Proof.
  intros Hb. induction n as [|n IH]; [reflexivity|].
  by rewrite !for_range_succ, IH, Hb.
Qed.

(** Peeling the first iteration instead of the last. *)
Lemma for_range_first n (body : nat -> S -> S) s :
  for_range (Datatypes.S n) body s
  = for_range n (fun i => body (Datatypes.S i)) (body 0 s).
Proof.
  unfold for_range. simpl. generalize (body 0 s) as s'.
  generalize 0 as a.
  induction n as [|n IH]; intros a s'; [reflexivity|].
  simpl. apply IH.
Qed.

Lemma for_range_opt_succ n (body : nat -> S -> option S) s :
  for_range_opt (Datatypes.S n) body s = for_range_opt n body s ≫= body n.
Proof.
  unfold for_range_opt. rewrite seq_S, fold_left_app. reflexivity.
Qed.

Lemma for_range_opt_inv (P : S -> Prop) n (body : nat -> S -> option S)
  s s' :
  (forall i s s', i < n -> P s -> body i s = Some s' -> P s') ->
  P s -> for_range_opt n body s = Some s' -> P s'.
Proof.
  intros Hbody Hs. revert s'. induction n as [|n IH]; intros s'.
  - unfold for_range_opt. simpl. by intros [= <-].
  - rewrite for_range_opt_succ.
    destruct (for_range_opt n body s) as [s1|] eqn:E; [|done].
    simpl. intros Hb. eapply (Hbody n s1); [lia| |exact Hb].
    apply IH; [|reflexivity]. intros i a b Hi. apply Hbody. lia.
Qed.

(** A loop whose body never raises under the invariant returns. *)
Lemma for_range_opt_total (P : S -> Prop) n (body : nat -> S -> option S)
  s :
  (forall i s, i < n -> P s -> exists s', body i s = Some s' /\ P s') ->
  P s -> exists s', for_range_opt n body s = Some s' /\ P s'.
Proof.
  intros Hbody Hs. induction n as [|n IH].
  - exists s. by split.
  - destruct IH as (s1 & E & Hs1). { intros i a Hi. apply Hbody. lia. }
    rewrite for_range_opt_succ, E. simpl. apply Hbody; [lia|done].
Qed.
End Loops.

(** ** What a kernel stage may change *)

Section Frames.
Context {F : Type} `{Num F} `{Elementary F}.

Lemma kernel_frame_refl (s : Sim F) : kernel_frame s s.
Proof. by repeat split. Qed.

Lemma kernel_frame_trans (s1 s2 s3 : Sim F) :
  kernel_frame s1 s2 -> kernel_frame s2 s3 -> kernel_frame s1 s3.
Proof.
  intros (A & B & C & D) (A' & B' & C' & D').
  repeat split; congruence.
Qed.

Lemma kernel_frame_set_p (s : Sim F) a :
  length a = length (p s) -> kernel_frame s (set_p a s).
Proof. intros E. by repeat split. Qed.

Lemma kernel_frame_set_v (s : Sim F) a :
  length a = length (v s) -> kernel_frame s (set_v a s).
Proof. intros E. by repeat split. Qed.

Lemma kernel_frame_set_x (s : Sim F) a :
  length a = length (x s) -> kernel_frame s (set_x a s).
Proof. intros E. by repeat split. Qed.

Section FrameFields.
Variables s s' : Sim F.
Hypothesis Hf : kernel_frame s s'.

Lemma frame_w : w s' = w s.
Proof. destruct Hf as [E _]. exact (f_equal w E). Qed.
Lemma frame_dt : dt s' = dt s.
Proof. destruct Hf as [E _]. exact (f_equal dt E). Qed.
Lemma frame_drag_damping : drag_damping s' = drag_damping s.
Proof. destruct Hf as [E _]. exact (f_equal drag_damping E). Qed.
Lemma frame_device : device s' = device s.
Proof. destruct Hf as [E _]. exact (f_equal device E). Qed.
Lemma frame_vertex_num : vertex_num s' = vertex_num s.
Proof. destruct Hf as [E _]. exact (f_equal vertex_num E). Qed.
Lemma frame_substep_num : substep_num s' = substep_num s.
Proof. destruct Hf as [E _]. exact (f_equal substep_num E). Qed.
Lemma frame_solver_num : solver_num s' = solver_num s.
Proof. destruct Hf as [E _]. exact (f_equal solver_num E). Qed.
Lemma frame_coll_origin : coll_origin s' = coll_origin s.
Proof. destruct Hf as [E _]. exact (f_equal coll_origin E). Qed.
Lemma frame_enable_LRA : enable_LRA s' = enable_LRA s.
Proof. destruct Hf as [E _]. exact (f_equal enable_LRA E). Qed.
Lemma frame_link : link s' = link s.
Proof. destruct Hf as [E _]. exact (f_equal link E). Qed.
Lemma frame_link_num : link_num s' = link_num s.
Proof. destruct Hf as [E _]. exact (f_equal link_num E). Qed.

Lemma frame_shaped : shaped s -> shaped s'.
Proof.
  destruct Hf as (E & A & B & C). unfold shaped.
  rewrite A, B, C, frame_vertex_num. tauto.
Qed.
End FrameFields.

Lemma p_add_frame (s : Sim F) i d : kernel_frame s (p_add i d s).
Proof. apply kernel_frame_set_p. apply length_insert. Qed.

(** A loop of framed steps is framed. *)
Lemma for_range_frame n (body : nat -> Sim F -> Sim F) (s : Sim F) :
  (forall i s, kernel_frame s (body i s)) ->
  kernel_frame s (for_range n body s).
Proof.
  intros Hb. apply (for_range_inv (kernel_frame s)).
  - intros i s' _ Hs'. eapply kernel_frame_trans; [exact Hs'|apply Hb].
  - apply kernel_frame_refl.
Qed.

Lemma predict_vertex_frame i (s : Sim F) : kernel_frame s (predict_vertex i s).
Proof.
  unfold predict_vertex.
  repeat (eapply kernel_frame_trans;
          [|first [apply kernel_frame_set_p | apply kernel_frame_set_v];
            apply length_insert]).
  apply kernel_frame_refl.
Qed.

Lemma predict_frame (s : Sim F) : kernel_frame s (predict s).
Proof. apply for_range_frame, predict_vertex_frame. Qed.

Lemma tether_pair_frame vi att (s : Sim F) :
  kernel_frame s (tether_pair vi att s).
Proof.
  unfold tether_pair.
  repeat case_match; first [apply p_add_frame | apply kernel_frame_refl].
Qed.

Lemma tether_stage_frame (s : Sim F) : kernel_frame s (tether_stage s).
Proof.
  apply for_range_frame. intros i s'.
  apply for_range_frame. intros j s''. apply tether_pair_frame.
Qed.

Lemma link_one_frame n l (s : Sim F) : kernel_frame s (link_one n l s).
Proof.
  unfold link_one. cbv zeta.
  repeat case_match;
    repeat (eapply kernel_frame_trans; [|apply p_add_frame]);
    apply kernel_frame_refl.
Qed.

Lemma link_stage_frame n (s : Sim F) : kernel_frame s (link_stage n s).
Proof. apply for_range_frame, link_one_frame. Qed.

Lemma collide_vertex_frame vi (s : Sim F) :
  kernel_frame s (collide_vertex vi s).
Proof.
  unfold collide_vertex.
  repeat case_match; first [apply p_add_frame | apply kernel_frame_refl].
Qed.

Lemma collision_stage_frame (s : Sim F) : kernel_frame s (collision_stage s).
Proof. apply for_range_frame, collide_vertex_frame. Qed.

Lemma solver_iteration_frame n (s : Sim F) :
  kernel_frame s (solver_iteration n s).
Proof.
  unfold solver_iteration. cbv zeta.
  eapply kernel_frame_trans; [|apply collision_stage_frame].
  eapply kernel_frame_trans; [|apply link_stage_frame].
  destruct (enable_LRA s); [apply tether_stage_frame|apply kernel_frame_refl].
Qed.

Lemma relaxed_frame k (s : Sim F) : kernel_frame s (relaxed k s).
Proof.
  unfold relaxed. eapply kernel_frame_trans; [apply predict_frame|].
  apply for_range_frame, solver_iteration_frame.
Qed.

Lemma finalize_vertex_frame i (s : Sim F) :
  kernel_frame s (finalize_vertex i s).
Proof.
  unfold finalize_vertex. cbv zeta.
  eapply kernel_frame_trans;
    [apply kernel_frame_set_v|apply kernel_frame_set_x]; apply length_insert.
Qed.

Lemma finalize_frame (s : Sim F) : kernel_frame s (finalize s).
Proof. apply for_range_frame, finalize_vertex_frame. Qed.
End Frames.

(** ** Stages that work vertex by vertex *)

Section Pointwise.
Context {F : Type} `{Num F} `{Elementary F}.
Local Open Scope num_scope.

Lemma vget_lookup (a : list (vec3 F)) i c : a !! i = Some c -> vget a i = c.
Proof. unfold vget. by intros ->. Qed.

Lemma sget_lookup (a : list F) i c : a !! i = Some c -> sget a i = c.
Proof. unfold sget. by intros ->. Qed.

Lemma vget_insert (a : list (vec3 F)) i c :
  i < length a -> vget (<[i := c]> a) i = c.
Proof. intros Hi. apply vget_lookup. by apply list_lookup_insert_eq. Qed.

Lemma lookup_vget (a : list (vec3 F)) i :
  i < length a -> a !! i = Some (vget a i).
Proof.
  intros Hi. unfold vget.
  destruct (lookup_lt_is_Some_2 a i Hi) as [c ->]. reflexivity.
Qed.

Lemma p_add_other (s : Sim F) i j d :
  i <> j -> p (p_add j d s) !! i = p s !! i.
Proof. intros Hne. simpl. by apply list_lookup_insert_ne. Qed.

Lemma p_add_same (s : Sim F) i d :
  i < length (p s) -> p (p_add i d s) !! i = Some (vadd (vget (p s) i) d).
Proof. intros Hi. simpl. by apply list_lookup_insert_eq. Qed.

(** *** Predict *)

Lemma predict_vertex_other i j (s : Sim F) :
  i <> j ->
  v (predict_vertex j s) !! i = v s !! i /\
  p (predict_vertex j s) !! i = p s !! i.
Proof.
  intros Hne. unfold predict_vertex. simpl.
  by rewrite !list_lookup_insert_ne.
Qed.

Lemma predict_vertex_x i (s : Sim F) : x (predict_vertex i s) = x s.
Proof. reflexivity. Qed.

Lemma predict_vertex_same i (s : Sim F) :
  i < length (v s) -> i < length (p s) ->
  v (predict_vertex i s) !! i
    = Some (predicted_v s (sget (w s) i) (vget (v s) i)) /\
  p (predict_vertex i s) !! i
    = Some (predicted_p s (sget (w s) i) (vget (x s) i) (vget (v s) i)).
Proof.
  intros Hv Hp. unfold predict_vertex, predicted_p, predicted_v. simpl.
  rewrite !vget_insert by (rewrite ?length_insert; done).
  rewrite !list_lookup_insert_eq by (rewrite ?length_insert; done).
  done.
Qed.

Lemma predict_x (s : Sim F) : x (predict s) = x s.
Proof.
  unfold predict.
  apply (for_range_skip (fun _ => True) x); auto.
Qed.

Lemma predict_at i wi xi vi (s : Sim F) :
  shaped s ->
  w s !! i = Some wi -> x s !! i = Some xi -> v s !! i = Some vi ->
  v (predict s) !! i = Some (predicted_v s wi vi) /\
  p (predict s) !! i = Some (predicted_p s wi xi vi).
Proof.
  intros (Hx & Hp & Hv) Hw Hxi Hvi.
  assert (Hi : i < vertex_num s).
  { rewrite <- Hv. by eapply lookup_lt_Some. }
  pose (g := fun o : option (vec3 F) * option (vec3 F) =>
               (Some (predicted_v s wi (default vzero (fst o))),
                Some (predicted_p s wi xi (default vzero (fst o))))).
  enough (E : (fun s' => (v s' !! i, p s' !! i)) (predict s)
              = g (v s !! i, p s !! i)).
  { unfold g in E. simpl in E. rewrite Hvi in E. simpl in E.
    by injection E as -> ->. }
  unfold predict.
  apply (for_range_at (fun s' => kernel_frame s s' /\ x s' = x s)
           (fun s' => (v s' !! i, p s' !! i)) g i).
  - intros j s' [Hf Hx']. split; [|by rewrite predict_vertex_x].
    eapply kernel_frame_trans; [exact Hf|apply predict_vertex_frame].
  - intros j s' Hne _.
    destruct (predict_vertex_other i j s') as [-> ->]; done.
  - intros s' [Hf Hx'].
    destruct Hf as (Hst & _ & Hlp & Hlv).
    destruct (predict_vertex_same i s') as [-> ->]; [lia..|].
    unfold g, predicted_p, predicted_v, vget, sget. simpl.
    rewrite Hx', Hxi.
    change (w s') with (w (static s')). change (dt s') with (dt (static s')).
    change (drag_damping s') with (drag_damping (static s')).
    rewrite Hst. simpl. rewrite Hw. reflexivity.
  - split; [apply kernel_frame_refl|done].
  - exact Hi.
Qed.

(** *** Collision *)

Lemma collide_vertex_other i j (s : Sim F) :
  i <> j -> p (collide_vertex j s) !! i = p s !! i.
Proof.
  intros Hne. unfold collide_vertex.
  repeat case_match; try done; by apply p_add_other.
Qed.

Lemma collide_vertex_same i (s : Sim F) :
  i < length (p s) ->
  p (collide_vertex i s) !! i
    = Some (collided (sget (w s) i) (coll_origin s) (vget (p s) i)).
Proof.
  intros Hi. unfold collide_vertex, collided.
  repeat case_match; try (by apply lookup_vget); by apply p_add_same.
Qed.

Lemma collision_stage_at i wi pv (s : Sim F) :
  i < vertex_num s ->
  w s !! i = Some wi -> p s !! i = Some pv ->
  p (collision_stage s) !! i = Some (collided wi (coll_origin s) pv).
Proof.
  intros Hi Hw Hp.
  pose (g := fun o : option (vec3 F) =>
               Some (collided wi (coll_origin s) (default vzero o))).
  enough (E : (fun s' => p s' !! i) (collision_stage s) = g (p s !! i)).
  { unfold g in E. by rewrite Hp in E. }
  unfold collision_stage.
  apply (for_range_at (kernel_frame s) (fun s' => p s' !! i) g i).
  - intros j s' Hf.
    eapply kernel_frame_trans; [exact Hf|apply collide_vertex_frame].
  - intros j s' Hne _. by apply collide_vertex_other.
  - intros s' Hf. rewrite collide_vertex_same.
    + unfold g, vget, sget.
      by rewrite (frame_w _ _ Hf), (frame_coll_origin _ _ Hf), Hw.
    + destruct Hf as (_ & _ & -> & _). by eapply lookup_lt_Some.
  - apply kernel_frame_refl.
  - exact Hi.
Qed.

(** *** Finalize *)

Lemma finalize_vertex_other i j (s : Sim F) :
  i <> j ->
  v (finalize_vertex j s) !! i = v s !! i /\
  x (finalize_vertex j s) !! i = x s !! i.
Proof.
  intros Hne. unfold finalize_vertex. simpl.
  by rewrite !list_lookup_insert_ne.
Qed.

Lemma finalize_vertex_p i (s : Sim F) : p (finalize_vertex i s) = p s.
Proof. reflexivity. Qed.

Lemma finalize_vertex_same i (s : Sim F) :
  i < length (v s) -> i < length (x s) ->
  v (finalize_vertex i s) !! i
    = Some (vdiv (vsub (vget (p s) i) (vget (x s) i)) (dt s)) /\
  x (finalize_vertex i s) !! i = Some (vget (p s) i).
Proof.
  intros Hv Hx. unfold finalize_vertex. simpl.
  by rewrite !list_lookup_insert_eq.
Qed.

Lemma finalize_p (s : Sim F) : p (finalize s) = p s.
Proof.
  unfold finalize. apply (for_range_skip (fun _ => True) p); auto.
Qed.

Lemma finalize_at i xi pv (s : Sim F) :
  shaped s ->
  x s !! i = Some xi -> p s !! i = Some pv ->
  v (finalize s) !! i = Some (vdiv (vsub pv xi) (dt s)) /\
  x (finalize s) !! i = Some pv.
Proof.
  intros (Hx & Hp & Hv) Hxi Hpi.
  assert (Hi : i < vertex_num s).
  { rewrite <- Hx. by eapply lookup_lt_Some. }
  pose (g := fun o : option (vec3 F) * option (vec3 F) =>
               (Some (vdiv (vsub pv (default vzero (snd o))) (dt s)),
                Some pv)).
  enough (E : (fun s' => (v s' !! i, x s' !! i)) (finalize s)
              = g (v s !! i, x s !! i)).
  { unfold g in E. simpl in E. rewrite Hxi in E. simpl in E.
    by injection E as -> ->. }
  unfold finalize.
  apply (for_range_at (fun s' => kernel_frame s s' /\ p s' = p s)
           (fun s' => (v s' !! i, x s' !! i)) g i).
  - intros j s' [Hf Hp']. split; [|by rewrite finalize_vertex_p].
    eapply kernel_frame_trans; [exact Hf|apply finalize_vertex_frame].
  - intros j s' Hne _.
    destruct (finalize_vertex_other i j s') as [-> ->]; done.
  - intros s' [Hf Hp'].
    destruct (finalize_vertex_same i s') as [-> ->].
    + destruct Hf as (_ & _ & _ & ->). lia.
    + destruct Hf as (_ & -> & _ & _). lia.
    + unfold g, vget. simpl.
      by rewrite Hp', Hpi, (frame_dt _ _ Hf).
  - split; [apply kernel_frame_refl|done].
  - exact Hi.
Qed.
End Pointwise.

(** ** Vertices the correction stages pass over *)

Section Skips.
Context {F : Type} `{Num F} `{Elementary F}.
Local Open Scope num_scope.

Lemma passed_over_frame (s s' : Sim F) i :
  kernel_frame s s' -> passed_over s i -> passed_over s' i.
Proof. intros Hf. unfold passed_over. by rewrite (frame_w _ _ Hf). Qed.

Lemma skip_loop i n (body : nat -> Sim F -> Sim F) (s : Sim F) :
  (forall j s, kernel_frame s (body j s)) ->
  (forall j s, passed_over s i -> p (body j s) !! i = p s !! i) ->
  passed_over s i -> p (for_range n body s) !! i = p s !! i.
Proof.
  intros Hfr Hb Hs.
  apply (for_range_skip (kernel_frame s) (fun s' => p s' !! i)).
  - intros j s' Hf. eapply kernel_frame_trans; [exact Hf|apply Hfr].
  - intros j s' _ Hf. apply Hb. by apply (passed_over_frame s).
  - apply kernel_frame_refl.
Qed.

Lemma tether_pair_skip i vi att (s : Sim F) :
  passed_over s i -> p (tether_pair vi att s) !! i = p s !! i.
Proof.
  unfold passed_over, tether_pair. intros Hs.
  destruct (decide (vi = i)) as [->|Hne]; [by rewrite Hs|].
  repeat case_match; try done. by apply p_add_other.
Qed.

Lemma tether_stage_skip i (s : Sim F) :
  passed_over s i -> p (tether_stage s) !! i = p s !! i.
Proof.
  unfold tether_stage. apply skip_loop.
  - intros j s'. apply for_range_frame. intros. apply tether_pair_frame.
  - intros j s'. apply skip_loop.
    + intros. apply tether_pair_frame.
    + intros. by apply tether_pair_skip.
Qed.

Lemma link_one_skip i n l (s : Sim F) :
  passed_over s i -> p (link_one n l s) !! i = p s !! i.
Proof.
  unfold passed_over, link_one. intros Hs. cbv zeta.
  destruct (sget (w s) (default (0, 0) (link s !! l)).1 >? eps) eqn:E0.
  - change (w (p_add _ _ s)) with (w s).
    change (link (p_add _ _ s)) with (link s).
    destruct (sget (w s) (default (0, 0) (link s !! l)).2 >? eps) eqn:E1.
    + rewrite !p_add_other; [done|congruence..].
    + rewrite p_add_other; [done|congruence].
  - destruct (sget (w s) (default (0, 0) (link s !! l)).2 >? eps) eqn:E1.
    + rewrite p_add_other; [done|congruence].
    + done.
Qed.

Lemma link_stage_skip i n (s : Sim F) :
  passed_over s i -> p (link_stage n s) !! i = p s !! i.
Proof.
  unfold link_stage. apply skip_loop.
  - apply link_one_frame.
  - intros. by apply link_one_skip.
Qed.

Lemma collide_vertex_skip i vi (s : Sim F) :
  passed_over s i -> p (collide_vertex vi s) !! i = p s !! i.
Proof.
  unfold passed_over, collide_vertex. intros Hs.
  destruct (decide (vi = i)) as [->|Hne]; [by rewrite Hs|].
  repeat case_match; try done. by apply p_add_other.
Qed.

Lemma collision_stage_skip i (s : Sim F) :
  passed_over s i -> p (collision_stage s) !! i = p s !! i.
Proof.
  unfold collision_stage. apply skip_loop.
  - apply collide_vertex_frame.
  - intros. by apply collide_vertex_skip.
Qed.

Lemma solver_iteration_skip i n (s : Sim F) :
  passed_over s i -> p (solver_iteration n s) !! i = p s !! i.
Proof.
  intros Hs. unfold solver_iteration. cbv zeta.
  assert (Hf1 : kernel_frame s (if enable_LRA s then tether_stage s else s)).
  { destruct (enable_LRA s);
      [apply tether_stage_frame|apply kernel_frame_refl]. }
  rewrite collision_stage_skip.
  2:{ eapply passed_over_frame; [|exact Hs].
      eapply kernel_frame_trans; [exact Hf1|apply link_stage_frame]. }
  rewrite link_stage_skip by (by eapply passed_over_frame).
  destruct (enable_LRA s); [by apply tether_stage_skip|done].
Qed.

Lemma relaxed_skip i k (s : Sim F) :
  passed_over s i -> p (relaxed k s) !! i = p (predict s) !! i.
Proof.
  intros Hs. unfold relaxed. apply skip_loop.
  - apply solver_iteration_frame.
  - intros. by apply solver_iteration_skip.
  - eapply passed_over_frame; [apply predict_frame|exact Hs].
Qed.

(** *** The two kernels *)

Lemma run_unrolled_static {S : Type} k start (body : nat -> S -> S) s :
  run_unrolled (static_range start k body) s
  = fold_left (fun s i => body i s) (seq start k) s.
Proof.
  revert start s. induction k as [|k IH]; intros start s; [reflexivity|].
  simpl. apply IH.
Qed.

(** The stages of [substep_gpu] are, line for line, those of
    [substep_cpu]. *)
Lemma gpu_predict_vertex_cpu : gpu_predict_vertex = predict_vertex.
Proof. reflexivity. Qed.

Lemma gpu_tether_pair_cpu : gpu_tether_pair = tether_pair.
Proof. reflexivity. Qed.

Lemma gpu_link_one_cpu : gpu_link_one = link_one.
Proof. reflexivity. Qed.

Lemma gpu_collide_vertex_cpu : gpu_collide_vertex = collide_vertex.
Proof. reflexivity. Qed.

Lemma gpu_finalize_vertex_cpu : gpu_finalize_vertex = finalize_vertex.
Proof. reflexivity. Qed.

Lemma gpu_solver_iteration_cpu : gpu_solver_iteration = solver_iteration.
Proof.
  unfold gpu_solver_iteration, solver_iteration, gpu_tether_stage,
    tether_stage, gpu_link_stage, link_stage, gpu_collision_stage,
    collision_stage.
  by rewrite gpu_tether_pair_cpu, gpu_link_one_cpu, gpu_collide_vertex_cpu.
Qed.

Lemma substep_gpu_cpu (s : Sim F) : substep_gpu s = substep_cpu s.
Proof.
  unfold substep_gpu, substep_cpu, gpu_predict, predict, gpu_finalize,
    finalize.
  cbv zeta.
  rewrite gpu_predict_vertex_cpu, gpu_finalize_vertex_cpu,
    gpu_solver_iteration_cpu.
  by rewrite run_unrolled_static.
Qed.

Lemma substep_is_cpu (s : Sim F) : substep s = substep_cpu s.
Proof. unfold substep. destruct (device s); [done|apply substep_gpu_cpu]. Qed.

Lemma substep_cpu_relaxed (s : Sim F) :
  substep_cpu s = finalize (relaxed (solver_num s) s).
Proof.
  unfold substep_cpu, relaxed. cbv zeta.
  by rewrite (frame_solver_num _ _ (predict_frame s)).
Qed.

Lemma substep_frame (s : Sim F) : kernel_frame s (substep s).
Proof.
  rewrite substep_is_cpu, substep_cpu_relaxed.
  eapply kernel_frame_trans; [apply relaxed_frame|apply finalize_frame].
Qed.

(** The solver loop writes [p] only. *)
Lemma xv_loop n (body : nat -> Sim F -> Sim F) (s : Sim F) :
  (forall j s, x (body j s) = x s /\ v (body j s) = v s) ->
  x (for_range n body s) = x s /\ v (for_range n body s) = v s.
Proof.
  intros Hb.
  apply (for_range_inv (fun s' => x s' = x s /\ v s' = v s)); [|done].
  intros j s' _ [<- <-]. apply Hb.
Qed.

Lemma tether_pair_xv vi att (s : Sim F) :
  x (tether_pair vi att s) = x s /\ v (tether_pair vi att s) = v s.
Proof. unfold tether_pair. by repeat case_match. Qed.

Lemma link_one_xv n l (s : Sim F) :
  x (link_one n l s) = x s /\ v (link_one n l s) = v s.
Proof. unfold link_one. cbv zeta. by repeat case_match. Qed.

Lemma collide_vertex_xv vi (s : Sim F) :
  x (collide_vertex vi s) = x s /\ v (collide_vertex vi s) = v s.
Proof. unfold collide_vertex. by repeat case_match. Qed.

Lemma tether_stage_xv (s : Sim F) :
  x (tether_stage s) = x s /\ v (tether_stage s) = v s.
Proof.
  apply xv_loop. intros j s'. apply xv_loop. intros. apply tether_pair_xv.
Qed.

Lemma link_stage_xv n (s : Sim F) :
  x (link_stage n s) = x s /\ v (link_stage n s) = v s.
Proof. apply xv_loop, link_one_xv. Qed.

Lemma collision_stage_xv (s : Sim F) :
  x (collision_stage s) = x s /\ v (collision_stage s) = v s.
Proof. apply xv_loop, collide_vertex_xv. Qed.

Lemma solver_iteration_xv n (s : Sim F) :
  x (solver_iteration n s) = x s /\ v (solver_iteration n s) = v s.
Proof.
  unfold solver_iteration. cbv zeta.
  destruct (collision_stage_xv
              (link_stage n (if enable_LRA s then tether_stage s else s)))
    as [-> ->].
  destruct (link_stage_xv n (if enable_LRA s then tether_stage s else s))
    as [-> ->].
  destruct (enable_LRA s); [apply tether_stage_xv|done].
Qed.

Lemma relaxed_x k (s : Sim F) : x (relaxed k s) = x s.
Proof.
  unfold relaxed.
  destruct (xv_loop k solver_iteration (predict s) solver_iteration_xv)
    as [-> _].
  apply predict_x.
Qed.

(** After a substep the velocity of a vertex is its displacement over
    [dt]. *)
Lemma substep_velocity i xi xi' (s : Sim F) :
  shaped s ->
  x s !! i = Some xi -> x (substep s) !! i = Some xi' ->
  v (substep s) !! i = Some (vdiv (vsub xi' xi) (dt s)).
Proof.
  intros Hsh Hx. rewrite substep_is_cpu, substep_cpu_relaxed.
  pose proof (relaxed_frame (solver_num s) s) as Hf.
  pose proof (frame_shaped _ _ Hf Hsh) as Hsh'.
  destruct (lookup_lt_is_Some_2 (p (relaxed (solver_num s) s)) i)
    as [pv Hpv].
  { destruct Hsh' as (_ & Lp & _). destruct Hsh as (Lx & _).
    rewrite Lp, (frame_vertex_num _ _ Hf), <- Lx.
    by eapply lookup_lt_Some. }
  destruct (finalize_at i xi pv (relaxed (solver_num s) s) Hsh')
    as [Ev Ex]; [by rewrite relaxed_x|done|].
  rewrite Ex, Ev, (frame_dt _ _ Hf). by intros [= ->].
Qed.

(** One substep at a vertex the correction stages pass over. *)
Lemma substep_passed_over i wi xi vi (s : Sim F) :
  shaped s ->
  w s !! i = Some wi -> x s !! i = Some xi -> v s !! i = Some vi ->
  passed_over s i ->
  x (substep s) !! i = Some (predicted_p s wi xi vi) /\
  v (substep s) !! i
    = Some (vdiv (vsub (predicted_p s wi xi vi) xi) (dt s)).
Proof.
  intros Hsh Hw Hx Hv Hs.
  rewrite substep_is_cpu, substep_cpu_relaxed.
  pose proof (relaxed_frame (solver_num s) s) as Hf.
  destruct (predict_at i wi xi vi s Hsh Hw Hx Hv) as [_ Hp].
  destruct (finalize_at i xi (predicted_p s wi xi vi)
              (relaxed (solver_num s) s)) as [Ev Ex].
  - by apply (frame_shaped s).
  - by rewrite relaxed_x.
  - by rewrite relaxed_skip.
  - by rewrite Ex, Ev, (frame_dt _ _ Hf).
Qed.
End Skips.

(** ** Kernels under a schedule *)

Section ParallelLoops.
Context {S : Type}.




End ParallelLoops.

Section Schedules.
Context {F : Type} `{Num F} `{Elementary F}.















End Schedules.

(** ** The topology builder *)

Section BuilderFacts.
Context {F : Type} `{Num F}.

Lemma builder_frame_refl (s : Sim F) : builder_frame s s.
Proof. by repeat split. Qed.

Lemma builder_frame_trans (s1 s2 s3 : Sim F) :
  builder_frame s1 s2 -> builder_frame s2 s3 -> builder_frame s1 s3.
Proof.
  intros (A & B & C & D & E & G & I) (A' & B' & C' & D' & E' & G' & I').
  repeat split; congruence.
Qed.

Section BuilderFields.
Variables s s' : Sim F.
Hypothesis Hf : builder_frame s s'.

Lemma builder_dt : dt s' = dt s.
Proof. destruct Hf as [E _]. exact (f_equal dt E). Qed.
Lemma builder_v : v s' = v s.
Proof. destruct Hf as [E _]. exact (f_equal v E). Qed.
Lemma builder_p : p s' = p s.
Proof. destruct Hf as [E _]. exact (f_equal p E). Qed.
Lemma builder_bm : bm s' = bm s.
Proof. destruct Hf as [E _]. exact (f_equal bm E). Qed.
Lemma builder_me_groups : me_groups s' = me_groups s.
Proof. destruct Hf as [E _]. exact (f_equal me_groups E). Qed.
Lemma builder_vertex_num : vertex_num s' = vertex_num s.
Proof. destruct Hf as [E _]. exact (f_equal vertex_num E). Qed.
Lemma builder_edge_num : edge_num s' = edge_num s.
Proof. destruct Hf as [E _]. exact (f_equal edge_num E). Qed.
Lemma builder_face_num : face_num s' = face_num s.
Proof. destruct Hf as [E _]. exact (f_equal face_num E). Qed.
Lemma builder_attach : attach s' = attach s.
Proof. destruct Hf as [E _]. exact (f_equal attach E). Qed.
Lemma builder_attach_num : attach_num s' = attach_num s.
Proof. destruct Hf as [E _]. exact (f_equal attach_num E). Qed.
Lemma builder_enable_LRA : enable_LRA s' = enable_LRA s.
Proof. destruct Hf as [E _]. exact (f_equal enable_LRA E). Qed.
End BuilderFields.

Lemma set_link_frame (s : Sim F) k ij len kk :
  builder_frame s (set_link k ij len kk s).
Proof. repeat split; simpl; by rewrite ?length_insert. Qed.

Lemma set_link_row_same (s : Sim F) k ij len kk :
  k < length (link s) -> k < length (link_len s) -> k < length (link_k s) ->
  link_row (set_link k ij len kk s) k = (Some ij, Some len, Some kk).
Proof.
  intros A B C. unfold link_row. simpl.
  by rewrite !list_lookup_insert_eq.
Qed.

Lemma set_link_row_other (s : Sim F) k k' ij len kk :
  k <> k' -> link_row (set_link k ij len kk s) k' = link_row s k'.
Proof.
  intros Hne. unfold link_row. simpl.
  by rewrite !list_lookup_insert_ne.
Qed.

(** One face: the two rows at [link_idx] and [link_idx + 1]. *)
Lemma set_face_links (fv : list (BMVert F)) (s : Sim F) :
  3 <= length fv ->
  link_idx s + 2 <= length (link s) ->
  link_idx s + 2 <= length (link_len s) ->
  link_idx s + 2 <= length (link_k s) ->
  exists s',
    (set_face_link fv 0 s ≫= set_face_link fv 1) = Some s' /\
    link_idx s' = link_idx s + 2 /\
    builder_frame s s' /\
    (forall j, j < 2 ->
       exists a b,
         fv !! j = Some a /\ fv !! Datatypes.S j = Some b /\
         link_row s' (link_idx s + j)
         = (Some (index a, index b), Some (calc_dist (co a) (co b)),
            Some k_bend)) /\
    (forall k, k < link_idx s \/ link_idx s + 2 <= k ->
               link_row s' k = link_row s k).
Proof.
  intros Hlen A B C.
  destruct fv as [|a [|b [|c fv]]]; simpl in Hlen; try lia.
  unfold set_face_link. simpl.
  eexists. split; [reflexivity|]. split; [simpl; lia|].
  split.
  { eapply builder_frame_trans; apply set_link_frame. }
  split.
  - intros j Hj.
    destruct j as [|[|j]]; [| |lia].
    + exists a, b. split; [done|]. split; [done|].
      rewrite Nat.add_0_r, set_link_row_other by (simpl; lia).
      apply set_link_row_same; lia.
    + exists b, c. split; [done|]. split; [done|].
      replace (link_idx s + 1) with (Datatypes.S (link_idx s)) by lia.
      apply (set_link_row_same (set_link _ _ _ _ s));
        simpl; rewrite length_insert; lia.
  - intros k Hk.
    rewrite !set_link_row_other; [done| |]; simpl; lia.
Qed.

Lemma set_faces_prefix (s : Sim F) m :
  m <= length (faces (bm s)) ->
  (forall fv, fv ∈ faces (bm s) -> 3 <= length fv) ->
  link_idx s + 2 * m <= length (link s) ->
  link_idx s + 2 * m <= length (link_len s) ->
  link_idx s + 2 * m <= length (link_k s) ->
  exists s',
    for_range_opt m
      (fun i s =>
         fv ← faces (bm s) !! i;
         s0 ← set_face_link fv 0 s;
         set_face_link fv 1 s0) s = Some s' /\
    link_idx s' = link_idx s + 2 * m /\
    builder_frame s s' /\
    bend_rows (faces (bm s)) (link_idx s) m s' /\
    (forall k, k < link_idx s \/ link_idx s + 2 * m <= k ->
               link_row s' k = link_row s k).
Proof.
  intros Hm Hfaces. induction m as [|m IH]; intros A B C.
  - exists s. split; [reflexivity|]. split; [lia|].
    split; [apply builder_frame_refl|]. split; [|done].
    intros i fv j Hi. lia.
  - destruct IH as (s1 & E1 & Hidx & Hfr & Hrows & Hother); [lia..|].
    rewrite for_range_opt_succ, E1. simpl.
    rewrite (builder_bm _ _ Hfr).
    destruct (lookup_lt_is_Some_2 (faces (bm s)) m) as [fv Hfv]; [lia|].
    rewrite Hfv. simpl.
    destruct Hfr as (Hst & Lx & Lw & Ll & Lll & Llk & Lap).
    destruct (set_face_links fv s1) as (s2 & E2 & Hidx2 & Hfr2 & Hr2 & Ho2).
    { apply Hfaces. by eapply list_elem_of_lookup_2. }
    { lia. } { lia. } { lia. }
    exists s2. split; [exact E2|]. split; [lia|].
    split.
    { eapply builder_frame_trans; [|exact Hfr2]. by repeat split. }
    split.
    + intros i fv' j Hi Hfv' Hj.
      destruct (decide (i = m)) as [->|Hne].
      * assert (fv' = fv) as -> by congruence.
        destruct (Hr2 j Hj) as (a & b & Ha & Hb & Hrow).
        exists a, b. split; [done|]. split; [done|].
        rewrite <- Hrow. f_equal. lia.
      * destruct (Hrows i fv' j) as (a & b & Ha & Hb & Hrow);
          [lia|done|done|].
        exists a, b. split; [done|]. split; [done|].
        rewrite Ho2; [done|]. left. lia.
    + intros k Hk. rewrite Ho2 by lia. apply Hother. lia.
Qed.

(** [set_faces] returns, and appends two rows per face. *)
Lemma set_faces_rows (s : Sim F) :
  face_num s = length (faces (bm s)) ->
  (forall fv, fv ∈ faces (bm s) -> 3 <= length fv) ->
  link_idx s + 2 * face_num s <= length (link s) ->
  link_idx s + 2 * face_num s <= length (link_len s) ->
  link_idx s + 2 * face_num s <= length (link_k s) ->
  exists s',
    set_faces s = Some s' /\
    link_idx s' = link_idx s + 2 * face_num s /\
    builder_frame s s' /\
    bend_rows (faces (bm s)) (link_idx s) (face_num s) s' /\
    (forall k, k < link_idx s \/ link_idx s + 2 * face_num s <= k ->
               link_row s' k = link_row s k).
Proof.
  intros Hn Hfaces A B C. unfold set_faces.
  apply set_faces_prefix; try done. lia.
Qed.

Lemma set_edges_rows (s : Sim F) :
  link_idx s = 0 ->
  edge_num s = length (edges (bm s)) ->
  edge_num s <= length (link s) ->
  edge_num s <= length (link_len s) ->
  edge_num s <= length (link_k s) ->
  exists s',
    set_edges s = Some s' /\
    link_idx s' = edge_num s /\
    builder_frame s s' /\
    stretch_rows (edges (bm s)) (edge_num s) s'.
Proof.
  intros Hidx Hn A B C. unfold set_edges.
  rewrite Hn in A, B, C. rewrite Hn.
  assert (Hm : length (edges (bm s)) <= length (edges (bm s))) by lia.
  revert Hm A B C.
  generalize (length (edges (bm s))) at 1 3 4 5 6 7 8 as m.
  induction m as [|m IH]; intros Hm A B C.
  - exists s. split; [reflexivity|]. split; [done|].
    split; [apply builder_frame_refl|]. intros i e Hi. lia.
  - destruct IH as (s1 & E1 & Hidx1 & Hfr & Hrows); [lia..|].
    rewrite for_range_opt_succ, E1. simpl.
    rewrite (builder_bm _ _ Hfr), Hidx1.
    destruct (lookup_lt_is_Some_2 (edges (bm s)) m) as [e He]; [lia|].
    rewrite He. simpl.
    destruct Hfr as (Hst & Lx & Lw & Ll & Lll & Llk & Lap).
    eexists. split; [reflexivity|]. split; [simpl; lia|].
    split.
    { eapply builder_frame_trans; [|apply set_link_frame]. by repeat split. }
    intros i e' Hi He'.
    destruct (decide (i = m)) as [->|Hne].
    + assert (e' = e) as -> by congruence.
      apply set_link_row_same; lia.
    + rewrite set_link_row_other by lia. apply Hrows; [lia|done].
Qed.

(** *** The constructor returns *)

Lemma attach_indices_lt g (groups : list (list (nat * F))) a :
  a ∈ attach_indices g groups -> a < length groups.
Proof.
  unfold attach_indices. intros Ha.
  apply list_elem_of_fmap in Ha as ([i gs] & -> & Hin).
  apply list_elem_of_filter in Hin as [_ Hin].
  apply elem_of_zip_l, elem_of_seq in Hin. simpl. lia.
Qed.

Lemma set_attachments_returns (s : Sim F) :
  attach_num s <= length (attach s) ->
  (forall a, a ∈ attach s -> a < length (verts (bm s))) ->
  exists s', set_attachments s = Some s' /\ builder_frame s s'.
Proof.
  intros Hn Ha. unfold set_attachments.
  apply (for_range_opt_total (builder_frame s));
    [|apply builder_frame_refl].
  intros i s1 Hi Hfr.
  rewrite (builder_attach _ _ Hfr), (builder_bm _ _ Hfr).
  destruct (lookup_lt_is_Some_2 (attach s) i) as [a Hai]; [lia|].
  rewrite Hai. simpl.
  destruct (lookup_lt_is_Some_2 (verts (bm s)) a) as [bv Hbv].
  { apply Ha. by eapply list_elem_of_lookup_2. }
  rewrite Hbv. simpl. eexists. split; [reflexivity|].
  eapply builder_frame_trans; [exact Hfr|].
  repeat split; simpl; by rewrite ?length_insert.
Qed.

Lemma set_pin_weight_frame i gs (s : Sim F) :
  builder_frame s (set_pin_weight i gs s).
Proof.
  unfold set_pin_weight. revert s.
  induction gs as [|g gs IH]; intros s; [apply builder_frame_refl|].
  simpl. eapply builder_frame_trans; [|apply IH].
  case_match; [|apply builder_frame_refl].
  repeat split; simpl; by rewrite ?length_insert.
Qed.

Lemma initialize_vertex_returns i (s : Sim F) :
  i < length (verts (bm s)) -> i < length (me_groups s) ->
  exists s', initialize_vertex i s = Some s' /\ builder_frame s s'.
Proof.
  intros Hv Hg. unfold initialize_vertex.
  destruct (lookup_lt_is_Some_2 _ _ Hv) as [bv ->].
  destruct (lookup_lt_is_Some_2 _ _ Hg) as [gs Hgs].
  simpl. rewrite Hgs. simpl.
  eexists. split; [reflexivity|].
  set (s1 := set_w _ (set_x _ s)).
  assert (H1 : builder_frame s s1).
  { repeat split; simpl; by rewrite ?length_insert. }
  assert (H2 : builder_frame s (set_pin_weight i gs s1)).
  { eapply builder_frame_trans; [exact H1|apply set_pin_weight_frame]. }
  case_match; [|exact H2].
  eapply builder_frame_trans; [exact H2|].
  apply (for_range_inv (builder_frame (set_pin_weight i gs s1)));
    [|apply builder_frame_refl].
  intros att s2 _ Hfr. eapply builder_frame_trans; [exact Hfr|].
  by repeat split.
Qed.

Lemma initialize_returns (s : Sim F) :
  attach_num s <= length (attach s) ->
  (forall a, a ∈ attach s -> a < length (verts (bm s))) ->
  vertex_num s <= length (verts (bm s)) ->
  vertex_num s <= length (me_groups s) ->
  edge_num s = length (edges (bm s)) ->
  face_num s = length (faces (bm s)) ->
  (forall fv, fv ∈ faces (bm s) -> 3 <= length fv) ->
  edge_num s + 2 * face_num s <= length (link s) ->
  edge_num s + 2 * face_num s <= length (link_len s) ->
  edge_num s + 2 * face_num s <= length (link_k s) ->
  exists s',
    initialize s = Some s' /\
    builder_frame s s' /\
    link_idx s' = edge_num s + 2 * face_num s /\
    stretch_rows (edges (bm s)) (edge_num s) s' /\
    bend_rows (faces (bm s)) (edge_num s) (face_num s) s'.
Proof.
  intros Han Ha Hvn Hgn Hen Hfn Hfaces A B C. unfold initialize.
  assert (exists s1, (if enable_LRA s then set_attachments s else Some s)
                     = Some s1 /\ builder_frame s s1)
    as (s1 & -> & F1).
  { destruct (enable_LRA s); [by apply set_attachments_returns|].
    exists s. split; [done|apply builder_frame_refl]. }
  simpl.
  destruct (for_range_opt_total (builder_frame s1) (vertex_num s1)
              initialize_vertex s1) as (s2 & -> & F2);
    [|apply builder_frame_refl|].
  { intros i s' Hi Hfr.
    rewrite (builder_vertex_num _ _ F1) in Hi.
    destruct (initialize_vertex_returns i s') as (s'' & E & Hfr').
    - rewrite (builder_bm _ _ Hfr), (builder_bm _ _ F1). lia.
    - rewrite (builder_me_groups _ _ Hfr), (builder_me_groups _ _ F1). lia.
    - exists s''. split; [done|by eapply builder_frame_trans]. }
  simpl.
  assert (F3 : builder_frame s (set_link_idx 0 s2)).
  { eapply builder_frame_trans; [exact F1|].
    eapply builder_frame_trans; [exact F2|]. by repeat split. }
  pose proof F3 as (_ & _ & _ & Ll & Lll & Llk & _).
  destruct (set_edges_rows (set_link_idx 0 s2)) as (s3 & -> & I3 & F4 & R3).
  { done. }
  { by rewrite (builder_edge_num _ _ F3), (builder_bm _ _ F3). }
  { rewrite (builder_edge_num _ _ F3). lia. }
  { rewrite (builder_edge_num _ _ F3). lia. }
  { rewrite (builder_edge_num _ _ F3). lia. }
  simpl.
  assert (F5 : builder_frame s s3) by (by eapply builder_frame_trans).
  pose proof F5 as (_ & _ & _ & Ll3 & Lll3 & Llk3 & _).
  rewrite (builder_edge_num _ _ F3) in I3, R3.
  rewrite (builder_bm _ _ F3) in R3.
  destruct (set_faces_rows s3) as (s4 & -> & I4 & F6 & R4 & O4).
  { by rewrite (builder_face_num _ _ F5), (builder_bm _ _ F5). }
  { by rewrite (builder_bm _ _ F5). }
  { rewrite (builder_face_num _ _ F5). lia. }
  { rewrite (builder_face_num _ _ F5). lia. }
  { rewrite (builder_face_num _ _ F5). lia. }
  rewrite (builder_face_num _ _ F5), I3 in I4, R4, O4.
  rewrite (builder_bm _ _ F5) in R4.
  exists s4. split; [done|].
  split; [by eapply builder_frame_trans|].
  split; [done|]. split; [|done].
  intros i e Hi He. rewrite O4 by lia. by apply R3.
Qed.

(** *** What the constructor leaves as allocated *)

Lemma for_range_opt_frame n (body : nat -> Sim F -> option (Sim F))
  (s s' : Sim F) :
  (forall i s s', body i s = Some s' -> builder_frame s s') ->
  for_range_opt n body s = Some s' -> builder_frame s s'.
Proof.
  intros Hb. apply (for_range_opt_inv (builder_frame s));
    [|apply builder_frame_refl].
  intros i s1 s2 _ Hfr E. eapply builder_frame_trans; [exact Hfr|].
  by eapply Hb.
Qed.

Lemma initialize_vertex_frame i (s s' : Sim F) :
  initialize_vertex i s = Some s' -> builder_frame s s'.
Proof.
  unfold initialize_vertex. intros E.
  destruct (verts (bm s) !! i) as [bv|]; [|done]. simpl in E.
  destruct (me_groups s !! i) as [gs|]; [|done]. simpl in E.
  injection E as <-.
  set (s1 := set_w _ (set_x _ s)).
  assert (H1 : builder_frame s s1).
  { repeat split; simpl; by rewrite ?length_insert. }
  assert (H2 : builder_frame s (set_pin_weight i gs s1)).
  { eapply builder_frame_trans; [exact H1|apply set_pin_weight_frame]. }
  case_match; [|exact H2].
  eapply builder_frame_trans; [exact H2|].
  apply (for_range_inv (builder_frame (set_pin_weight i gs s1)));
    [|apply builder_frame_refl].
  intros att s2 _ Hfr. eapply builder_frame_trans; [exact Hfr|].
  by repeat split.
Qed.

Lemma initialize_frame (s s' : Sim F) :
  initialize s = Some s' -> builder_frame s s'.
Proof.
  unfold initialize. intros E.
  destruct (if enable_LRA s then set_attachments s else Some s)
    as [s1|] eqn:E1; [|done].
  simpl in E.
  destruct (for_range_opt (vertex_num s1) initialize_vertex s1)
    as [s2|] eqn:E2; [|done].
  simpl in E.
  destruct (set_edges (set_link_idx 0 s2)) as [s3|] eqn:E3; [|done].
  simpl in E.
  assert (F1 : builder_frame s s1).
  { destruct (enable_LRA s).
    - revert E1. apply for_range_opt_frame. intros i a b Hb.
      destruct (attach a !! i) as [ai|]; [|done]. simpl in Hb.
      destruct (verts (bm a) !! ai) as [bv|]; [|done]. simpl in Hb.
      injection Hb as <-. repeat split; simpl; by rewrite ?length_insert.
    - injection E1 as <-. apply builder_frame_refl. }
  assert (F2 : builder_frame s1 s2).
  { revert E2. apply for_range_opt_frame. apply initialize_vertex_frame. }
  assert (F3 : builder_frame (set_link_idx 0 s2) s3).
  { revert E3. apply for_range_opt_frame. intros i a b Hb.
    destruct (edges (bm a) !! link_idx a) as [e|]; [|done]. simpl in Hb.
    injection Hb as <-. apply set_link_frame. }
  assert (F4 : builder_frame s3 s').
  { revert E. apply for_range_opt_frame. intros i a b Hb.
    destruct (faces (bm a) !! i) as [fv|]; [|done]. simpl in Hb.
    unfold set_face_link in Hb.
    destruct (fv !! (0 + 0)) as [v0|]; [|done]. simpl in Hb.
    destruct (fv !! 1) as [v1|]; [|done]. simpl in Hb.
    destruct (fv !! 2) as [v2|]; [|done]. simpl in Hb.
    injection Hb as <-.
    eapply builder_frame_trans; apply set_link_frame. }
  eapply builder_frame_trans; [exact F1|].
  eapply builder_frame_trans; [exact F2|].
  eapply builder_frame_trans; [|exact F4].
  eapply builder_frame_trans; [|exact F3]. by repeat split.
Qed.

(** After the constructor the three evolving fields have their shape and
    the velocities are zero. *)
Lemma init_shaped (sdf_phy : SdfPhy F) frame_end (s : Sim F) :
  TiClothSimulation_init sdf_phy frame_end = Some s ->
  shaped s /\
  length (w s) = vertex_num s /\
  v s = replicate (vertex_num s) vzero /\
  dt s = (time_step sdf_phy / of_ratio 1000 1)%num.
Proof.
  intros E. apply initialize_frame in E.
  pose proof E as (_ & Lx & Lw & _).
  unfold shaped.
  rewrite (builder_v _ _ E), (builder_p _ _ E), (builder_vertex_num _ _ E),
    (builder_dt _ _ E), Lx, Lw.
  simpl. by rewrite !length_replicate.
Qed.

(** On a mesh whose faces have at least three vertices and whose vertices
    all carry their group list, the constructor returns. *)
Lemma init_returns (sdf_phy : SdfPhy F) frame_end :
  let b := bm_of (cloth_obj sdf_phy) in
  length (vertex_groups (cloth_obj sdf_phy)) = length (verts b) ->
  (forall fv, fv ∈ faces b -> 3 <= length fv) ->
  exists s,
    TiClothSimulation_init sdf_phy frame_end = Some s /\
    builder_frame (allocated sdf_phy frame_end) s /\
    link_idx s = length (edges b) + 2 * length (faces b) /\
    stretch_rows (edges b) (length (edges b)) s /\
    bend_rows (faces b) (length (edges b)) (length (faces b)) s.
Proof.
  intros b Hg Hfaces. unfold TiClothSimulation_init.
  apply (initialize_returns (allocated sdf_phy frame_end)); simpl;
    rewrite ?length_replicate; try done; try lia.
  - intros a Ha. fold b. rewrite <- Hg.
    destruct (phy_enable_LRA sdf_phy); [|by apply elem_of_nil in Ha].
    by eapply attach_indices_lt.
  - fold b. lia.
Qed.
End BuilderFacts.

(** ** The solver in real arithmetic *)

Section RealFacts.
Local Open Scope R_scope.

Lemma Rgtb_true a b : Rgtb a b = true <-> a > b.
Proof. unfold Rgtb. destruct (Rgt_dec a b); split; (done || lra). Qed.

Lemma Rgtb_false a b : Rgtb a b = false <-> a <= b.
Proof. unfold Rgtb. destruct (Rgt_dec a b); split; (done || lra). Qed.

Lemma Rltb_true a b : Rltb a b = true <-> a < b.
Proof. unfold Rltb. destruct (Rlt_dec a b); split; (done || lra). Qed.

Lemma Rltb_false a b : Rltb a b = false <-> b <= a.
Proof. unfold Rltb. destruct (Rlt_dec a b); split; (done || lra). Qed.

Lemma eps_R : @eps R _ = 1 / 1000.
Proof. reflexivity. Qed.

Lemma coll_r_R : @coll_r R _ = 101 / 100.
Proof. reflexivity. Qed.

(** A vertex of inverse mass at most [eps] is passed over. *)
Lemma passed_over_R (s : Sim R) i wi :
  w s !! i = Some wi -> wi <= 1 / 1000 -> passed_over s i.
Proof.
  intros Hw Hle. unfold passed_over.
  rewrite (sget_lookup _ _ _ Hw). by apply Rgtb_false.
Qed.

(** A pinned vertex at rest is predicted where it is. *)
Lemma predicted_p_pinned (s : Sim R) (xi : vec3 R) :
  predicted_p s 0 xi vzero = xi.
Proof.
  destruct xi as [a b c].
  unfold predicted_p, predicted_v, vadd, vscale, vscale_r, gravity, vzero.
  simpl. f_equal; ring.
Qed.

Lemma zero_displacement (xi : vec3 R) (d : R) :
  vdiv (vsub xi xi) d = vzero.
Proof.
  destruct xi as [a b c]. unfold vdiv, vsub, vzero. simpl.
  f_equal; unfold Rdiv; ring.
Qed.

Lemma pinned_substep i xi (s : Sim R) :
  pinned_at i xi s -> pinned_at i xi (substep s).
Proof.
  intros (Hsh & Hw & Hx & Hv).
  destruct (substep_passed_over i 0 xi vzero s Hsh Hw Hx Hv) as [Ex Ev].
  { eapply passed_over_R; [exact Hw|lra]. }
  pose proof (substep_frame s) as Hf.
  split; [by apply (frame_shaped s)|].
  rewrite (frame_w _ _ Hf), Ex, Ev, predicted_p_pinned, zero_displacement.
  done.
Qed.

Lemma pinned_run_substeps location i xi (s : Sim R) :
  pinned_at i xi s -> pinned_at i xi (run_substeps location s).
Proof.
  intros Hs. unfold run_substeps.
  apply (for_range_inv (pinned_at i xi)); [|exact Hs].
  intros step s' _ Hs'. apply pinned_substep. exact Hs'.
Qed.

Lemma pinned_after_frames location frames i xi (s : Sim R) :
  pinned_at i xi s -> pinned_at i xi (after_frames location frames s).
Proof.
  intros Hs. unfold after_frames.
  apply (for_range_inv (pinned_at i xi)); [|exact Hs].
  intros frame s' _ Hs'. by apply pinned_run_substeps.
Qed.
End RealFacts.

(** ** The frame generator *)

Section Generator.
Context {F : Type} `{Num F} `{Elementary F}.

Lemma main_loop_frames (location : nat -> nat -> vec3 F) count :
  forall frame (s : Sim F),
    let shifted := fun k => location (frame + k) in
    fst (main_loop location frame count s)
    = (fun k => MeshUpdate (x (after_frames shifted k s))) <$> seq 0 count
    /\ snd (main_loop location frame count s)
       = after_frames shifted count s.
Proof.
  induction count as [|count IH]; intros frame s shifted; [done|].
  simpl.
  destruct (main_loop location (S frame) count
              (run_substeps (location frame) s)) as [evs s'] eqn:E.
  destruct (IH (S frame) (run_substeps (location frame) s)) as [IH1 IH2].
  rewrite E in IH1, IH2. simpl in IH1, IH2. simpl.
  assert (Hshift : forall k,
            after_frames shifted (S k) s
            = after_frames (fun k => location (S frame + k)) k
                (run_substeps (location frame) s)).
  { intros k. unfold after_frames. rewrite for_range_first.
    unfold shifted. rewrite Nat.add_0_r.
    apply for_range_ext. intros j s0. by rewrite Nat.add_succ_r. }
  split.
  - f_equal. rewrite IH1, <- fmap_S_seq, <- list_fmap_compose.
    apply list_fmap_ext. intros i k _. simpl. by rewrite Hshift.
  - by rewrite IH2, Hshift.
Qed.
End Generator.

(** ** One link *)

Section LinkFacts.
Context {F : Type} `{Num F} `{Elementary F}.
Local Open Scope num_scope.

(** A link between two different vertices, both above [eps]: each end is
    moved by [kp] times its own correction, both computed from the same
    [p_01]. *)
Lemma link_one_both n l i0 i1 a b w0 w1 (s : Sim F) :
  link s !! l = Some (i0, i1) -> i0 <> i1 ->
  p s !! i0 = Some a -> p s !! i1 = Some b ->
  w s !! i0 = Some w0 -> w s !! i1 = Some w1 ->
  (w0 >? eps) = true -> (w1 >? eps) = true ->
  let kp := link_kp (sget (link_k s) l) n in
  let length := sget (link_len s) l in
  p (link_one n l s) !! i0
  = Some (vadd a (vscale kp (link_dp0 w0 (vsub a b) length))) /\
  p (link_one n l s) !! i1
  = Some (vadd b (vscale kp (link_dp1 w1 (vsub a b) length))).
Proof.
  intros Hl Hne Ha Hb Hw0 Hw1 G0 G1 kp length.
  unfold link_one. cbv zeta. rewrite Hl. simpl fst. simpl snd.
  rewrite (sget_lookup _ _ _ Hw0), G0.
  change (w (p_add _ _ s)) with (w s).
  rewrite (sget_lookup _ _ _ Hw1), G1.
  rewrite (vget_lookup _ _ _ Ha), (vget_lookup _ _ _ Hb).
  fold kp. fold length.
  change (link (p_add _ _ s)) with (link s). rewrite Hl. simpl snd.
  assert (L0 : i0 < Datatypes.length (p s)) by (by eapply lookup_lt_Some).
  assert (L1 : i1 < Datatypes.length (p s)) by (by eapply lookup_lt_Some).
  split.
  - rewrite p_add_other by done. rewrite p_add_same by done.
    by rewrite (vget_lookup _ _ _ Ha).
  - rewrite p_add_same by (simpl; by rewrite length_insert).
    f_equal. f_equal. apply vget_lookup.
    rewrite p_add_other by done. exact Hb.
Qed.

End LinkFacts.

(** ** Vectors over the reals *)

Section RealVectors.
Local Open Scope R_scope.

Lemma norm_vscale (c : R) (u : vec3 R) :
  norm (vscale c u) = Rabs c * norm u.
Proof.
  unfold norm, vscale. simpl.
  replace (c * vx u * (c * vx u) + c * vy u * (c * vy u)
           + c * vz u * (c * vz u))
    with (Rsqr c * (vx u * vx u + vy u * vy u + vz u * vz u))
    by (unfold Rsqr; ring).
  rewrite sqrt_mult; [|apply Rle_0_sqr|nra].
  by rewrite sqrt_Rsqr_abs.
Qed.

Lemma norm_nonneg (u : vec3 R) : 0 <= norm u.
Proof. apply sqrt_pos. Qed.

Lemma norm_zero (u : vec3 R) : norm u = 0 -> u = vzero.
Proof.
  unfold norm. simpl. intros E. apply sqrt_eq_0 in E; [|nra].
  destruct u as [a b c]. simpl in E. unfold vzero. simpl.
  assert (a = 0) by nra. assert (b = 0) by nra. assert (c = 0) by nra.
  by subst.
Qed.

Lemma vsub_zero (a b : vec3 R) : vsub a b = vzero -> a = b.
Proof.
  destruct a, b. unfold vsub, vzero. simpl. intros [=]. f_equal; lra.
Qed.

Lemma norm_vsub_pos (a b : vec3 R) : a <> b -> 0 < norm (vsub a b).
Proof.
  intros Hne. destruct (norm_nonneg (vsub a b)) as [Hlt|Heq]; [done|].
  exfalso. apply Hne, vsub_zero, norm_zero. by symmetry.
Qed.

(** The norm of an axis-aligned vector. *)
Lemma norm_x_axis (a : R) : 0 <= a -> norm (Vec3 a 0 0) = a.
Proof.
  intros Ha. unfold norm. simpl.
  replace (a * a + 0 * 0 + 0 * 0) with (a * a) by ring.
  by apply sqrt_square.
Qed.

(** The norm is at least the size of the first entry. *)
Lemma norm_ge_x (u : vec3 R) : Rabs (vx u) <= norm u.
Proof.
  unfold norm. simpl. rewrite <- sqrt_Rsqr_abs.
  apply sqrt_le_1_alt. unfold Rsqr. nra.
Qed.


(** In the first solver iteration [kp] is the stiffness itself. *)
Lemma link_kp_first (k : R) : k < 1 -> link_kp k 0 = k.
Proof.
  intros Hk. unfold link_kp. simpl.
  change (Z.of_nat 0 + 1)%Z with 1%Z.
  replace (1 / 1) with 1 by lra.
  rewrite Rpower_1 by lra. lra.
Qed.

(** The two corrections of a link are opposite and each is proportional
    to the inverse mass of its own end. *)
Lemma link_dp_opposite (w0 w1 kp L : R) (p_01 : vec3 R) :
  vscale w1 (vscale kp (link_dp0 w0 p_01 L))
  = vscale (- w0) (vscale kp (link_dp1 w1 p_01 L)).
Proof.
  unfold link_dp0, link_dp1, vscale. simpl. f_equal; unfold Rdiv; ring.
Qed.

Lemma link_dp_magnitudes (w0 w1 kp L : R) (p_01 : vec3 R) :
  0 <= w0 -> 0 <= w1 ->
  w1 * norm (vscale kp (link_dp0 w0 p_01 L))
  = w0 * norm (vscale kp (link_dp1 w1 p_01 L)).
Proof.
  intros H0 H1.
  rewrite <- (Rabs_pos_eq w1) at 1 by done.
  rewrite <- (Rabs_pos_eq w0) at 2 by done.
  rewrite <- (Rabs_Ropp w0), <- !norm_vscale.
  by rewrite link_dp_opposite.
Qed.
End RealVectors.

(** ** The sphere collision over the reals *)

Section RealCollision.
Local Open Scope R_scope.

(** Where the collision stage leaves a vertex above [eps] that is not at
    the collider centre. *)
Lemma collided_inside (wi : R) (c pv : vec3 R) :
  wi > eps -> 0 < norm (vsub pv c) < coll_r ->
  let dist := norm (vsub pv c) in
  let q := collided wi c pv in
  q = vadd pv (vscale (- (dist - coll_r) / dist) (vsub pv c)) /\
  norm (vsub q pv) = coll_r - dist /\
  norm (vsub q c) = coll_r.
Proof.
  intros Hw [Hpos Hlt] dist q.
  assert (Eq : q = vadd pv (vscale (- (dist - coll_r) / dist) (vsub pv c))).
  { unfold q, collided. cbv zeta. fold dist.
    change (wi >? eps)%num with (Rgtb wi eps).
    change (dist - coll_r <? of_int 0)%num with (Rltb (dist - coll_r) 0).
    rewrite (proj2 (Rgtb_true _ _) Hw).
    rewrite (proj2 (Rltb_true _ _)); [|fold dist in Hlt; lra].
    reflexivity. }
  split; [exact Eq|]. rewrite Eq.
  set (k := - (dist - coll_r) / dist).
  assert (Hk : k = coll_r / dist - 1).
  { unfold k. fold dist in Hpos. field. lra. }
  assert (E1 : vsub (vadd pv (vscale k (vsub pv c))) pv
               = vscale k (vsub pv c)).
  { destruct pv, c. unfold vsub, vadd, vscale. simpl. f_equal; ring. }
  assert (E2 : vsub (vadd pv (vscale k (vsub pv c))) c
               = vscale (1 + k) (vsub pv c)).
  { destruct pv, c. unfold vsub, vadd, vscale. simpl. f_equal; ring. }
  rewrite E1, E2, !norm_vscale. fold dist. fold dist in Hpos, Hlt.
  rewrite coll_r_R in *.
  assert (Hq : 101 / 100 / dist > 1).
  { apply Rlt_gt, (Rmult_lt_reg_r dist); [done|]. field_simplify; lra. }
  rewrite !Rabs_pos_eq by lra.
  split; rewrite Hk; field; lra.
Qed.

Lemma collided_outside (wi : R) (c pv : vec3 R) :
  coll_r <= norm (vsub pv c) -> collided wi c pv = pv.
Proof.
  intros Hge. unfold collided. cbv zeta.
  destruct (wi >? eps)%num; [|done].
  change (norm (vsub pv c) - coll_r <? of_int 0)%num
    with (Rltb (norm (vsub pv c) - coll_r) 0).
  rewrite (proj2 (Rltb_false _ _)); [done|]. lra.
Qed.
End RealCollision.

(** ** The hanging vertex *)

Section RealHanging.
Local Open Scope R_scope.









End RealHanging.

(** ** Binary32 arithmetic at degenerate geometry *)

Section Binary32.
Local Open Scope num_scope.

Lemma f32_sub_diag (a : f32) :
  is_finite a = true -> a - a = S754_zero false.
Proof.
  destruct a as [s| | |s m e]; try done.
  - by destruct s.
  - intros _. simpl. unfold SFsub. rewrite Z.sub_diag. reflexivity.
Qed.

Lemma f32_mul_nan (a : f32) : a * S754_nan = S754_nan.
Proof. by destruct a. Qed.

Lemma f32_add_nan (a : f32) : a + S754_nan = S754_nan.
Proof. by destruct a. Qed.

Lemma vsub_diag (a : vec3 f32) : finite3 a = true -> vsub a a = zero3.
Proof.
  unfold finite3. intros Hf.
  apply andb_prop in Hf as [Hf Hz]. apply andb_prop in Hf as [Hx Hy].
  unfold vsub. by rewrite !f32_sub_diag.
Qed.

Lemma vscale_nan3 (c : f32) : vscale c nan3 = nan3.
Proof. unfold vscale, nan3. simpl vx. simpl vy. simpl vz.
       by rewrite f32_mul_nan. Qed.

Lemma vadd_nan3 (a : vec3 f32) : vadd a nan3 = nan3.
Proof. unfold vadd, nan3. simpl vx. simpl vy. simpl vz.
       by rewrite !f32_add_nan. Qed.

(** The stretch test of the tether, for a vertex on its attachment point:
    whatever the rest length, the ratio is negative or NaN. *)
Lemma tether_test_fails (tl : f32) :
  ((S754_zero false - tl) / tl >? tether_give) = false.
Proof.
  destruct tl as [s| s | |s m e]; try done.
  - by destruct s.
  - simpl. unfold SFdiv.
    replace (xorb (negb s) s) with true by (by destruct s).
    destruct (SFdiv_core_binary prec32 emax32 (Z.pos m) e (Z.pos m) e)
      as [[mz ez] lz].
    unfold binary_round_aux.
    destruct (shr_fexp prec32 emax32 mz ez lz) as [mrs' e'].
    destruct (shr_fexp prec32 emax32 _ e' loc_Exact) as [mrs'' e''].
    destruct (shr_m mrs'') as [|q|q]; try done.
    by destruct (Z.leb e'' (emax32 - prec32)).
Qed.

Lemma tether_pair_coincident vi att a (s : Sim f32) :
  p s !! vi = Some a -> attach_pos s !! att = Some a ->
  finite3 a = true ->
  tether_pair vi att s = s.
Proof.
  intros Hp Ha Hf. unfold tether_pair. cbv zeta.
  destruct (sget (w s) vi >? eps); [|done].
  rewrite (vget_lookup _ _ _ Hp), (vget_lookup _ _ _ Ha), vsub_diag by done.
  change (norm zero3) with (S754_zero false).
  by rewrite tether_test_fails.
Qed.

Lemma collided_at_centre (wi : f32) (c : vec3 f32) :
  (wi >? eps) = true -> finite3 c = true -> collided wi c c = nan3.
Proof.
  intros Hw Hf. unfold collided, collision_dp. cbv zeta.
  rewrite Hw, vsub_diag by done.
  change (norm zero3) with (S754_zero false).
  change (S754_zero false - coll_r <? of_int 0) with true.
  change (vscale (- (S754_zero false - coll_r) / S754_zero false) zero3)
    with nan3.
  apply vadd_nan3.
Qed.

Lemma link_dp_coincident (w0 length : f32) :
  link_dp0 w0 zero3 length = nan3 /\ link_dp1 w0 zero3 length = nan3.
Proof.
  unfold link_dp0, link_dp1.
  change (normalized zero3) with nan3.
  by rewrite !vscale_nan3.
Qed.
End Binary32.

(** * The claims *)

(** ** C1: the time increment of a substep *)

(** C1, as stated, fails: the constructor sets [dt = time_step / 1000.0] and
    never divides by the substep count.  With a time step of 1000 and two
    substeps per frame [dt] is 1, the same as with one substep per frame; it
    is neither [1000 / 2] nor [(1000 / 1000) / 2]. *)
Lemma dt_not_divided_by_substep_count :
  TiClothSimulation_init (tri_phy 2) 2 = Some (tri_sim 2) /\
  TiClothSimulation_init (tri_phy 1) 2 = Some (tri_sim 1) /\
  substep_num (tri_sim 2) = 2 /\
  dt (tri_sim 2) = 1%R /\
  dt (tri_sim 1) = 1%R /\
  dt (tri_sim 2) <> (time_step (tri_phy 2) / 2)%R /\
  dt (tri_sim 2) <> (time_step (tri_phy 2) / 1000 / 2)%R.
Proof.
  repeat split; try reflexivity; simpl; try lra.
  all: unfold Rdiv; try rewrite Rinv_1; try lra.
Qed.

(** C1, amended.  For every configuration the constructor accepts,
    [dt = time_step / 1000], whatever the substep count; every invocation of
    the substep kernel keeps [dt] and advances the state by it: the velocity
    it leaves is the displacement of the substep divided by [dt]. *)
Theorem substep_time_increment (sdf_phy : SdfPhy R) (frame_end : nat)
  (s : Sim R) :
  TiClothSimulation_init sdf_phy frame_end = Some s ->
  dt s = (time_step sdf_phy / 1000)%R /\
  (forall sdf_phy' frame_end' s2,
     time_step sdf_phy' = time_step sdf_phy ->
     TiClothSimulation_init sdf_phy' frame_end' = Some s2 ->
     dt s2 = dt s) /\
  (forall s' i xi xi',
     shaped s' -> dt s' = dt s ->
     x s' !! i = Some xi -> x (substep s') !! i = Some xi' ->
     dt (substep s') = (time_step sdf_phy / 1000)%R /\
     v (substep s') !! i
     = Some (vdiv (vsub xi' xi) (time_step sdf_phy / 1000)%R)).
Proof.
  intros Hinit.
  destruct (init_shaped _ _ _ Hinit) as (_ & _ & _ & Hdt).
  assert (E : dt s = (time_step sdf_phy / 1000)%R).
  { rewrite Hdt. simpl. unfold Rdiv. rewrite Rinv_1. by rewrite Rmult_1_r. }
  split; [exact E|]. split.
  - intros phy' fe' s2 Hts Hinit2.
    destruct (init_shaped _ _ _ Hinit2) as (_ & _ & _ & ->).
    by rewrite Hdt, Hts.
  - intros s' i xi xi' Hsh Hdt' Hx Hx'.
    rewrite (frame_dt _ _ (substep_frame s')), Hdt', <- E. split; [done|].
    rewrite <- Hdt'. by apply substep_velocity.
Qed.

Lemma substep_time_increment_witness :
  dt (tri_sim 2) = (time_step (tri_phy 2) / 1000)%R.
Proof.
  apply (substep_time_increment (tri_phy 2) 2 (tri_sim 2)). reflexivity.
Defined.

(** ** C2: pinned vertices *)

(** C2.  For every state the constructor produces, every behaviour of the
    collider and every number of frames, a vertex whose inverse mass is [0]
    has after those frames the position it had before them. *)
Theorem pinned_vertex_never_moves (sdf_phy : SdfPhy R) (frame_end : nat)
  (s : Sim R) (location : nat -> nat -> vec3 R) (frames i : nat) :
  TiClothSimulation_init sdf_phy frame_end = Some s ->
  w s !! i = Some 0%R ->
  x (after_frames location frames s) !! i = x s !! i.
Proof.
  intros Hinit Hw.
  destruct (init_shaped _ _ _ Hinit) as (Hsh & Lw & Hv & _).
  assert (Hi : i < vertex_num s).
  { rewrite <- Lw. by eapply lookup_lt_Some. }
  destruct (lookup_lt_is_Some_2 (x s) i) as [xi Hxi].
  { destruct Hsh as (-> & _). exact Hi. }
  assert (Hpin : pinned_at i xi s).
  { repeat split; try apply Hsh; try done.
    rewrite Hv. by apply lookup_replicate_2. }
  destruct (pinned_after_frames location frames i xi s Hpin)
    as (_ & _ & -> & _).
  by rewrite Hxi.
Qed.

Lemma pinned_vertex_never_moves_witness :
  x (after_frames still 2 (tri_sim 2)) !! 0%nat = x (tri_sim 2) !! 0%nat.
Proof.
  apply (pinned_vertex_never_moves (tri_phy 2) 2 (tri_sim 2) still 2 0).
  - reflexivity.
  - simpl. f_equal. lra.
Defined.

(** ** C3: the two corrections of a link *)

(** C3, as stated, fails.  A link of rest length 1 between a vertex of
    inverse mass [w0 = 1] at [(2,0,0)] and one of inverse mass [w1 = 1/2] at
    the origin moves the first by [disp0 = 9/20] and the second by
    [disp1 = 9/40] in the first iteration ([kp = k_stretch]); so
    [w0 * disp0 = 9/20] while [w1 * disp1 = 9/80]. *)
Lemma link_correction_products_differ :
  p (link_one 0 0 pair_sim) !! 0%nat = Some (Vec3 (31 / 20) 0 0)%R /\
  p (link_one 0 0 pair_sim) !! 1%nat = Some (Vec3 (9 / 40) 0 0)%R /\
  norm (vsub (Vec3 (31 / 20) 0 0) (Vec3 2 0 0))%R = (9 / 20)%R /\
  norm (vsub (Vec3 (9 / 40) 0 0) (Vec3 0 0 0))%R = (9 / 40)%R /\
  (1 * (9 / 20) <> 1 / 2 * (9 / 40))%R.
Proof.
  destruct (link_one_both 0 0 0 1 (Vec3 2 0 0)%R (Vec3 0 0 0)%R 1%R (1 / 2)%R
              pair_sim) as [E0 E1]; try reflexivity; try done.
  { apply Rgtb_true. rewrite eps_R. lra. }
  { apply Rgtb_true. rewrite eps_R. lra. }
  assert (Ek : link_kp (sget (link_k pair_sim) 0) 0 = (9 / 10)%R).
  { change (sget (link_k pair_sim) 0) with (9 / 10)%R.
    apply link_kp_first. lra. }
  assert (En : norm (Vec3 2 0 0)%R = 2%R) by (apply norm_x_axis; lra).
  assert (Es : vsub (Vec3 2 0 0)%R (Vec3 0 0 0)%R = (Vec3 2 0 0)%R).
  { unfold vsub. simpl. f_equal; lra. }
  rewrite Ek, Es in E0, E1.
  unfold link_dp0 in E0. unfold link_dp1 in E1.
  unfold normalized in E0, E1. rewrite En in E0, E1.
  split; [|split; [|split; [|split]]].
  - rewrite E0. f_equal. unfold vadd, vscale. simpl.
    unfold sget. simpl. f_equal; lra.
  - rewrite E1. f_equal. unfold vadd, vscale. simpl.
    unfold sget. simpl. f_equal; lra.
  - unfold norm, vsub. simpl.
    replace ((31 / 20 - 2) * (31 / 20 - 2) + (0 - 0) * (0 - 0)
             + (0 - 0) * (0 - 0))%R with ((9 / 20) * (9 / 20))%R by lra.
    apply sqrt_square. lra.
  - unfold norm, vsub. simpl.
    replace ((9 / 40 - 0) * (9 / 40 - 0) + (0 - 0) * (0 - 0)
             + (0 - 0) * (0 - 0))%R with ((9 / 40) * (9 / 40))%R by lra.
    apply sqrt_square. lra.
  - lra.
Qed.

(** C3, amended.  In real arithmetic, in every application of a link
    correction to a link between two different vertices that both have
    inverse mass above [eps] and whose predicted positions differ (so that
    [p_01.normalized()] divides by a distance that is not zero), the
    displacements [d0] and [d1] of the two ends are the code's
    [kp * dp0] and [kp * dp1], with [|p_01| > 0]; they are opposite and each
    is proportional to the inverse mass of its own end:
    [w1 * d0 = - w0 * d1], and so their magnitudes satisfy
    [w1 * disp0 = w0 * disp1]. *)
Theorem link_corrections_mass_weighted (s : Sim R) (n l i0 i1 : nat)
  (a b : vec3 R) (w0 w1 : R) :
  link s !! l = Some (i0, i1) -> i0 <> i1 ->
  p s !! i0 = Some a -> p s !! i1 = Some b ->
  w s !! i0 = Some w0 -> w s !! i1 = Some w1 ->
  (w0 > eps)%R -> (w1 > eps)%R -> a <> b ->
  let kp := link_kp (sget (link_k s) l) n in
  let length := sget (link_len s) l in
  exists d0 d1,
    (0 < norm (vsub a b))%R /\
    d0 = vscale kp (link_dp0 w0 (vsub a b) length) /\
    d1 = vscale kp (link_dp1 w1 (vsub a b) length) /\
    p (link_one n l s) !! i0 = Some (vadd a d0) /\
    p (link_one n l s) !! i1 = Some (vadd b d1) /\
    vscale w1 d0 = vscale (- w0)%R d1 /\
    (w1 * norm d0 = w0 * norm d1)%R.
Proof.
  intros Hl Hne Ha Hb Hw0 Hw1 G0 G1 Hab kp length.
  destruct (link_one_both n l i0 i1 a b w0 w1 s Hl Hne Ha Hb Hw0 Hw1)
    as [E0 E1]; [by apply Rgtb_true..|].
  eexists _, _. split; [by apply norm_vsub_pos|].
  split; [reflexivity|]. split; [reflexivity|].
  split; [exact E0|]. split; [exact E1|].
  rewrite eps_R in G0, G1.
  split; [apply link_dp_opposite|apply link_dp_magnitudes; lra].
Qed.

Lemma link_corrections_mass_weighted_witness :
  exists d0 d1,
    p (link_one 0 0 pair_sim) !! 0%nat = Some (vadd (Vec3 2 0 0)%R d0) /\
    p (link_one 0 0 pair_sim) !! 1%nat = Some (vadd (Vec3 0 0 0)%R d1) /\
    vscale (1 / 2)%R d0 = vscale (- 1)%R d1 /\
    (1 / 2 * norm d0 = 1 * norm d1)%R.
Proof.
  destruct (link_corrections_mass_weighted pair_sim 0 0 0 1
              (Vec3 2 0 0)%R (Vec3 0 0 0)%R 1%R (1 / 2)%R)
    as (d0 & d1 & _ & _ & _ & E0 & E1 & Ho & Hm).
  - reflexivity.
  - lia.
  - reflexivity.
  - reflexivity.
  - reflexivity.
  - reflexivity.
  - rewrite eps_R. lra.
  - rewrite eps_R. lra.
  - intros [=]. lra.
  - exists d0, d1. split; [exact E0|]. split; [exact E1|].
    split; [exact Ho|exact Hm].
Defined.

(** ** C4: the sphere collision *)


(** In binary32 the bound of C4 is met only up to rounding: the vertex at
    [(4/13, 4/13, 1/13)], inside a collider at the origin, is moved to a
    point whose computed distance to the centre is [8472493 * 2^-23], one
    unit in the last place below [coll_r = 8472494 * 2^-23]. *)
Lemma collision_rounds_below_the_radius :
  exists q,
    p (collision_stage
         (lone_vertex (of_int 1)
            (Vec3 (of_ratio 4 13) (of_ratio 4 13) (of_ratio 1 13)) vzero))
    = [q] /\
    norm (vsub q vzero) = S754_finite false 8472493 (-23) /\
    @coll_r f32 _ = S754_finite false 8472494 (-23) /\
    SFltb (norm (vsub q vzero)) coll_r = true.
Proof.
  exists (Vec3 (S754_finite false 11798974 (-24))
               (S754_finite false 11798974 (-24))
               (S754_finite false 11798974 (-26))).
  vm_compute. done.
Qed.



(** ** C5: the bending links of a face *)

(** C5, as stated, fails on a quadrilateral face.  For the unit square with
    the face loop [0, 1, 2, 3] the constructor writes the four edge rows and
    then the two face rows [(0, 1)] and [(1, 2)]: they join neighbours in
    the loop, and repeat two edges.  The vertices two apart around the loop
    are 0 with 2 and 1 with 3, and no row of the table joins a vertex [a]
    with the vertex [a + 2] modulo 4. *)
Lemma face_links_join_neighbours :
  exists s,
    TiClothSimulation_init quad_phy 1 = Some s /\
    map (map index) (faces (bm s)) = [[0; 1; 2; 3]] /\
    link s = [(0, 1); (1, 2); (2, 3); (3, 0); (0, 1); (1, 2)] /\
    link s !! 4 = Some (0, 1) /\ link s !! 5 = Some (1, 2) /\
    forall l a c, link s !! l = Some (a, c) -> (a + 2) mod 4 <> c.
Proof.
  eexists. split; [vm_compute; reflexivity|].
  split; [reflexivity|]. split; [reflexivity|].
  split; [reflexivity|]. split; [reflexivity|].
  intros l a c Hl.
  destruct l as [|[|[|[|[|[|l]]]]]]; simpl in Hl; try done;
    injection Hl as <- <-; simpl; lia.
Qed.

(** C5, amended.  When the constructor returns, it has written for every
    face [i] exactly two link rows, at [edge_num + 2 * i + j] for
    [j = 0, 1]: row [j] joins the consecutive loop vertices at positions
    [j] and [j + 1] of the face (0 with 1, 1 with 2), has stiffness
    [k_bend = 0.7], and has as rest length, in real arithmetic, the
    Euclidean distance between the mesh positions of the two joined
    vertices.  The table holds nothing but the [edge_num] edge rows before
    them. *)
Theorem faces_append_two_bend_links (sdf_phy : SdfPhy R) (frame_end : nat)
  (s : Sim R) :
  let b := bm_of (cloth_obj sdf_phy) in
  TiClothSimulation_init sdf_phy frame_end = Some s ->
  length (vertex_groups (cloth_obj sdf_phy)) = length (verts b) ->
  (forall fv, fv ∈ faces b -> 3 <= length fv) ->
  length (link s) = length (edges b) + 2 * length (faces b) /\
  link_idx s = length (edges b) + 2 * length (faces b) /\
  forall i fv j,
    faces b !! i = Some fv -> j < 2 ->
    exists a c,
      fv !! j = Some a /\ fv !! S j = Some c /\
      link s !! (length (edges b) + 2 * i + j) = Some (index a, index c) /\
      link_len s !! (length (edges b) + 2 * i + j)
      = Some (sqrt ((vx (co c) - vx (co a)) * (vx (co c) - vx (co a))
                    + (vy (co c) - vy (co a)) * (vy (co c) - vy (co a))
                    + (vz (co c) - vz (co a)) * (vz (co c) - vz (co a))))%R
      /\
      link_k s !! (length (edges b) + 2 * i + j) = Some (7 / 10)%R.
Proof.
  intros b E Hg Hfaces.
  destruct (init_returns sdf_phy frame_end Hg Hfaces)
    as (s' & E' & Hfr & Hidx & _ & Hrows).
  rewrite E in E'. injection E' as <-.
  split.
  { destruct Hfr as (_ & _ & _ & -> & _). simpl.
    rewrite length_replicate. fold b. lia. }
  split; [exact Hidx|].
  intros i fv j Hfv Hj.
  destruct (Hrows i fv j) as (a & c & Ha & Hc & Hrow); [|done|done|].
  { by eapply lookup_lt_Some. }
  exists a, c. unfold link_row in Hrow.
  injection Hrow as H1 H2 H3.
  split; [exact Ha|]. split; [exact Hc|].
  split; [exact H1|]. split; [exact H2|exact H3].
Qed.

Lemma faces_append_two_bend_links_witness :
  link (tri_sim 2) !! 3 = Some (0, 1) /\
  link (tri_sim 2) !! 4 = Some (1, 2) /\
  link_len (tri_sim 2) !! 3 = Some (sqrt ((1 - 0) * (1 - 0)
                                          + (0 - 0) * (0 - 0)
                                          + (0 - 0) * (0 - 0)))%R /\
  link_k (tri_sim 2) !! 3 = Some (7 / 10)%R /\
  link_k (tri_sim 2) !! 4 = Some (7 / 10)%R.
Proof.
  destruct (faces_append_two_bend_links (tri_phy 2) 2 (tri_sim 2))
    as (_ & _ & Hr).
  - reflexivity.
  - reflexivity.
  - intros fv Hin. apply list_elem_of_singleton in Hin. subst fv. simpl. lia.
  - destruct (Hr 0 _ 0 eq_refl) as (a & c & Ha & Hc & H0 & L0 & K0); [lia|].
    destruct (Hr 0 _ 1 eq_refl) as (a' & c' & Ha' & Hc' & H1 & _ & K1); [lia|].
    injection Ha as <-. injection Hc as <-.
    injection Ha' as <-. injection Hc' as <-.
    done.
Defined.

(** ** C6: what keeps a pinned vertex in place *)

(** C6, as stated, fails for the sphere collision: its correction does not
    contain [w].  In binary32, a vertex at [(1/2, 0, 0)] inside the collider
    at the origin is moved to [(1.01, 0, 0)] when its inverse mass is [1/2]
    exactly as when it is [1]; the displacement for [w = 1/2] is not [1/2]
    times the one for [w = 1]. *)
Lemma collision_correction_not_scaled :
  let pv : vec3 f32 := Vec3 (of_ratio 1 2) (of_int 0) (of_int 0) in
  let q : vec3 f32 := Vec3 coll_r (of_int 0) (of_int 0) in
  p (collision_stage (lone_vertex (of_ratio 1 2) pv vzero)) = [q] /\
  p (collision_stage (lone_vertex (of_int 1) pv vzero)) = [q] /\
  vsub q pv <> vscale (of_ratio 1 2) (vsub q pv) /\
  vsub q pv <> vzero.
Proof. vm_compute. repeat split; discriminate. Qed.

(** C6, amended.  Tether corrections and link-endpoint corrections are
    scaled by the inverse mass [w] of the vertex they move; the
    sphere-collision correction is not.  Every correction of a vertex is
    applied only under the guard [w > eps], so a pinned vertex ([w = 0]) is
    left unmoved by every correction stage. *)
Theorem corrections_guarded_by_inverse_mass :
  (forall (wv dist_diff dist : R) (pv a : vec3 R),
     tether_dp wv pv a dist_diff dist
     = vscale wv (tether_dp 1%R pv a dist_diff dist)) /\
  (forall (w0 length : R) (p_01 : vec3 R),
     link_dp0 w0 p_01 length = vscale w0 (link_dp0 1%R p_01 length) /\
     link_dp1 w0 p_01 length = vscale w0 (link_dp1 1%R p_01 length)) /\
  (forall (s : Sim R) (i n : nat),
     w s !! i = Some 0%R ->
     p (tether_stage s) !! i = p s !! i /\
     p (link_stage n s) !! i = p s !! i /\
     p (collision_stage s) !! i = p s !! i /\
     p (solver_iteration n s) !! i = p s !! i).
Proof.
  split; [|split].
  - intros wv dd dist pv a. destruct pv, a.
    unfold tether_dp, vdiv, vscale, vsub. simpl.
    f_equal; unfold Rdiv; ring.
  - intros w0 L p_01. destruct p_01.
    unfold link_dp0, link_dp1, normalized, vscale. simpl.
    split; f_equal; unfold Rdiv; ring.
  - intros s i n Hw.
    assert (Hs : passed_over s i) by (eapply passed_over_R; [exact Hw|lra]).
    split; [by apply tether_stage_skip|].
    split; [by apply link_stage_skip|].
    split; [by apply collision_stage_skip|by apply solver_iteration_skip].
Qed.

Lemma corrections_guarded_by_inverse_mass_witness :
  p (collision_stage (lone_vertex 0 (Vec3 (1 / 2) 0 0) (Vec3 0 0 0))%R)
    !! 0%nat
  = p (lone_vertex 0 (Vec3 (1 / 2) 0 0) (Vec3 0 0 0))%R !! 0%nat.
Proof.
  destruct corrections_guarded_by_inverse_mass as (_ & _ & Hpin).
  destruct (Hpin (lone_vertex 0 (Vec3 (1 / 2) 0 0) (Vec3 0 0 0))%R 0 0)
    as (_ & _ & Hc & _).
  - reflexivity.
  - exact Hc.
Defined.

(** ** C7: degenerate geometry in binary32 *)

(** C7, as stated, fails for the tether stage.  A vertex that sits exactly
    on its attachment point has [dist = 0]; the stretch test
    [dist_diff / tether_len > tether_give] then compares [0/0 = NaN] (rest
    length 0) or [-2/2 = -1] (rest length 2) with [0.2] and fails, the
    division by [dist] is not reached, and the predicted position stays the
    finite [(1, 0, 0)] it was. *)
Lemma tether_on_attachment_point :
  p (tether_stage (tethered (of_int 0))) = [Vec3 (of_int 1) (of_int 0) (of_int 0)] /\
  p (tether_stage (tethered (of_int 2))) = [Vec3 (of_int 1) (of_int 0) (of_int 0)] /\
  finite3 (Vec3 (of_int 1) (of_int 0) (of_int 0)) = true /\
  ndiv (nsub (of_int 0) (of_int 0)) (of_int 0) = S754_nan /\
  ngt (sget (w (tethered (of_int 0))) 0) eps = true.
Proof. vm_compute. done. Qed.

(** C7, amended.  In binary32, with degenerate geometry two of the three
    correction stages divide by zero and write the resulting NaN into the
    predicted position: the collision stage for a vertex above [eps] exactly
    on the collider centre, and the link stage for both ends, above [eps],
    of a link whose ends are predicted at the same place.  The tether stage
    does not: for a vertex exactly on an attachment point the stretch test
    fails whatever the rest length, so the stage leaves the state as it is.
    No stage tests its divisor. *)
Theorem degenerate_geometry (E : Elementary f32) :
  (forall (s : Sim f32) (i : nat) (wi : f32),
     i < vertex_num s ->
     w s !! i = Some wi -> ngt wi eps = true ->
     p s !! i = Some (coll_origin s) -> finite3 (coll_origin s) = true ->
     p (collision_stage s) !! i = Some nan3) /\
  (forall (s : Sim f32) (n l i0 i1 : nat) (a : vec3 f32) (w0 w1 : f32),
     link s !! l = Some (i0, i1) -> i0 <> i1 ->
     p s !! i0 = Some a -> p s !! i1 = Some a -> finite3 a = true ->
     w s !! i0 = Some w0 -> w s !! i1 = Some w1 ->
     ngt w0 eps = true -> ngt w1 eps = true ->
     p (link_one n l s) !! i0 = Some nan3 /\
     p (link_one n l s) !! i1 = Some nan3) /\
  (forall (s : Sim f32) (vi att : nat) (a : vec3 f32),
     p s !! vi = Some a -> attach_pos s !! att = Some a ->
     finite3 a = true ->
     tether_pair vi att s = s).
Proof.
  split; [|split].
  - intros s i wi Hi Hw Hgt Hp Hf.
    rewrite (collision_stage_at i wi (coll_origin s) s Hi Hw Hp).
    by rewrite collided_at_centre.
  - intros s n l i0 i1 a w0 w1 Hl Hne Ha Hb Hf Hw0 Hw1 G0 G1.
    destruct (link_one_both n l i0 i1 a a w0 w1 s Hl Hne Ha Hb Hw0 Hw1 G0 G1)
      as [-> ->].
    rewrite vsub_diag by done.
    destruct (link_dp_coincident w0 (sget (link_len s) l)) as [-> _].
    destruct (link_dp_coincident w1 (sget (link_len s) l)) as [_ ->].
    by rewrite vscale_nan3, vadd_nan3.
  - intros s vi att a. apply tether_pair_coincident.
Qed.

Lemma degenerate_geometry_witness :
  p (collision_stage (lone_vertex (of_int 1) vzero vzero)) !! 0%nat
  = Some nan3.
Proof.
  destruct (degenerate_geometry f32_first_iteration) as (Hcoll & _ & _).
  apply (Hcoll (lone_vertex (of_int 1) vzero vzero) 0 (of_int 1)).
  - simpl. lia.
  - reflexivity.
  - reflexivity.
  - reflexivity.
  - reflexivity.
Defined.

(** ** C8: the two kernels *)




(** ** C9: what a frame publishes *)

(** C9, as stated, fails: [main] yields the mesh update at the top of the
    frame loop, before the frame's substeps.  With one frame of one substep,
    a free vertex at rest at the origin is published at the origin, while the
    frame's substep moves it to [(0, 0, -9.8)]. *)
Lemma frame_published_before_its_substeps :
  fst (animate still (dot_sim 1 0)) = [MeshUpdate [(Vec3 0 0 0)%R]] /\
  x (run_substeps (still 0) (dot_sim 1 0)) = [(Vec3 0 0 (- (98 / 10)))%R] /\
  [(Vec3 0 0 0)%R] <> x (run_substeps (still 0) (dot_sim 1 0)).
Proof.
  assert (E : x (run_substeps (still 0) (dot_sim 1 0))
              = [(Vec3 0 0 (- (98 / 10)))%R]).
  { cbn. replace (- (1) * 0)%R with 0%R by ring. rewrite exp_0.
    unfold vadd, vscale, vscale_r, gravity. simpl.
    do 2 f_equal; unfold Rdiv; ring. }
  split; [reflexivity|]. split; [exact E|].
  rewrite E. intros [=]. lra.
Qed.

(** C9, amended.  In every frame the positions published to the host mesh
    are the positions [x] as they stand before that frame's substeps, that
    is after the substeps of the frames before it (frame 0 publishes the
    initial positions); the generator ends in the state after the substeps
    of all frames.  Each substep runs with the collider position read from
    the external object immediately before it. *)
Theorem frame_publishes_previous_state {F : Type} `{Num F} `{Elementary F}
  (location : nat -> nat -> vec3 F) (s : Sim F) :
  fst (animate location s)
  = (fun frame => MeshUpdate (x (after_frames location frame s)))
      <$> seq 0 (frame_num s) /\
  snd (animate location s) = after_frames location (frame_num s) s /\
  (forall frame,
     after_frames location (S frame) s
     = run_substeps (location frame) (after_frames location frame s)) /\
  (forall (loc : nat -> vec3 F) (s0 : Sim F) step,
     let body := fun step s => substep (set_coll_origin (loc step) s) in
     for_range (S step) body s0
     = substep (set_coll_origin (loc step) (for_range step body s0)) /\
     coll_origin (for_range (S step) body s0) = loc step).
Proof.
  destruct (main_loop_frames location (frame_num s) 0 s) as [E1 E2].
  split; [exact E1|]. split; [exact E2|]. split.
  - intros frame. unfold after_frames. by rewrite for_range_succ.
  - intros loc s0 step body. rewrite for_range_succ. split; [done|].
    unfold body at 1.
    by rewrite (frame_coll_origin _ _ (substep_frame _)).
Qed.

(** ** C10: vertices of inverse mass at most [eps] *)

(** C10.  A vertex with [0 < w <= eps] is skipped by the tether, link and
    collision stages in every solver iteration, while the predict stage gives
    it the velocity [(v + dt * g * w) * exp(-dt * drag_damping)]; so through
    the whole relaxation its predicted position stays [x + dt * v'], and that
    is where the substep commits it, wherever the collider is. *)
Theorem light_vertex_unconstrained (s : Sim R) (i : nat) (wi : R)
  (xi vi : vec3 R) :
  shaped s ->
  w s !! i = Some wi -> x s !! i = Some xi -> v s !! i = Some vi ->
  (0 < wi <= eps)%R ->
  let v' :=
    vscale_r (vadd vi (vscale_r (vscale (dt s) gravity) wi))
      (exp (- dt s * drag_damping s)) in
  let p' := vadd xi (vscale (dt s) v') in
  (forall s' n, kernel_frame s s' ->
     p (tether_stage s') !! i = p s' !! i /\
     p (link_stage n s') !! i = p s' !! i /\
     p (collision_stage s') !! i = p s' !! i) /\
  v (predict s) !! i = Some v' /\
  (forall k, p (relaxed k s) !! i = Some p') /\
  x (substep s) !! i = Some p'.
Proof.
  intros Hsh Hw Hx Hv [Hpos Hle] v' p'.
  assert (Hskip : passed_over s i).
  { eapply passed_over_R; [exact Hw|]. rewrite eps_R in Hle. exact Hle. }
  destruct (predict_at i wi xi vi s Hsh Hw Hx Hv) as [Ev Ep].
  split; [|split; [exact Ev|split]].
  - intros s' n Hf.
    pose proof (passed_over_frame _ _ _ Hf Hskip) as Hs'.
    split; [by apply tether_stage_skip|].
    split; [by apply link_stage_skip|by apply collision_stage_skip].
  - intros k. rewrite relaxed_skip by exact Hskip. exact Ep.
  - by destruct (substep_passed_over i wi xi vi s Hsh Hw Hx Hv Hskip)
      as [-> _].
Qed.

Lemma light_vertex_unconstrained_witness :
  x (substep (dot_sim (1 / 2000) 3)) !! 0%nat
  = Some (vadd (Vec3 0 0 0)
            (vscale 1
               (vscale_r
                  (vadd (Vec3 0 0 0)
                     (vscale_r (vscale 1 gravity) (1 / 2000)))
                  (exp (- 1 * 0)))))%R.
Proof.
  apply (light_vertex_unconstrained (dot_sim (1 / 2000) 3) 0 (1 / 2000)
           (Vec3 0 0 0) (Vec3 0 0 0))%R.
  - by repeat split.
  - reflexivity.
  - reflexivity.
  - reflexivity.
  - rewrite eps_R. lra.
Defined.

(** * Further properties of the code *)

(** ** Loops that may raise *)

Section OptionLoops.
Context {S : Type}.

(** A loop that returns ran each of its iterations to a result. *)
Lemma for_range_opt_at {A : Type} (Inv : S -> Prop) (obs : S -> A)
  (g : A -> A) i n (body : nat -> S -> option S) s s' :
  (forall j s s', Inv s -> body j s = Some s' -> Inv s') ->
  (forall j s s', j <> i -> Inv s -> body j s = Some s' -> obs s' = obs s) ->
  (forall s s', Inv s -> body i s = Some s' -> obs s' = g (obs s)) ->
  Inv s -> i < n -> for_range_opt n body s = Some s' ->
  obs s' = g (obs s).
Proof.
  intros Hinv Hne Hi Hs. revert s'.
  assert (Hpre : forall m s1, for_range_opt m body s = Some s1 -> Inv s1).
  { intros m s1. apply (for_range_opt_inv Inv); [|exact Hs].
    intros j a b _. apply Hinv. }
  assert (Hbefore : forall m s1, m <= i ->
            for_range_opt m body s = Some s1 -> obs s1 = obs s).
  { induction m as [|m IHm]; intros s1 Hm.
    - unfold for_range_opt. simpl. by intros [= <-].
    - rewrite for_range_opt_succ.
      destruct (for_range_opt m body s) as [s0|] eqn:E; [|done].
      simpl. intros Hb. rewrite (Hne m s0 s1); [|lia|by eapply Hpre|done].
      apply IHm; [lia|done]. }
  induction n as [|n IH]; intros s' Hlt; [lia|].
  rewrite for_range_opt_succ.
  destruct (for_range_opt n body s) as [s0|] eqn:E; [|done].
  simpl. intros Hb.
  destruct (decide (i = n)) as [->|Hin].
  - rewrite (Hi s0 s'); [|by eapply Hpre|done].
    f_equal. by apply (Hbefore n).
  - rewrite (Hne n s0 s'); [|done|by eapply Hpre|done].
    apply IH; [lia|done].
Qed.

(** A loop that returns never met an iteration that raises. *)
Lemma for_range_opt_ran n (body : nat -> S -> option S) s s' i :
  for_range_opt n body s = Some s' -> i < n ->
  exists si si', for_range_opt i body s = Some si /\ body i si = Some si'.
Proof.
  revert s'. induction n as [|n IH]; intros s' E Hi; [lia|].
  rewrite for_range_opt_succ in E.
  destruct (for_range_opt n body s) as [s0|] eqn:E0; [|done].
  simpl in E.
  destruct (decide (i = n)) as [->|Hne].
  - by exists s0, s'.
  - apply (IH s0); [done|lia].
Qed.
End OptionLoops.

(** ** What the constructor writes *)

Section ConstructorFacts.
Context {F : Type} `{Num F}.

Lemma set_link_vertex_fields (s : Sim F) k ij len kk :
  vertex_fields (set_link k ij len kk s) = vertex_fields s.
Proof. reflexivity. Qed.

Lemma set_edges_vertex_fields (s s' : Sim F) :
  set_edges s = Some s' -> vertex_fields s' = vertex_fields s.
Proof.
  unfold set_edges.
  apply (for_range_opt_inv (fun s1 => vertex_fields s1 = vertex_fields s));
    [|done].
  intros i a b _ Ha Hb.
  destruct (edges (bm a) !! link_idx a) as [e|]; [|done]. simpl in Hb.
  injection Hb as <-. by rewrite set_link_vertex_fields.
Qed.

Lemma set_faces_vertex_fields (s s' : Sim F) :
  set_faces s = Some s' -> vertex_fields s' = vertex_fields s.
Proof.
  unfold set_faces.
  apply (for_range_opt_inv (fun s1 => vertex_fields s1 = vertex_fields s));
    [|done].
  intros i a b _ Ha Hb.
  destruct (faces (bm a) !! i) as [fv|]; [|done]. simpl in Hb.
  unfold set_face_link in Hb.
  destruct (fv !! (0 + 0)) as [v0|]; [|done]. simpl in Hb.
  destruct (fv !! 1) as [v1|]; [|done]. simpl in Hb.
  destruct (fv !! 2) as [v2|]; [|done]. simpl in Hb.
  injection Hb as <-. by rewrite !set_link_vertex_fields.
Qed.

(** *** The pin-group loop *)

Lemma set_pin_weight_fields i gs (s : Sim F) :
  x (set_pin_weight i gs s) = x s /\
  tether_len (set_pin_weight i gs s) = tether_len s /\
  attach_pos (set_pin_weight i gs s) = attach_pos s.
Proof.
  unfold set_pin_weight. revert s.
  induction gs as [|g gs IH]; intros s; [done|].
  simpl. destruct (IH (if Nat.eqb (fst g) (pin_index s)
                       then set_w (<[i := nsub (of_int 1) (snd g)]> (w s)) s
                       else s)) as (-> & -> & ->).
  by case_match.
Qed.

Lemma set_pin_weight_other i j gs (s : Sim F) :
  j <> i -> w (set_pin_weight i gs s) !! j = w s !! j.
Proof.
  intros Hne. unfold set_pin_weight. revert s.
  induction gs as [|g gs IH]; intros s; [done|].
  simpl. rewrite IH. case_match; [|done].
  simpl. by apply list_lookup_insert_ne.
Qed.

Lemma set_pin_weight_same i gs w0 (s : Sim F) :
  w s !! i = Some w0 ->
  w (set_pin_weight i gs s) !! i
  = Some (fold_left
            (fun acc g =>
               if Nat.eqb (fst g) (pin_index s)
               then nsub (of_int 1) (snd g) else acc) gs w0).
Proof.
  unfold set_pin_weight. revert s w0.
  induction gs as [|g gs IH]; intros s w0 Hw; [done|].
  simpl. destruct (Nat.eqb (fst g) (pin_index s)) eqn:E.
  - rewrite (IH _ (nsub (of_int 1) (snd g))); [done|].
    simpl. apply list_lookup_insert_eq. by eapply lookup_lt_Some.
  - by apply IH.
Qed.

(** A vertex outside the pin group keeps inverse mass [1]; for one inside,
    the last entry of the pin group decides. *)
Lemma pin_inverse_mass_outside pin (gs : list (nat * F)) :
  in_group pin gs = false -> pin_inverse_mass pin gs = of_int 1.
Proof.
  unfold pin_inverse_mass, in_group. generalize (of_int 1 : F) as a.
  induction gs as [|g gs IH]; intros a Hg; [done|].
  simpl in *. apply orb_false_elim in Hg as [Hg1 Hg2].
  rewrite Nat.eqb_sym, Hg1. by apply IH.
Qed.

Lemma pin_inverse_mass_last pin (gs1 gs2 : list (nat * F)) wt :
  in_group pin gs2 = false ->
  pin_inverse_mass pin (gs1 ++ (pin, wt) :: gs2) = nsub (of_int 1) wt.
Proof.
  intros Hg. unfold pin_inverse_mass.
  rewrite fold_left_app. simpl. rewrite Nat.eqb_refl.
  generalize (nsub (of_int 1) wt) as a. revert Hg. unfold in_group.
  induction gs2 as [|g gs IH]; intros Hg a; [done|].
  simpl in *. apply orb_false_elim in Hg as [Hg1 Hg2].
  rewrite Nat.eqb_sym, Hg1. by apply IH.
Qed.

(** *** The tether loop *)

Lemma tether_row_length xi apos n (row : list F) :
  length (tether_row xi apos n row) = length row.
Proof.
  unfold tether_row.
  apply (for_range_inv (fun r => length r = length row)); [|done].
  intros i r _ <-. apply length_insert.
Qed.

Lemma tether_row_lookup xi apos n (row : list F) att :
  att < n -> att < length row ->
  tether_row xi apos n row !! att = Some (calc_dist xi (vget apos att)).
Proof.
  intros Hn Hl. unfold tether_row.
  apply (for_range_at (fun r => length r = length row) (fun r => r !! att)
           (fun _ => Some (calc_dist xi (vget apos att))) att); try done.
  - intros j r <-. apply length_insert.
  - intros j r Hne _. by apply list_lookup_insert_ne.
  - intros r Hr. apply list_lookup_insert_eq. by rewrite Hr.
Qed.

Lemma tether_loop n i (s : Sim F) :
  i < length (tether_len s) ->
  let s' :=
    for_range n
      (fun att s =>
         set_tether i att
           (calc_dist (vget (x s) i) (vget (attach_pos s) att)) s) s in
  x s' = x s /\ w s' = w s /\ attach_pos s' = attach_pos s /\
  builder_frame s s' /\
  tether_len s'
  = <[i := tether_row (vget (x s) i) (attach_pos s) n
             (default [] (tether_len s !! i))]> (tether_len s).
Proof.
  intros Hi. induction n as [|n IH]; cbv zeta.
  - split; [done|]. split; [done|]. split; [done|].
    split; [apply builder_frame_refl|].
    unfold tether_row, for_range. simpl.
    destruct (lookup_lt_is_Some_2 _ _ Hi) as [r Hr]. rewrite Hr. simpl.
    symmetry. by apply list_insert_id.
  - rewrite for_range_succ. cbv zeta in IH.
    destruct IH as (Ex & Ew & Ea & Hfr & Et).
    set (s1 := for_range n _ s) in *.
    unfold set_tether. simpl. rewrite Ex, Ea, Et.
    split; [done|]. split; [done|]. split; [done|]. split.
    + eapply builder_frame_trans; [exact Hfr|]. by repeat split.
    + rewrite list_lookup_insert_eq by done. simpl.
      rewrite list_insert_insert_eq. f_equal.
      unfold tether_row. by rewrite for_range_succ.
Qed.

(** *** One vertex, then all of them *)

Lemma initialize_vertex_writes i bv gs (s s' : Sim F) :
  initialize_vertex i s = Some s' ->
  verts (bm s) !! i = Some bv -> me_groups s !! i = Some gs ->
  i < length (x s) -> i < length (w s) -> i < length (tether_len s) ->
  x s' !! i = Some (co bv) /\
  w s' !! i = Some (pin_inverse_mass (pin_index s) gs) /\
  tether_len s' !! i
  = Some (if enable_LRA s
          then tether_row (co bv) (attach_pos s) (attach_num s)
                 (default [] (tether_len s !! i))
          else default [] (tether_len s !! i)) /\
  attach_pos s' = attach_pos s /\
  forall j, j <> i ->
    x s' !! j = x s !! j /\ w s' !! j = w s !! j /\
    tether_len s' !! j = tether_len s !! j.
Proof.
  unfold initialize_vertex. intros E Hbv Hgs Lx Lw Lt.
  rewrite Hbv in E. simpl in E. rewrite Hgs in E. simpl in E.
  injection E as <-.
  set (s1 := set_w (<[i := of_int 1]> (w s)) (set_x (<[i := co bv]> (x s)) s)).
  set (s2 := set_pin_weight i gs s1).
  destruct (set_pin_weight_fields i gs s1) as (Ex2 & Et2 & Ea2).
  fold s2 in Ex2, Et2, Ea2.
  assert (Ew2 : w s2 !! i = Some (pin_inverse_mass (pin_index s) gs)).
  { unfold s2. rewrite (set_pin_weight_same i gs (of_int 1) s1); [done|].
    simpl. by apply list_lookup_insert_eq. }
  assert (Ew2' : forall j, j <> i -> w s2 !! j = w s !! j).
  { intros j Hj. unfold s2. rewrite set_pin_weight_other by done.
    simpl. by apply list_lookup_insert_ne. }
  assert (Hlra : enable_LRA s2 = enable_LRA s).
  { exact (builder_enable_LRA s1 s2 (set_pin_weight_frame i gs s1)). }
  assert (Hnum : attach_num s2 = attach_num s).
  { exact (builder_attach_num s1 s2 (set_pin_weight_frame i gs s1)). }
  rewrite Hlra, Hnum.
  assert (Exi : x s2 !! i = Some (co bv)).
  { rewrite Ex2. simpl. by apply list_lookup_insert_eq. }
  assert (Exj : forall j, j <> i -> x s2 !! j = x s !! j).
  { intros j Hj. rewrite Ex2. simpl. by apply list_lookup_insert_ne. }
  destruct (enable_LRA s).
  - destruct (tether_loop (attach_num s) i s2) as (Ex & Ew & Ea & _ & Et).
    { by rewrite Et2. }
    rewrite Ex, Ew, Ea, Et, Ea2, Et2. simpl tether_len. simpl attach_pos.
    rewrite (vget_lookup _ _ _ Exi).
    split; [done|]. split; [done|].
    split; [by apply list_lookup_insert_eq|]. split; [done|].
    intros j Hj. split; [by apply Exj|]. split; [by apply Ew2'|].
    by apply list_lookup_insert_ne.
  - rewrite Et2, Ea2. simpl tether_len. simpl attach_pos.
    split; [done|]. split; [done|].
    split. { destruct (lookup_lt_is_Some_2 _ _ Lt) as [r ->]. done. }
    split; [done|].
    intros j Hj. split; [by apply Exj|]. split; [by apply Ew2'|done].
Qed.

Lemma vertex_loop_writes j bv gs (s s' : Sim F) :
  for_range_opt (vertex_num s) initialize_vertex s = Some s' ->
  j < vertex_num s ->
  verts (bm s) !! j = Some bv -> me_groups s !! j = Some gs ->
  vertex_num s <= length (x s) -> vertex_num s <= length (w s) ->
  vertex_num s <= length (tether_len s) ->
  x s' !! j = Some (co bv) /\
  w s' !! j = Some (pin_inverse_mass (pin_index s) gs) /\
  tether_len s' !! j
  = Some (if enable_LRA s
          then tether_row (co bv) (attach_pos s) (attach_num s)
                 (default [] (tether_len s !! j))
          else default [] (tether_len s !! j)) /\
  attach_pos s' = attach_pos s.
Proof.
  intros E Hj Hbv Hgs Lx Lw Lt.
  assert (Hpos : attach_pos s' = attach_pos s).
  { revert E.
    apply (for_range_opt_inv (fun s1 => attach_pos s1 = attach_pos s));
      [|done].
    intros i a b _ Ha Hb. rewrite <- Ha.
    unfold initialize_vertex in Hb.
    destruct (verts (bm a) !! i) as [bv'|]; [|done]. simpl in Hb.
    destruct (me_groups a !! i) as [gs'|]; [|done]. simpl in Hb.
    injection Hb as <-.
    set (s1 := set_w _ (set_x _ a)).
    destruct (set_pin_weight_fields i gs' s1) as (_ & _ & Ea2).
    destruct (enable_LRA (set_pin_weight i gs' s1)); [|by rewrite Ea2].
    apply (for_range_inv (fun s2 => attach_pos s2 = attach_pos a));
      [|by rewrite Ea2].
    by intros att s2 _ <-. }
  pose (g := fun o : option (vec3 F) * option F * option (list F) =>
               (Some (co bv), Some (pin_inverse_mass (pin_index s) gs),
                Some (if enable_LRA s
                      then tether_row (co bv) (attach_pos s) (attach_num s)
                             (default [] (snd o))
                      else default [] (snd o)))).
  assert (Hobs : (fun s1 => (x s1 !! j, w s1 !! j, tether_len s1 !! j)) s'
                 = g (x s !! j, w s !! j, tether_len s !! j)).
  { revert E.
    apply (for_range_opt_at
             (fun s1 => builder_frame s s1 /\ attach_pos s1 = attach_pos s /\
                        length (tether_len s1) = length (tether_len s))
             (fun s1 => (x s1 !! j, w s1 !! j, tether_len s1 !! j)) g j).
    - intros i a b (Hfr & Ha & Hl) Hb.
      split; [|split].
      + eapply builder_frame_trans; [exact Hfr|].
        by eapply initialize_vertex_frame.
      + rewrite <- Ha. unfold initialize_vertex in Hb.
        destruct (verts (bm a) !! i) as [bv'|]; [|done]. simpl in Hb.
        destruct (me_groups a !! i) as [gs'|]; [|done]. simpl in Hb.
        injection Hb as <-.
        set (s1 := set_w _ (set_x _ a)).
        destruct (set_pin_weight_fields i gs' s1) as (_ & _ & Ea2).
        destruct (enable_LRA (set_pin_weight i gs' s1)); [|by rewrite Ea2].
        apply (for_range_inv (fun s2 => attach_pos s2 = attach_pos a));
          [|by rewrite Ea2].
        by intros att s2 _ <-.
      + rewrite <- Hl. unfold initialize_vertex in Hb.
        destruct (verts (bm a) !! i) as [bv'|]; [|done]. simpl in Hb.
        destruct (me_groups a !! i) as [gs'|]; [|done]. simpl in Hb.
        injection Hb as <-.
        set (s1 := set_w _ (set_x _ a)).
        destruct (set_pin_weight_fields i gs' s1) as (_ & Et2 & _).
        destruct (enable_LRA (set_pin_weight i gs' s1)); [|by rewrite Et2].
        apply (for_range_inv
                 (fun s2 => length (tether_len s2) = length (tether_len a)));
          [|by rewrite Et2].
        intros att s2 _ <-. unfold set_tether. simpl. apply length_insert.
    - intros i a b Hne (Hfr & Ha & Hl) Hb.
      unfold initialize_vertex in Hb.
      destruct (verts (bm a) !! i) as [bv'|] eqn:Ev; [|done]. simpl in Hb.
      destruct (me_groups a !! i) as [gs'|] eqn:Eg; [|done]. simpl in Hb.
      injection Hb as <-.
      set (s1 := set_w _ (set_x _ a)).
      destruct (set_pin_weight_fields i gs' s1) as (Ex2 & Et2 & Ea2).
      assert (Ew : w (set_pin_weight i gs' s1) !! j = w a !! j).
      { rewrite set_pin_weight_other by done. simpl.
        by apply list_lookup_insert_ne. }
      assert (Ex : x (set_pin_weight i gs' s1) !! j = x a !! j).
      { rewrite Ex2. simpl. by apply list_lookup_insert_ne. }
      assert (Et : tether_len (set_pin_weight i gs' s1) !! j
                   = tether_len a !! j) by (by rewrite Et2).
      destruct (enable_LRA (set_pin_weight i gs' s1)).
      + rewrite <- Ew, <- Ex, <- Et.
        apply (for_range_inv
                 (fun s2 =>
                    (x s2 !! j, w s2 !! j, tether_len s2 !! j)
                    = (x (set_pin_weight i gs' s1) !! j,
                       w (set_pin_weight i gs' s1) !! j,
                       tether_len (set_pin_weight i gs' s1) !! j)));
          [|done].
        intros att s2 _ <-. unfold set_tether. simpl.
        by rewrite list_lookup_insert_ne.
      + by rewrite Ew, Ex, Et.
    - intros a b (Hfr & Ha & Hl) Hb.
      pose proof Hfr as (_ & Lx' & Lw' & _).
      destruct (initialize_vertex_writes j bv gs a b Hb)
        as (E1 & E2 & E3 & _); try lia.
      { by rewrite (builder_bm _ _ Hfr). }
      { by rewrite (builder_me_groups _ _ Hfr). }
      rewrite E1, E2, E3. unfold g. simpl.
      change (pin_index a) with (pin_index (builder_static a)).
      change (enable_LRA a) with (enable_LRA (builder_static a)).
      change (attach_num a) with (attach_num (builder_static a)).
      destruct Hfr as (-> & _). simpl. by rewrite Ha.
    - split; [apply builder_frame_refl|done].
    - exact Hj. }
  unfold g in Hobs. simpl in Hobs. injection Hobs as -> -> ->. done.
Qed.

(** *** The attachment points *)

Lemma set_attachments_writes (s s' : Sim F) :
  set_attachments s = Some s' ->
  x s' = x s /\ w s' = w s /\ tether_len s' = tether_len s /\
  forall a idx bv,
    a < attach_num s -> a < length (attach_pos s) ->
    attach s !! a = Some idx -> verts (bm s) !! idx = Some bv ->
    attach_pos s' !! a = Some (co bv).
Proof.
  unfold set_attachments. intros E.
  assert (Hsame : x s' = x s /\ w s' = w s /\ tether_len s' = tether_len s).
  { revert E.
    apply (for_range_opt_inv
             (fun s1 => x s1 = x s /\ w s1 = w s /\
                        tether_len s1 = tether_len s)); [|done].
    intros i a b _ (<- & <- & <-) Hb.
    destruct (attach a !! i) as [ai|]; [|done]. simpl in Hb.
    destruct (verts (bm a) !! ai) as [bv|]; [|done]. simpl in Hb.
    by injection Hb as <-. }
  destruct Hsame as (Ex & Ew & Et).
  split; [done|]. split; [done|]. split; [done|].
  intros a idx bv Ha La Hidx Hbv. revert E.
  apply (for_range_opt_at (builder_frame s) (fun s1 => attach_pos s1 !! a)
           (fun _ => Some (co bv)) a).
  - intros j s1 s2 Hfr Hb. eapply builder_frame_trans; [exact Hfr|].
    destruct (attach s1 !! j) as [ai|]; [|done]. simpl in Hb.
    destruct (verts (bm s1) !! ai) as [bv'|]; [|done]. simpl in Hb.
    injection Hb as <-. repeat split; simpl; by rewrite ?length_insert.
  - intros j s1 s2 Hne _ Hb.
    destruct (attach s1 !! j) as [ai|]; [|done]. simpl in Hb.
    destruct (verts (bm s1) !! ai) as [bv'|]; [|done]. simpl in Hb.
    injection Hb as <-. simpl. by apply list_lookup_insert_ne.
  - intros s1 s2 Hfr Hb.
    rewrite (builder_attach _ _ Hfr), Hidx in Hb. simpl in Hb.
    rewrite (builder_bm _ _ Hfr), Hbv in Hb. simpl in Hb.
    injection Hb as <-. simpl. apply list_lookup_insert_eq.
    destruct Hfr as (_ & _ & _ & _ & _ & _ & ->). done.
  - apply builder_frame_refl.
  - done.
Qed.

(** *** The constructor as a whole *)

Lemma set_attachments_frame (s s' : Sim F) :
  set_attachments s = Some s' -> builder_frame s s'.
Proof.
  unfold set_attachments. apply for_range_opt_frame. intros i a b Hb.
  destruct (attach a !! i) as [ai|]; [|done]. simpl in Hb.
  destruct (verts (bm a) !! ai) as [bv|]; [|done]. simpl in Hb.
  injection Hb as <-. repeat split; simpl; by rewrite ?length_insert.
Qed.

Lemma init_vertex_fields (sdf_phy : SdfPhy F) frame_end (s : Sim F) i bv gs :
  TiClothSimulation_init sdf_phy frame_end = Some s ->
  let b := bm_of (cloth_obj sdf_phy) in
  let s0 := allocated sdf_phy frame_end in
  verts b !! i = Some bv ->
  vertex_groups (cloth_obj sdf_phy) !! i = Some gs ->
  exists s1,
    (if phy_enable_LRA sdf_phy then set_attachments s0 else Some s0)
    = Some s1 /\
    attach_pos s = attach_pos s1 /\
    x s !! i = Some (co bv) /\
    w s !! i = Some (pin_inverse_mass (pin_group sdf_phy) gs) /\
    tether_len s !! i
    = Some (if phy_enable_LRA sdf_phy
            then tether_row (co bv) (attach_pos s1) (attach_num s0)
                   (replicate (attach_num s0) (of_int 0))
            else replicate (attach_num s0) (of_int 0)).
Proof.
  intros E b s0 Hbv Hgs. unfold TiClothSimulation_init, initialize in E.
  fold s0 in E.
  change (enable_LRA s0) with (phy_enable_LRA sdf_phy) in E.
  destruct (if phy_enable_LRA sdf_phy then set_attachments s0 else Some s0)
    as [s1|] eqn:E1; [|done].
  simpl in E.
  destruct (for_range_opt (vertex_num s1) initialize_vertex s1)
    as [s2|] eqn:E2; [|done].
  simpl in E.
  destruct (set_edges (set_link_idx 0 s2)) as [s3|] eqn:E3; [|done].
  simpl in E.
  pose proof (set_edges_vertex_fields _ _ E3) as V3.
  pose proof (set_faces_vertex_fields _ _ E) as V4.
  rewrite V3 in V4. unfold vertex_fields in V4. simpl in V4.
  injection V4 as -> -> -> ->.
  assert (F1 : builder_frame s0 s1 /\ x s1 = x s0 /\ w s1 = w s0 /\
               tether_len s1 = tether_len s0).
  { destruct (phy_enable_LRA sdf_phy).
    - split; [by apply set_attachments_frame|].
      by destruct (set_attachments_writes _ _ E1) as (? & ? & ? & _).
    - injection E1 as <-. split; [apply builder_frame_refl|done]. }
  destruct F1 as (F1 & Ex1 & Ew1 & Et1).
  assert (Hi : i < length (verts b)) by (by eapply lookup_lt_Some).
  destruct (vertex_loop_writes i bv gs s1 s2 E2) as (A & B & C & D).
  - by rewrite (builder_vertex_num _ _ F1).
  - by rewrite (builder_bm _ _ F1).
  - by rewrite (builder_me_groups _ _ F1).
  - rewrite Ex1, (builder_vertex_num _ _ F1). simpl.
    by rewrite length_replicate.
  - rewrite Ew1, (builder_vertex_num _ _ F1). simpl.
    by rewrite length_replicate.
  - rewrite Et1, (builder_vertex_num _ _ F1). simpl.
    by rewrite length_replicate.
  - exists s1. split; [done|]. split; [done|]. split; [done|].
    change (pin_index s1) with (pin_index (builder_static s1)) in B.
    change (enable_LRA s1) with (enable_LRA (builder_static s1)) in C.
    change (attach_num s1) with (attach_num (builder_static s1)) in C.
    destruct F1 as (Hst & _). rewrite Hst in B, C. simpl in B, C.
    split; [exact B|].
    rewrite C, Et1. simpl tether_len.
    rewrite lookup_replicate_2 by done. done.
Qed.
End ConstructorFacts.

Section ConstructorResults.
Context {F : Type} `{Num F}.

(** A constructor that returns found a group list for every vertex. *)
Lemma init_groups_cover (sdf_phy : SdfPhy F) frame_end (s : Sim F) :
  TiClothSimulation_init sdf_phy frame_end = Some s ->
  length (verts (bm_of (cloth_obj sdf_phy)))
  <= length (vertex_groups (cloth_obj sdf_phy)).
Proof.
  intros E. unfold TiClothSimulation_init, initialize in E.
  set (s0 := allocated sdf_phy frame_end) in *.
  destruct (if enable_LRA s0 then set_attachments s0 else Some s0)
    as [s1|] eqn:E1; [|done].
  simpl in E.
  destruct (for_range_opt (vertex_num s1) initialize_vertex s1)
    as [s2|] eqn:E2; [|done].
  assert (F1 : builder_frame s0 s1).
  { destruct (enable_LRA s0); [by apply set_attachments_frame|].
    injection E1 as <-. apply builder_frame_refl. }
  destruct (decide (length (verts (bm_of (cloth_obj sdf_phy))) = 0))
    as [->|Hne]; [lia|].
  set (n := length (verts (bm_of (cloth_obj sdf_phy)))) in *.
  destruct (for_range_opt_ran _ _ _ _ (n - 1) E2) as (si & si' & Ei & Hb).
  { rewrite (builder_vertex_num _ _ F1). simpl. fold n. lia. }
  assert (Fi : builder_frame s1 si).
  { revert Ei. apply for_range_opt_frame, initialize_vertex_frame. }
  unfold initialize_vertex in Hb.
  destruct (verts (bm si) !! (n - 1)) as [bv|]; [|done]. simpl in Hb.
  destruct (me_groups si !! (n - 1)) as [gs|] eqn:Eg; [|done].
  rewrite (builder_me_groups _ _ Fi), (builder_me_groups _ _ F1) in Eg.
  apply lookup_lt_Some in Eg. simpl in Eg. lia.
Qed.
End ConstructorResults.

(** ** X1: positions and inverse masses after the constructor *)

(** X1.  When the constructor returns, every vertex [i] has the position of
    mesh vertex [i], zero predicted position and zero velocity; its inverse
    mass is [1] if it is not in the pin group, and [1 - weight] for the last
    pin-group entry of its group list otherwise. *)
Theorem constructor_positions_and_masses {F : Type} `{Num F}
  (sdf_phy : SdfPhy F) (frame_end : nat) (s : Sim F) (i : nat)
  (bv : BMVert F) (gs : list (nat * F)) :
  TiClothSimulation_init sdf_phy frame_end = Some s ->
  verts (bm_of (cloth_obj sdf_phy)) !! i = Some bv ->
  vertex_groups (cloth_obj sdf_phy) !! i = Some gs ->
  x s !! i = Some (co bv) /\
  p s !! i = Some vzero /\
  v s !! i = Some vzero /\
  w s !! i = Some (pin_inverse_mass (pin_group sdf_phy) gs) /\
  (in_group (pin_group sdf_phy) gs = false -> w s !! i = Some (of_int 1)) /\
  (forall gs1 wt gs2,
     gs = gs1 ++ (pin_group sdf_phy, wt) :: gs2 ->
     in_group (pin_group sdf_phy) gs2 = false ->
     w s !! i = Some (nsub (of_int 1) wt)).
Proof.
  intros E Hbv Hgs.
  destruct (init_vertex_fields sdf_phy frame_end s i bv gs E Hbv Hgs)
    as (s1 & _ & _ & Ex & Ew & _).
  pose proof (initialize_frame _ _ E) as Hfr.
  assert (Hi : i < length (verts (bm_of (cloth_obj sdf_phy))))
    by (by eapply lookup_lt_Some).
  split; [exact Ex|].
  split. { rewrite (builder_p _ _ Hfr). simpl. by apply lookup_replicate_2. }
  split. { rewrite (builder_v _ _ Hfr). simpl. by apply lookup_replicate_2. }
  split; [exact Ew|]. split.
  - intros Hout. by rewrite Ew, pin_inverse_mass_outside.
  - intros gs1 wt gs2 -> Hout. by rewrite Ew, pin_inverse_mass_last.
Qed.

Lemma constructor_positions_and_masses_witness :
  w (tri_sim 2) !! 1%nat = Some 1%R.
Proof.
  destruct (constructor_positions_and_masses (tri_phy 2) 2 (tri_sim 2) 1
              (bmvert 1 1 0 0) []) as (_ & _ & _ & _ & Hout & _).
  - reflexivity.
  - reflexivity.
  - reflexivity.
  - apply Hout. reflexivity.
Defined.

(** ** X2: the attachment points *)

(** X2.  The attachment list holds exactly the indices of the vertices that
    have an entry of the attachment group in their group list, each once, in
    increasing order. *)
Theorem attachment_points_are_group_members {F : Type} `{Num F}
  (g : nat) (groups : list (list (nat * F))) :
  (forall a,
     a ∈ attach_indices g groups <->
     exists gs wt, groups !! a = Some gs /\ (g, wt) ∈ gs) /\
  sublist (attach_indices g groups) (seq 0 (length groups)).
Proof.
  assert (Hin : forall gs : list (nat * F),
            in_group g gs = true <-> exists wt, (g, wt) ∈ gs).
  { intros gs. unfold in_group. rewrite existsb_exists. split.
    - intros ([g' wt] & Hm & Eg). apply Nat.eqb_eq in Eg. simpl in Eg.
      subst g'. exists wt. by apply list_elem_of_In.
    - intros (wt & Hm). exists (g, wt). split; [by apply list_elem_of_In|].
      apply Nat.eqb_refl. }
  split.
  - intros a. unfold attach_indices. rewrite list_elem_of_fmap. split.
    + intros ([i gs] & -> & Hf).
      apply list_elem_of_filter in Hf as [Hg Hz]. simpl in Hg.
      apply elem_of_lookup_zip_with in Hz as (k & i' & gs' & Hz & Hs & Hk).
      injection Hz as -> ->.
      apply lookup_seq in Hs as [-> _]. simpl.
      apply Hin in Hg as (wt & Hwt). by exists gs', wt.
    + intros (gs & wt & Hk & Hwt). exists (a, gs). split; [done|].
      apply list_elem_of_filter. split.
      * simpl. apply Hin. by exists wt.
      * apply elem_of_lookup_zip_with. exists a, a, gs.
        split; [done|]. split; [|done].
        apply lookup_seq. split; [done|]. by eapply lookup_lt_Some.
  - unfold attach_indices.
    rewrite <- (fst_zip (seq 0 (length groups)) groups)
      by (by rewrite length_seq).
    apply fmap_sublist. rewrite fst_zip by (by rewrite length_seq).
    apply sublist_filter.
Qed.

(** ** Attachments and tethers after the constructor *)

Lemma init_attachments_and_tethers {F : Type} `{Num F}
  (sdf_phy : SdfPhy F) (frame_end : nat) (s : Sim F) :
  TiClothSimulation_init sdf_phy frame_end = Some s ->
  phy_enable_LRA sdf_phy = true ->
  let b := bm_of (cloth_obj sdf_phy) in
  attach s
  = attach_indices (attach_group sdf_phy) (vertex_groups (cloth_obj sdf_phy))
  /\
  attach_num s = length (attach s) /\
  length (attach_pos s) = length (attach s) /\
  (forall a idx,
     attach s !! a = Some idx ->
     exists bv, verts b !! idx = Some bv /\ attach_pos s !! a = Some (co bv)) /\
  (forall i a bv,
     verts b !! i = Some bv -> a < length (attach s) ->
     x s !! i = Some (co bv) /\
     tget (tether_len s) i a = calc_dist (co bv) (vget (attach_pos s) a)).
Proof.
  intros E Hlra b.
  pose proof (initialize_frame _ _ E) as Hfr.
  pose proof (init_groups_cover _ _ _ E) as Hcover. fold b in Hcover.
  set (s0 := allocated sdf_phy frame_end) in *.
  assert (Hatt : attach s = attach_indices (attach_group sdf_phy)
                              (vertex_groups (cloth_obj sdf_phy))).
  { rewrite (builder_attach _ _ Hfr). simpl. by rewrite Hlra. }
  assert (Hnum : attach_num s = length (attach s)).
  { by rewrite (builder_attach_num _ _ Hfr), (builder_attach _ _ Hfr). }
  assert (Hlen : length (attach_pos s) = length (attach s)).
  { destruct Hfr as (_ & _ & _ & _ & _ & _ & ->).
    rewrite (builder_attach _ _ (initialize_frame _ _ E)). simpl.
    by rewrite length_replicate. }
  (* the state after [set_attachments] *)
  assert (Hs1 : exists s1,
            set_attachments s0 = Some s1 /\ attach_pos s = attach_pos s1 /\
            forall i bv, verts b !! i = Some bv ->
              x s !! i = Some (co bv) /\
              tether_len s !! i
              = Some (tether_row (co bv) (attach_pos s1) (attach_num s0)
                        (replicate (attach_num s0) (of_int 0)))).
  { unfold TiClothSimulation_init, initialize in E. fold s0 in E.
    change (enable_LRA s0) with (phy_enable_LRA sdf_phy) in E.
    rewrite Hlra in E.
    destruct (set_attachments s0) as [s1|] eqn:E1; [|done].
    simpl in E.
    exists s1. split; [done|].
    assert (Hpos : forall i bv gs, verts b !! i = Some bv ->
              vertex_groups (cloth_obj sdf_phy) !! i = Some gs ->
              attach_pos s = attach_pos s1 /\ x s !! i = Some (co bv) /\
              tether_len s !! i
              = Some (tether_row (co bv) (attach_pos s1) (attach_num s0)
                        (replicate (attach_num s0) (of_int 0)))).
    { intros i bv gs Hbv Hgs.
      assert (E' : TiClothSimulation_init sdf_phy frame_end = Some s).
      { unfold TiClothSimulation_init, initialize. fold s0.
        change (enable_LRA s0) with (phy_enable_LRA sdf_phy).
        by rewrite Hlra, E1. }
      destruct (init_vertex_fields sdf_phy frame_end s i bv gs E' Hbv Hgs)
        as (s1' & E1' & Ea & Ex & _ & Et).
      fold s0 in E1', Et. rewrite Hlra in E1', Et.
      rewrite E1 in E1'. injection E1' as <-. done. }
    split.
    - destruct (verts b) as [|bv0 vs] eqn:Ev.
      + (* no vertex: nothing after [set_attachments] touches the field *)
        destruct (for_range_opt (vertex_num s1) initialize_vertex s1)
          as [s2|] eqn:E2; [|done].
        simpl in E.
        destruct (set_edges (set_link_idx 0 s2)) as [s3|] eqn:E3; [|done].
        simpl in E.
        pose proof (set_edges_vertex_fields _ _ E3) as V3.
        pose proof (set_faces_vertex_fields _ _ E) as V4.
        rewrite V3 in V4. injection V4 as _ _ _ ->.
        rewrite (builder_vertex_num _ _ (set_attachments_frame _ _ E1)) in E2.
        simpl in E2. fold b in E2. rewrite Ev in E2. simpl in E2.
        by injection E2 as <-.
      + destruct (lookup_lt_is_Some_2 (vertex_groups (cloth_obj sdf_phy)) 0)
          as [gs Hgs]; [simpl in Hcover; lia|].
        by destruct (Hpos 0 bv0 gs eq_refl Hgs) as (-> & _).
    - intros i bv Hbv.
      destruct (lookup_lt_is_Some_2 (vertex_groups (cloth_obj sdf_phy)) i)
        as [gs Hgs].
      { apply lookup_lt_Some in Hbv. lia. }
      by destruct (Hpos i bv gs Hbv Hgs) as (_ & ? & ?). }
  destruct Hs1 as (s1 & E1 & Ea & Hrows).
  split; [exact Hatt|]. split; [exact Hnum|]. split; [exact Hlen|]. split.
  - intros a idx Ha.
    assert (Hidx : idx < length (verts b)).
    { assert (Hin : idx ∈ attach s) by (by eapply list_elem_of_lookup_2).
      rewrite Hatt in Hin. apply attach_indices_lt in Hin.
      (* the constructor returned, so [set_attachments] found the vertex *)
      destruct (for_range_opt_ran _ _ _ _ a E1) as (si & si' & Ei & Hb).
      { simpl. rewrite Hlra. rewrite <- Hatt. by eapply lookup_lt_Some. }
      assert (Fi : builder_frame s0 si).
      { revert Ei. apply for_range_opt_frame. intros j u u' Hu.
        destruct (attach u !! j) as [aj|]; [|done]. simpl in Hu.
        destruct (verts (bm u) !! aj) as [bj|]; [|done]. simpl in Hu.
        injection Hu as <-. repeat split; simpl; by rewrite ?length_insert. }
      rewrite (builder_attach _ _ Fi), (builder_bm _ _ Fi) in Hb.
      rewrite (builder_attach _ _ Hfr) in Ha. rewrite Ha in Hb. simpl in Hb.
      fold b in Hb.
      destruct (verts b !! idx) as [bj|] eqn:Ej; [|done].
      by eapply lookup_lt_Some. }
    destruct (lookup_lt_is_Some_2 _ _ Hidx) as [bv Hbv].
    exists bv. split; [exact Hbv|]. rewrite Ea.
    destruct (set_attachments_writes _ _ E1) as (_ & _ & _ & Hw).
    apply (Hw a idx bv); try done.
    + rewrite <- (builder_attach_num _ _ Hfr), Hnum. by eapply lookup_lt_Some.
    + simpl. rewrite length_replicate, Hlra, <- Hatt.
      by eapply lookup_lt_Some.
    + by rewrite <- (builder_attach _ _ Hfr).
  - intros i a bv Hbv Ha.
    destruct (Hrows i bv Hbv) as [Ex Et]. split; [exact Ex|].
    assert (Hn : attach_num s0 = length (attach s)).
    { by rewrite <- (builder_attach_num _ _ Hfr). }
    assert (Hrow : tether_row (co bv) (attach_pos s1) (attach_num s0)
                     (replicate (attach_num s0) (of_int 0)) !! a
                   = Some (calc_dist (co bv) (vget (attach_pos s1) a))).
    { apply tether_row_lookup; [lia|]. rewrite length_replicate. lia. }
    unfold tget, sget. rewrite Et, Ea.
    change (default [] (Some ?r)) with r. by rewrite Hrow.
Qed.

(** ** X3: attachment positions and tether rest lengths *)

(** X3.  When the constructor returns with long-range attachment enabled,
    the attachment list is the list of the attachment-group vertices, every
    attachment position is the mesh position of its vertex, and the tether
    rest length of every (vertex, attachment) pair is [calc_dist] of the
    vertex position and the attachment position. *)
Theorem constructor_attachments_and_tethers {F : Type} `{Num F}
  (sdf_phy : SdfPhy F) (frame_end : nat) (s : Sim F) :
  TiClothSimulation_init sdf_phy frame_end = Some s ->
  phy_enable_LRA sdf_phy = true ->
  let b := bm_of (cloth_obj sdf_phy) in
  attach s
  = attach_indices (attach_group sdf_phy) (vertex_groups (cloth_obj sdf_phy))
  /\
  attach_num s = length (attach s) /\
  length (attach_pos s) = length (attach s) /\
  (forall a idx,
     attach s !! a = Some idx ->
     exists bv, verts b !! idx = Some bv /\ attach_pos s !! a = Some (co bv)) /\
  (forall i a bv,
     verts b !! i = Some bv -> a < length (attach s) ->
     x s !! i = Some (co bv) /\
     tget (tether_len s) i a = calc_dist (co bv) (vget (attach_pos s) a)).
Proof. apply init_attachments_and_tethers. Qed.

Lemma constructor_attachments_and_tethers_witness :
  exists s,
    TiClothSimulation_init tri_phy_lra 1 = Some s /\
    attach s = [0] /\
    tget (tether_len s) 1 0
    = calc_dist (Vec3 1 0 0)%R (vget (attach_pos s) 0).
Proof.
  destruct (init_returns tri_phy_lra 1) as (s & E & _).
  - reflexivity.
  - intros fv Hin. apply list_elem_of_singleton in Hin. subst fv. simpl. lia.
  - destruct (constructor_attachments_and_tethers tri_phy_lra 1 s E eq_refl)
      as (Ha & _ & _ & _ & Ht).
    exists s. split; [exact E|]. split; [by rewrite Ha|].
    apply (Ht 1 0 (bmvert 1 1 0 0)); [reflexivity|].
    rewrite Ha. simpl. lia.
Defined.

(** ** When the constructor returns *)

Section ConstructorReturns.
Context {F : Type} `{Num F}.

Lemma set_edges_frame (s s' : Sim F) :
  set_edges s = Some s' -> builder_frame s s'.
Proof.
  unfold set_edges. apply for_range_opt_frame. intros i a b Hb.
  destruct (edges (bm a) !! link_idx a) as [e|]; [|done]. simpl in Hb.
  injection Hb as <-. apply set_link_frame.
Qed.

Lemma set_faces_frame (s s' : Sim F) :
  set_faces s = Some s' -> builder_frame s s'.
Proof.
  unfold set_faces. apply for_range_opt_frame. intros j a b Hj.
  destruct (faces (bm a) !! j) as [fv'|]; [|done]. simpl in Hj.
  unfold set_face_link in Hj.
  destruct (fv' !! (0 + 0)) as [v0|]; [|done]. simpl in Hj.
  destruct (fv' !! 1) as [v1|]; [|done]. simpl in Hj.
  destruct (fv' !! 2) as [v2|]; [|done]. simpl in Hj.
  injection Hj as <-.
  eapply builder_frame_trans; apply set_link_frame.
Qed.

Lemma set_faces_frame_prefix m (s s' : Sim F) :
  for_range_opt m
    (fun i s =>
       fv ← faces (bm s) !! i;
       s0 ← set_face_link fv 0 s;
       set_face_link fv 1 s0) s = Some s' ->
  builder_frame s s'.
Proof.
  apply for_range_opt_frame. intros j a b Hj.
  destruct (faces (bm a) !! j) as [fv'|]; [|done]. simpl in Hj.
  unfold set_face_link in Hj.
  destruct (fv' !! (0 + 0)) as [v0|]; [|done]. simpl in Hj.
  destruct (fv' !! 1) as [v1|]; [|done]. simpl in Hj.
  destruct (fv' !! 2) as [v2|]; [|done]. simpl in Hj.
  injection Hj as <-.
  eapply builder_frame_trans; apply set_link_frame.
Qed.

Lemma vertex_loop_frame (s s' : Sim F) :
  for_range_opt (vertex_num s) initialize_vertex s = Some s' ->
  builder_frame s s'.
Proof. apply for_range_opt_frame, initialize_vertex_frame. Qed.

(** A constructor that returns indexed every face loop up to position 2. *)
Lemma init_faces_long (sdf_phy : SdfPhy F) frame_end (s : Sim F) fv :
  TiClothSimulation_init sdf_phy frame_end = Some s ->
  fv ∈ faces (bm_of (cloth_obj sdf_phy)) -> 3 <= length fv.
Proof.
  intros E Hfv. unfold TiClothSimulation_init, initialize in E.
  set (s0 := allocated sdf_phy frame_end) in *.
  destruct (if enable_LRA s0 then set_attachments s0 else Some s0)
    as [s1|] eqn:E1; [|done].
  simpl in E.
  destruct (for_range_opt (vertex_num s1) initialize_vertex s1)
    as [s2|] eqn:E2; [|done].
  simpl in E.
  destruct (set_edges (set_link_idx 0 s2)) as [s3|] eqn:E3; [|done].
  simpl in E.
  assert (F1 : builder_frame s0 s1).
  { destruct (enable_LRA s0); [by apply set_attachments_frame|].
    injection E1 as <-. apply builder_frame_refl. }
  pose proof (vertex_loop_frame _ _ E2) as F2.
  assert (F2' : builder_frame s2 (set_link_idx 0 s2)) by (by repeat split).
  pose proof (set_edges_frame _ _ E3) as F3'.
  assert (F3 : builder_frame s0 s3).
  { eapply builder_frame_trans; [exact F1|].
    eapply builder_frame_trans; [exact F2|].
    eapply builder_frame_trans; [exact F2'|exact F3']. }
  apply list_elem_of_lookup in Hfv as [i Hi].
  unfold set_faces in E.
  destruct (for_range_opt_ran _ _ _ _ i E) as (si & si' & Ei & Hb).
  { rewrite (builder_face_num _ _ F3). simpl. by eapply lookup_lt_Some. }
  assert (Fi : builder_frame s3 si) by (by apply set_faces_frame_prefix in Ei).
  rewrite (builder_bm _ _ Fi), (builder_bm _ _ F3) in Hb. simpl in Hb.
  rewrite Hi in Hb. simpl in Hb. unfold set_face_link in Hb.
  destruct (fv !! (0 + 0)) as [v0|]; [|done]. simpl in Hb.
  destruct (fv !! 1) as [v1|]; [|done]. simpl in Hb.
  destruct (fv !! 2) as [v2|] eqn:E2'; [|done].
  apply lookup_lt_Some in E2'. lia.
Qed.

(** The rows of the link table of a constructor that returns. *)
Lemma init_rows (sdf_phy : SdfPhy F) frame_end (s : Sim F) :
  TiClothSimulation_init sdf_phy frame_end = Some s ->
  let b := bm_of (cloth_obj sdf_phy) in
  builder_frame (allocated sdf_phy frame_end) s /\
  link_idx s = length (edges b) + 2 * length (faces b) /\
  stretch_rows (edges b) (length (edges b)) s /\
  bend_rows (faces b) (length (edges b)) (length (faces b)) s.
Proof.
  intros E b.
  pose proof (init_groups_cover _ _ _ E) as Hcover.
  destruct (initialize_returns (allocated sdf_phy frame_end))
    as (s' & E' & Hrest); simpl; rewrite ?length_replicate; try done;
    try lia.
  - intros a Ha.
    destruct (phy_enable_LRA sdf_phy) eqn:Hlra;
      [|by apply elem_of_nil in Ha].
    destruct (init_attachments_and_tethers sdf_phy frame_end s E Hlra)
      as (Hatt & _ & _ & Hpos & _).
    rewrite <- Hatt in Ha. apply list_elem_of_lookup in Ha as [k Hk].
    destruct (Hpos k a Hk) as (bv & Hbv & _).
    by eapply lookup_lt_Some.
  - intros fv Hfv. by eapply init_faces_long.
  - unfold TiClothSimulation_init in E. rewrite E in E'.
    injection E' as <-. exact Hrest.
Qed.
End ConstructorReturns.

(** ** X5: the link table, edges first *)

(** X5.  When the constructor returns, the link table has exactly
    [edge_num + 2 * face_num] rows, and row [i] below [edge_num] links the
    two ends of mesh edge [i], with stiffness [k_stretch] and the distance
    between the two ends as rest length. *)
Theorem edges_give_stretch_links {F : Type} `{Num F}
  (sdf_phy : SdfPhy F) (frame_end : nat) (s : Sim F) :
  TiClothSimulation_init sdf_phy frame_end = Some s ->
  let b := bm_of (cloth_obj sdf_phy) in
  link_num s = length (edges b) + 2 * length (faces b) /\
  length (link s) = link_num s /\
  length (link_len s) = link_num s /\
  length (link_k s) = link_num s /\
  forall i e,
    edges b !! i = Some e ->
    link s !! i = Some (index (fst e), index (snd e)) /\
    link_len s !! i = Some (calc_dist (co (fst e)) (co (snd e))) /\
    link_k s !! i = Some k_stretch.
Proof.
  intros E b.
  destruct (init_rows sdf_phy frame_end s E) as (Hfr & _ & Hrows & _).
  assert (Hn : link_num s = length (edges b) + 2 * length (faces b)).
  { change (link_num s) with (link_num (builder_static s)).
    destruct Hfr as (-> & _). simpl. fold b. lia. }
  split; [exact Hn|].
  destruct Hfr as (_ & _ & _ & L1 & L2 & L3 & _).
  rewrite L1, L2, L3, Hn. simpl. rewrite !length_replicate. fold b.
  split; [lia|]. split; [lia|]. split; [lia|].
  intros i e He.
  assert (Hi : i < length (edges b)) by (by eapply lookup_lt_Some).
  specialize (Hrows i e Hi He). unfold link_row in Hrows.
  by injection Hrows as -> -> ->.
Qed.

Lemma edges_give_stretch_links_witness :
  link (tri_sim 2) !! 2 = Some (2, 0) /\
  link_k (tri_sim 2) !! 2 = Some k_stretch.
Proof.
  destruct (edges_give_stretch_links (tri_phy 2) 2 (tri_sim 2))
    as (_ & _ & _ & _ & Hrows); [reflexivity|].
  destruct (Hrows 2 (bmvert 2 0 1 0, bmvert 0 0 0 0))
    as (Hl & _ & Hk); [reflexivity|].
  by split.
Defined.

(** ** X6: the ends of a link *)

(** X6.  When the constructor returns on a mesh whose edges and faces refer
    only to vertices of the vertex table, both ends of every link are vertex
    indices below [vertex_num]; if moreover the two ends of every edge differ
    and no face loop repeats a vertex, the two ends of every link differ. *)
Theorem link_ends_are_vertices {F : Type} `{Num F}
  (sdf_phy : SdfPhy F) (frame_end : nat) (s : Sim F) (l i0 i1 : nat) :
  TiClothSimulation_init sdf_phy frame_end = Some s ->
  mesh_in_range (bm_of (cloth_obj sdf_phy)) ->
  link s !! l = Some (i0, i1) ->
  (i0 < vertex_num s /\ i1 < vertex_num s) /\
  (mesh_simple (bm_of (cloth_obj sdf_phy)) -> i0 <> i1).
Proof.
  intros E [Hedges Hfaces] Hl.
  set (b := bm_of (cloth_obj sdf_phy)) in *.
  destruct (init_rows sdf_phy frame_end s E) as (Hfr & _ & Hs & Hb).
  fold b in Hs, Hb.
  assert (Hv : vertex_num s = length (verts b)).
  { by rewrite (builder_vertex_num _ _ Hfr). }
  assert (Hlen : l < length (edges b) + 2 * length (faces b)).
  { apply lookup_lt_Some in Hl.
    destruct Hfr as (_ & _ & _ & L1 & _). rewrite L1 in Hl. simpl in Hl.
    rewrite length_replicate in Hl. fold b in Hl. lia. }
  rewrite Hv.
  destruct (decide (l < length (edges b))) as [Hlt|Hge].
  - destruct (lookup_lt_is_Some_2 _ _ Hlt) as [e He].
    specialize (Hs l e Hlt He). unfold link_row in Hs.
    injection Hs as Hs _ _. rewrite Hl in Hs. injection Hs as -> ->.
    assert (Hin : e ∈ edges b) by (by eapply list_elem_of_lookup_2).
    split; [by apply Hedges|].
    intros [Hsimple _]. by apply Hsimple.
  - set (k := l - length (edges b)).
    assert (Hk : l = length (edges b) + 2 * (k / 2) + k mod 2).
    { pose proof (Nat.div_mod_eq k 2). lia. }
    assert (Hi : k / 2 < length (faces b)).
    { apply Nat.Div0.div_lt_upper_bound. lia. }
    destruct (lookup_lt_is_Some_2 _ _ Hi) as [fv Hfv].
    destruct (Hb (k / 2) fv (k mod 2) Hi Hfv) as (a & c & Ha & Hc & Hrow).
    { apply Nat.mod_upper_bound. lia. }
    rewrite <- Hk in Hrow. unfold link_row in Hrow.
    injection Hrow as Hrow _ _. rewrite Hl in Hrow. injection Hrow as -> ->.
    assert (Hin : fv ∈ faces b) by (by eapply list_elem_of_lookup_2).
    split.
    + split; eapply Hfaces; try exact Hin; by eapply list_elem_of_lookup_2.
    + intros [_ Hsimple] Heq.
      specialize (Hsimple fv Hin).
      assert (H1 : (index <$> fv) !! (k mod 2) = Some (index a)).
      { by rewrite list_lookup_fmap, Ha. }
      assert (H2 : (index <$> fv) !! S (k mod 2) = Some (index a)).
      { by rewrite list_lookup_fmap, Hc, Heq. }
      pose proof (NoDup_lookup _ _ _ _ Hsimple H1 H2). lia.
Qed.

Lemma link_ends_are_vertices_witness :
  (2 < vertex_num (tri_sim 2) /\ 0 < vertex_num (tri_sim 2)) /\
  (mesh_simple tri_bm -> 2 <> 0).
Proof.
  apply (link_ends_are_vertices (tri_phy 2) 2 (tri_sim 2) 2 2 0).
  - reflexivity.
  - split.
    + intros e He. simpl.
      repeat (apply elem_of_cons in He as [->|He]; [simpl; lia|]).
      by apply elem_of_nil in He.
    + intros fv bv Hfv Hbv. simpl in *.
      apply list_elem_of_singleton in Hfv. subst fv.
      repeat (apply elem_of_cons in Hbv as [->|Hbv]; [simpl; lia|]).
      by apply elem_of_nil in Hbv.
  - reflexivity.
Defined.

(** ** What the frames keep *)

Section FramesKeep.
Context {F : Type} `{Num F} `{Elementary F}.

Lemma frames_keep_refl (s : Sim F) : frames_keep s s.
Proof. by repeat split. Qed.

Lemma frames_keep_trans (s1 s2 s3 : Sim F) :
  frames_keep s1 s2 -> frames_keep s2 s3 -> frames_keep s1 s3.
Proof.
  intros (A & B & C & D) (A' & B' & C' & D'). repeat split; congruence.
Qed.

Lemma kernel_frame_keeps (s s' : Sim F) :
  kernel_frame s s' -> frames_keep s s'.
Proof.
  intros (A & B & C & D). repeat split; try done.
  unfold fixed_part.
  change (static (set_coll_origin vzero s'))
    with (set_coll_origin vzero (static s')).
  by rewrite A.
Qed.

Lemma run_substeps_keeps location (s : Sim F) :
  frames_keep s (run_substeps location s).
Proof.
  unfold run_substeps.
  apply (for_range_inv (frames_keep s)); [|apply frames_keep_refl].
  intros step s1 _ Hk. eapply frames_keep_trans; [exact Hk|].
  eapply frames_keep_trans; [|apply kernel_frame_keeps, substep_frame].
  by repeat split.
Qed.

Lemma after_frames_keeps location k (s : Sim F) :
  frames_keep s (after_frames location k s).
Proof.
  unfold after_frames.
  apply (for_range_inv (frames_keep s)); [|apply frames_keep_refl].
  intros frame s1 _ Hk. eapply frames_keep_trans; [exact Hk|].
  apply run_substeps_keeps.
Qed.
End FramesKeep.

(** ** X7: what the simulation never changes *)

(** X7.  Whatever the collider does and however many frames run, the frames
    leave the inverse masses, the link table with its rest lengths and
    stiffnesses, the attachment data, the time step and all other settings
    as the constructor left them; only [x], [p], [v] and the collider origin
    change, and the three fields keep their length. *)
Theorem frames_change_only_the_state {F : Type} `{Num F} `{Elementary F}
  (location : nat -> nat -> vec3 F) (frames : nat) (s : Sim F) :
  let s' := after_frames location frames s in
  w s' = w s /\
  link s' = link s /\ link_len s' = link_len s /\ link_k s' = link_k s /\
  attach s' = attach s /\ attach_pos s' = attach_pos s /\
  tether_len s' = tether_len s /\
  dt s' = dt s /\ drag_damping s' = drag_damping s /\
  solver_num s' = solver_num s /\ substep_num s' = substep_num s /\
  vertex_num s' = vertex_num s /\ link_num s' = link_num s /\
  enable_LRA s' = enable_LRA s /\ device s' = device s /\
  length (x s') = length (x s) /\
  length (p s') = length (p s) /\
  length (v s') = length (v s).
Proof.
  intros s'.
  destruct (after_frames_keeps location frames s) as (E & Lx & Lp & Lv).
  fold s' in E, Lx, Lp, Lv.
  repeat split; try done.
  - exact (f_equal w E).
  - exact (f_equal link E).
  - exact (f_equal link_len E).
  - exact (f_equal link_k E).
  - exact (f_equal attach E).
  - exact (f_equal attach_pos E).
  - exact (f_equal tether_len E).
  - exact (f_equal dt E).
  - exact (f_equal drag_damping E).
  - exact (f_equal solver_num E).
  - exact (f_equal substep_num E).
  - exact (f_equal vertex_num E).
  - exact (f_equal link_num E).
  - exact (f_equal enable_LRA E).
  - exact (f_equal device E).
Qed.

(** ** X8: what the generator yields *)

(** X8.  The generator yields exactly [frame_num] mesh updates, and every one
    of them carries as many positions as the field [x] holds at the start,
    so on a state with [vertex_num] positions the reshape to
    [(vertex_num, 3)] always fits. *)
Theorem generator_yields_frame_num_updates {F : Type} `{Num F}
  `{Elementary F} (location : nat -> nat -> vec3 F) (s : Sim F) :
  length (fst (animate location s)) = frame_num s /\
  Forall (fun ev => length (event_positions ev) = length (x s))
    (fst (animate location s)).
Proof.
  destruct (main_loop_frames location (frame_num s) 0 s) as [E _].
  unfold animate. rewrite E. split.
  - by rewrite length_fmap, length_seq.
  - apply Forall_fmap, Forall_forall. intros k _.
    unfold compose, event_positions.
    by destruct (after_frames_keeps (fun j => location (0 + j)) k s)
      as (_ & Lx & _).
Qed.

(** ** X9: the stiffness compensation of the link stage *)

Section RealStiffness.
Local Open Scope R_scope.

Lemma Rpower_below_one (a y : R) : 0 < a < 1 -> 0 < y -> 0 < Rpower a y < 1.
Proof.
  intros [Ha0 Ha1] Hy. unfold Rpower. split; [apply exp_pos|].
  rewrite <- exp_0. apply exp_increasing.
  assert (ln a < 0) by (rewrite <- ln_1; by apply ln_increasing).
  nra.
Qed.

Lemma link_kp_exponent (n : nat) :
  (1 / IZR (Z.of_nat n + 1)) * INR (S n) = 1.
Proof.
  rewrite INR_IZR_INZ.
  replace (Z.of_nat (S n)) with (Z.of_nat n + 1)%Z by lia.
  field. apply not_0_IZR. lia.
Qed.
End RealStiffness.

(** X9.  For a stiffness [k] strictly between 0 and 1 the factor [kp] of
    solver iteration [n] lies strictly between 0 and 1, and compensates for
    the iteration count: [n + 1] corrections by [kp] leave the same residual
    as one correction by [k], that is [(1 - kp) ^ (n + 1) = 1 - k].  In the
    first iteration [kp = k]. *)
Theorem link_kp_compensates_iterations (k : R) (n : nat) :
  (0 < k < 1)%R ->
  (0 < link_kp k n < 1)%R /\
  ((1 - link_kp k n) ^ S n = 1 - k)%R /\
  link_kp k 0 = k.
Proof.
  intros [Hk0 Hk1].
  assert (Hy : (0 < 1 / IZR (Z.of_nat n + 1))%R).
  { apply Rdiv_lt_0_compat; [lra|]. apply IZR_lt. lia. }
  pose proof (Rpower_below_one (1 - k) (1 / IZR (Z.of_nat n + 1))%R) as Hp.
  assert (E : link_kp k n
              = (1 - Rpower (1 - k) (1 / IZR (Z.of_nat n + 1)))%R)
    by reflexivity.
  split; [rewrite E; lra|]. split; [|apply link_kp_first; lra].
  rewrite E.
  replace (1 - (1 - Rpower (1 - k) (1 / IZR (Z.of_nat n + 1))))%R
    with (Rpower (1 - k) (1 / IZR (Z.of_nat n + 1))) by ring.
  rewrite <- Rpower_pow by (apply exp_pos).
  rewrite Rpower_mult, link_kp_exponent. apply Rpower_1. lra.
Qed.

Lemma link_kp_compensates_iterations_witness :
  (0 < link_kp k_stretch 3 < 1)%R /\
  ((1 - link_kp k_stretch 3) ^ 4 = 1 - k_stretch)%R /\
  link_kp k_stretch 0 = k_stretch.
Proof.
  apply (link_kp_compensates_iterations k_stretch 3).
  unfold k_stretch. simpl. lra.
Defined.

(** ** X10: a configuration that satisfies the constraints *)

Section RealRest.
Local Open Scope R_scope.

Lemma vadd_nothing (a : vec3 R) : vadd a (Vec3 0 0 0) = a.
Proof. destruct a. unfold vadd. simpl. f_equal; ring. Qed.

Lemma set_p_same (s : Sim R) : set_p (p s) s = s.
Proof. by destruct s. Qed.

Lemma p_add_nothing (s : Sim R) i : p_add i (Vec3 0 0 0) s = s.
Proof.
  unfold p_add. rewrite vadd_nothing. unfold vget.
  destruct (p s !! i) as [c|] eqn:E; simpl.
  - rewrite list_insert_id by done. apply set_p_same.
  - rewrite list_insert_ge by (by apply lookup_ge_None). apply set_p_same.
Qed.

Lemma link_dp_at_rest (w0 kp L : R) (p_01 : vec3 R) :
  norm p_01 = L ->
  vscale kp (link_dp0 w0 p_01 L) = Vec3 0 0 0 /\
  vscale kp (link_dp1 w0 p_01 L) = Vec3 0 0 0.
Proof.
  intros <-. unfold link_dp0, link_dp1, normalized, vscale. simpl.
  split; f_equal; unfold Rdiv; ring.
Qed.

Lemma link_one_at_rest n l (s : Sim R) :
  norm (vsub (vget (p s) (fst (default (0, 0)%nat (link s !! l))))
             (vget (p s) (snd (default (0, 0)%nat (link s !! l)))))
  = sget (link_len s) l ->
  link_one n l s = s.
Proof.
  intros Hn. unfold link_one. cbv zeta.
  destruct (link_dp_at_rest
              (sget (w s) (fst (default (0, 0)%nat (link s !! l))))
              (link_kp (sget (link_k s) l) n) _ _ Hn) as [-> _].
  rewrite p_add_nothing.
  assert (E : (if (sget (w s) (fst (default (0, 0)%nat (link s !! l)))
                   >? eps)%num then s else s) = s).
  { by destruct (sget (w s) (fst (default (0, 0)%nat (link s !! l)))
                 >? eps)%num. }
  rewrite E.
  destruct (link_dp_at_rest
              (sget (w s) (snd (default (0, 0)%nat (link s !! l))))
              (link_kp (sget (link_k s) l) n) _ _ Hn) as [_ ->].
  rewrite p_add_nothing.
  by destruct (sget (w s) (snd (default (0, 0)%nat (link s !! l))) >? eps)%num.
Qed.

Lemma tether_pair_slack vi att (s : Sim R) :
  0 < tget (tether_len s) vi att ->
  norm (vsub (vget (p s) vi) (vget (attach_pos s) att))
    - tget (tether_len s) vi att
  <= tether_give * tget (tether_len s) vi att ->
  tether_pair vi att s = s.
Proof.
  intros Hpos Hle. unfold tether_pair. cbv zeta.
  destruct (sget (w s) vi >? eps)%num; [|done].
  set (d := norm (vsub (vget (p s) vi) (vget (attach_pos s) att))) in *.
  set (tl := tget (tether_len s) vi att) in *.
  change ((d - tl) / tl >? tether_give)%num
    with (Rgtb ((d - tl) / tl) tether_give).
  rewrite (proj2 (Rgtb_false _ _)); [done|].
  apply (Rmult_le_reg_r tl); [done|].
  replace ((d - tl) / tl * tl) with (d - tl) by (field; lra). done.
Qed.

Lemma collide_vertex_outside vi (s : Sim R) :
  coll_r <= norm (vsub (vget (p s) vi) (coll_origin s)) ->
  collide_vertex vi s = s.
Proof.
  intros Hge. unfold collide_vertex. cbv zeta.
  destruct (sget (w s) vi >? eps)%num; [|done].
  change (norm (vsub (vget (p s) vi) (coll_origin s)) - coll_r <? of_int 0)%num
    with (Rltb (norm (vsub (vget (p s) vi) (coll_origin s)) - coll_r) 0).
  rewrite (proj2 (Rltb_false _ _)); [done|]. lra.
Qed.

Lemma for_range_fixed {S : Type} n (body : nat -> S -> S) (s : S) :
  (forall i, (i < n)%nat -> body i s = s) -> for_range n body s = s.
Proof.
  intros Hb. apply (for_range_inv (fun s' => s' = s)); [|done].
  intros i s' Hi ->. by apply Hb.
Qed.
End RealRest.

(** X10.  In real arithmetic, one pass of the solver loop does nothing to a
    state whose predicted positions already satisfy every constraint: all
    links at their rest length, that length being positive, every vertex at
    distance at least [coll_r] from the collider origin and, with long-range
    attachment on, every tether of positive rest length and within the
    allowed stretch.  The state is returned as it is. *)
Theorem satisfied_constraints_are_kept (s : Sim R) (n : nat) :
  constraints_hold s -> solver_iteration n s = s.
Proof.
  intros (Hl & Hc & Ht). unfold solver_iteration. cbv zeta.
  assert (E1 : (if enable_LRA s then tether_stage s else s) = s).
  { destruct (enable_LRA s) eqn:EL; [|done].
    unfold tether_stage. apply for_range_fixed. intros vi Hvi.
    apply for_range_fixed. intros att Hatt.
    destruct (Ht eq_refl vi att Hvi Hatt) as [Hpos Hle].
    by apply tether_pair_slack. }
  rewrite E1.
  assert (E2 : link_stage n s = s).
  { unfold link_stage. apply for_range_fixed. intros l Hlt.
    by apply link_one_at_rest, (Hl l Hlt). }
  rewrite E2.
  unfold collision_stage. apply for_range_fixed. intros vi Hvi.
  by apply collide_vertex_outside, Hc.
Qed.

Lemma norm_along_x (a b : R) :
  (b <= a)%R -> norm (vsub (Vec3 a 0 0) (Vec3 b 0 0))%R = (a - b)%R.
Proof.
  intros Hle. unfold norm, vsub. simpl.
  replace ((a - b) * (a - b) + (0 - 0) * (0 - 0) + (0 - 0) * (0 - 0))%R
    with ((a - b) * (a - b))%R by ring.
  apply sqrt_square. lra.
Qed.

Lemma satisfied_constraints_are_kept_witness :
  solver_iteration 0 (set_p [Vec3 3 0 0; Vec3 2 0 0]%R pair_sim)
  = set_p [Vec3 3 0 0; Vec3 2 0 0]%R pair_sim.
Proof.
  apply (satisfied_constraints_are_kept
           (set_p [Vec3 3 0 0; Vec3 2 0 0]%R pair_sim) 0).
  split; [|split].
  - intros l Hl. change (l < 1) in Hl.
    assert (l = 0) as -> by lia.
    change (0 < 1 /\ norm (vsub (Vec3 3 0 0) (Vec3 2 0 0)) = 1)%R.
    rewrite norm_along_x; lra.
  - intros vi Hvi. change (vi < 2) in Hvi. rewrite coll_r_R.
    destruct vi as [|[|vi]]; [| |lia].
    + change (101 / 100 <= norm (vsub (Vec3 3 0 0) (Vec3 0 0 0)))%R.
      rewrite norm_along_x; lra.
    + change (101 / 100 <= norm (vsub (Vec3 2 0 0) (Vec3 0 0 0)))%R.
      rewrite norm_along_x; lra.
  - intros [=].
Defined.

(** ** X11: what one link correction does to the length error *)

Section RealLinkError.
Local Open Scope R_scope.

(** The difference of the two corrected ends is a multiple of the old
    difference. *)
Lemma link_pair_difference (a b : vec3 R) (N kp w0 w1 L : R) :
  N <> 0 ->
  vsub
    (vadd a (vscale kp (vscale (- (5 / 10) * w0 * (N - L))
                          (vscale (1 / N) (vsub a b)))))
    (vadd b (vscale kp (vscale (5 / 10 * w1 * (N - L))
                          (vscale (1 / N) (vsub a b)))))
  = vscale (1 - kp * (w0 + w1) / 2 * (N - L) / N) (vsub a b).
Proof.
  intros HN. destruct a, b. unfold vsub, vadd, vscale. simpl.
  f_equal; field; exact HN.
Qed.
End RealLinkError.

(** X11.  In real arithmetic, for a link between two different vertices at
    different places, both of inverse mass above [eps]: one application of
    the link correction multiplies the length error [|p0 - p1| - length] by
    [1 - kp * (w0 + w1) / 2], provided [kp * (w0 + w1) / 2] lies between 0
    and 1 and the rest length is not negative. *)
Theorem link_correction_scales_the_error (s : Sim R) (n l i0 i1 : nat)
  (a b : vec3 R) (w0 w1 : R) :
  link s !! l = Some (i0, i1) -> i0 <> i1 ->
  p s !! i0 = Some a -> p s !! i1 = Some b ->
  w s !! i0 = Some w0 -> w s !! i1 = Some w1 ->
  (w0 > eps)%R -> (w1 > eps)%R -> a <> b ->
  let kp := link_kp (sget (link_k s) l) n in
  let length := sget (link_len s) l in
  (0 <= length)%R -> (0 <= kp * (w0 + w1) / 2 <= 1)%R ->
  exists a' b',
    p (link_one n l s) !! i0 = Some a' /\
    p (link_one n l s) !! i1 = Some b' /\
    (norm (vsub a' b') - length
     = (1 - kp * (w0 + w1) / 2) * (norm (vsub a b) - length))%R.
Proof.
  intros Hl Hne Ha Hb Hw0 Hw1 G0 G1 Hab kp length HL Hq.
  destruct (link_one_both n l i0 i1 a b w0 w1 s Hl Hne Ha Hb Hw0 Hw1)
    as [E0 E1]; [by apply Rgtb_true..|].
  fold kp in E0, E1. fold length in E0, E1.
  eexists _, _. split; [exact E0|]. split; [exact E1|].
  pose proof (norm_vsub_pos a b Hab) as HN.
  unfold link_dp0, link_dp1, normalized.
  set (N := norm (vsub a b)) in *.
  change (of_ratio 5 10 : R) with (5 / 10)%R.
  change (of_int 1 : R) with 1%R.
  change (nsub N length) with (N - length)%R.
  change (nopp (5 / 10)%R) with (- (5 / 10))%R.
  change (nmul (nmul (- (5 / 10))%R w0) (N - length)%R)
    with (- (5 / 10) * w0 * (N - length))%R.
  change (nmul (nmul (5 / 10)%R w1) (N - length)%R)
    with (5 / 10 * w1 * (N - length))%R.
  change (ndiv 1%R N) with (1 / N)%R.
  rewrite link_pair_difference by lra.
  rewrite norm_vscale. fold N.
  set (q := (kp * (w0 + w1) / 2)%R) in *.
  assert (Ht : (1 - q * (N - length) / N = ((1 - q) * N + q * length) / N)%R).
  { field. lra. }
  assert (Hpos : (0 <= ((1 - q) * N + q * length) / N)%R).
  { apply Rmult_le_pos; [nra|]. left. by apply Rinv_0_lt_compat. }
  rewrite Ht, Rabs_pos_eq by exact Hpos.
  field. lra.
Qed.

Lemma link_correction_scales_the_error_witness :
  exists a' b',
    p (link_one 0 0 pair_sim) !! 0%nat = Some a' /\
    p (link_one 0 0 pair_sim) !! 1%nat = Some b' /\
    (norm (vsub a' b') - 1
     = (1 - link_kp k_stretch 0 * (1 + 1 / 2) / 2)
       * (norm (vsub (Vec3 2 0 0) (Vec3 0 0 0)) - 1))%R.
Proof.
  assert (Ek : link_kp (@k_stretch R _) 0 = (9 / 10)%R).
  { apply link_kp_first. unfold k_stretch. simpl. lra. }
  apply (link_correction_scales_the_error pair_sim 0 0 0 1
           (Vec3 2 0 0)%R (Vec3 0 0 0)%R 1%R (1 / 2)%R).
  - reflexivity.
  - lia.
  - reflexivity.
  - reflexivity.
  - reflexivity.
  - reflexivity.
  - rewrite eps_R. lra.
  - rewrite eps_R. lra.
  - intros [=]. lra.
  - change (0 <= 1)%R. lra.
  - change (0 <= link_kp k_stretch 0 * (1 + 1 / 2) / 2 <= 1)%R.
    rewrite Ek. lra.
Defined.

(** ** X12: the collision stage, run twice *)

(** X12.  In real arithmetic the sphere-collision stage is idempotent at
    every vertex that is not exactly at the collider origin while above
    [eps]: running the stage a second time leaves the predicted position
    where the first run put it. *)
Theorem collision_stage_twice (s : Sim R) (i : nat) (wi : R) (pv : vec3 R) :
  i < vertex_num s ->
  w s !! i = Some wi -> p s !! i = Some pv ->
  ((wi > eps)%R -> pv <> coll_origin s) ->
  p (collision_stage (collision_stage s)) !! i
  = p (collision_stage s) !! i.
Proof.
  intros Hi Hw Hp Hne.
  pose proof (collision_stage_frame s) as Hf.
  pose proof (collision_stage_at i wi pv s Hi Hw Hp) as E1.
  rewrite (collision_stage_at i wi (collided wi (coll_origin s) pv)
             (collision_stage s)).
  - rewrite E1, (frame_coll_origin _ _ Hf). f_equal.
    destruct (Rgt_dec wi eps) as [Hgt|Hle].
    + pose proof (norm_vsub_pos pv (coll_origin s) (Hne Hgt)) as Hpos.
      destruct (Rlt_le_dec (norm (vsub pv (coll_origin s))) coll_r)
        as [Hin|Hout].
      * destruct (collided_inside wi (coll_origin s) pv Hgt (conj Hpos Hin))
          as (_ & _ & E3).
        apply collided_outside. rewrite E3. lra.
      * rewrite (collided_outside wi (coll_origin s) pv Hout).
        by apply collided_outside.
    + unfold collided.
      change (wi >? eps)%num with (Rgtb wi eps).
      rewrite (proj2 (Rgtb_false _ _)) by lra. done.
  - by rewrite (frame_vertex_num _ _ Hf).
  - by rewrite (frame_w _ _ Hf).
  - exact E1.
Qed.

Lemma collision_stage_twice_witness :
  p (collision_stage (collision_stage
       (lone_vertex 1 (Vec3 (1 / 2) 0 0) (Vec3 0 0 0))%R)) !! 0%nat
  = p (collision_stage
         (lone_vertex 1 (Vec3 (1 / 2) 0 0) (Vec3 0 0 0))%R) !! 0%nat.
Proof.
  apply (collision_stage_twice
           (lone_vertex 1 (Vec3 (1 / 2) 0 0) (Vec3 0 0 0))%R 0 1%R
           (Vec3 (1 / 2) 0 0)%R).
  - simpl. lia.
  - reflexivity.
  - reflexivity.
  - intros _. simpl. intros [=]. lra.
Defined.

(** ** X13: what a stretched tether does *)

Section RealTether.
Local Open Scope R_scope.

Lemma tether_difference (pv a : vec3 R) (wi dd dist : R) :
  dist <> 0 ->
  vsub (vadd pv (vscale (5 / 10)
                   (vdiv (vscale (- (5 / 10) * wi * dd) (vsub pv a)) dist)))
       a
  = vscale (1 - wi * dd / (4 * dist)) (vsub pv a).
Proof.
  intros Hd. destruct pv, a. unfold vsub, vadd, vscale, vdiv. simpl.
  f_equal; field; exact Hd.
Qed.
End RealTether.

(** X13.  In real arithmetic, for a vertex of inverse mass [wi] with
    [eps < wi <= 1] whose distance [dist] to an attachment point exceeds the
    positive rest length [tl] of its tether by more than the fraction
    [tether_give]: the tether correction moves the predicted position
    straight towards the attachment point, to the distance
    [dist - wi / 4 * (dist - tl)], which is still more than the rest
    length and less than before. *)
Theorem stretched_tether_pulls_back (s : Sim R) (vi att : nat)
  (pv a : vec3 R) (wi : R) :
  p s !! vi = Some pv -> attach_pos s !! att = Some a ->
  w s !! vi = Some wi -> (eps < wi <= 1)%R ->
  let tl := tget (tether_len s) vi att in
  let dist := norm (vsub pv a) in
  (0 < tl)%R -> (dist - tl > tether_give * tl)%R ->
  exists q,
    p (tether_pair vi att s) !! vi = Some q /\
    q = vadd pv (vscale (- (wi * (dist - tl) / (4 * dist)))%R (vsub pv a)) /\
    (norm (vsub q a) = dist - wi / 4 * (dist - tl))%R /\
    (tl < norm (vsub q a) < dist)%R.
Proof.
  intros Hp Ha Hw [Hlo Hhi] tl dist Htl Hst.
  rewrite eps_R in Hlo.
  assert (Hg : @tether_give R _ = (2 / 10)%R) by reflexivity.
  rewrite Hg in Hst.
  assert (Hd : (0 < dist)%R) by nra.
  assert (L : vi < length (p s)) by (by eapply lookup_lt_Some).
  assert (E : tether_pair vi att s
              = p_add vi (vscale k_LRA
                  (tether_dp wi pv a (dist - tl)%R dist)) s).
  { unfold tether_pair. cbv zeta.
    rewrite (sget_lookup _ _ _ Hw), (vget_lookup _ _ _ Hp),
      (vget_lookup _ _ _ Ha).
    fold tl. fold dist.
    change (wi >? eps)%num with (Rgtb wi (1 / 1000)).
    rewrite (proj2 (Rgtb_true _ _)) by lra.
    change ((dist - tl) / tl >? tether_give)%num
      with (Rgtb ((dist - tl) / tl) (2 / 10)).
    rewrite (proj2 (Rgtb_true _ _)); [done|].
    apply Rlt_gt, (Rmult_lt_reg_r tl); [done|].
    replace ((dist - tl) / tl * tl)%R with (dist - tl)%R by (field; lra).
    lra. }
  assert (Eq : vadd pv (vscale k_LRA (tether_dp wi pv a (dist - tl)%R dist))
               = vadd pv (vscale (- (wi * (dist - tl) / (4 * dist)))%R
                            (vsub pv a))).
  { destruct pv, a. unfold vadd, vscale, tether_dp, vdiv, vsub, k_LRA.
    simpl. f_equal; field; lra. }
  assert (En : (norm (vsub (vadd pv (vscale k_LRA
                  (tether_dp wi pv a (dist - tl) dist))) a)
                = dist - wi / 4 * (dist - tl))%R).
  { unfold tether_dp.
    change (@k_LRA R _) with (5 / 10)%R.
    change (nmul (nmul (nopp (of_ratio 5 10)) wi) (dist - tl)%R)
      with (- (5 / 10) * wi * (dist - tl))%R.
    rewrite tether_difference by lra.
    rewrite norm_vscale. fold dist.
    assert (Ht : (1 - wi * (dist - tl) / (4 * dist)
                  = ((4 - wi) * dist + wi * tl) / (4 * dist))%R).
    { field. lra. }
    assert (Hpos : (0 <= ((4 - wi) * dist + wi * tl) / (4 * dist))%R).
    { apply Rmult_le_pos; [nra|]. left. apply Rinv_0_lt_compat. lra. }
    rewrite Ht, Rabs_pos_eq by exact Hpos.
    field. lra. }
  eexists. split; [|split; [|split]].
  - rewrite E, p_add_same by exact L.
    by rewrite (vget_lookup _ _ _ Hp).
  - exact Eq.
  - exact En.
  - rewrite En. nra.
Qed.

Lemma stretched_tether_pulls_back_witness :
  exists q,
    p (tether_pair 0 0
         (set_tether_len [[1%R]] (set_attach_pos [Vec3 0 0 0]%R
            (lone_vertex 1 (Vec3 2 0 0) (Vec3 9 0 0))%R))) !! 0%nat = Some q /\
    (norm (vsub q (Vec3 0 0 0))
     = norm (vsub (Vec3 2 0 0) (Vec3 0 0 0))
       - 1 / 4 * (norm (vsub (Vec3 2 0 0) (Vec3 0 0 0)) - 1))%R.
Proof.
  destruct (stretched_tether_pulls_back
              (set_tether_len [[1%R]] (set_attach_pos [Vec3 0 0 0]%R
                 (lone_vertex 1 (Vec3 2 0 0) (Vec3 9 0 0))%R)) 0 0
              (Vec3 2 0 0)%R (Vec3 0 0 0)%R 1%R) as (q & E & _ & En & _).
  - reflexivity.
  - reflexivity.
  - reflexivity.
  - rewrite eps_R. lra.
  - change (0 < 1)%R. lra.
  - change (norm (vsub (Vec3 2 0 0) (Vec3 0 0 0)) - 1 > 2 / 10 * 1)%R.
    rewrite norm_along_x; lra.
  - exists q. split; [exact E|exact En].
Defined.

(** ** X14: a vertex no constraint acts on *)

Section Untouched.
Context {F : Type} `{Num F} `{Elementary F}.
Local Open Scope num_scope.

(** A link moves its two ends only. *)
Lemma link_one_away i n l i0 i1 (s : Sim F) :
  link s !! l = Some (i0, i1) -> i <> i0 -> i <> i1 ->
  p (link_one n l s) !! i = p s !! i.
Proof.
  intros Hl Hn0 Hn1. unfold link_one. cbv zeta. rewrite Hl.
  simpl fst. simpl snd.
  destruct (sget (w s) i0 >? eps).
  - change (w (p_add _ _ s)) with (w s).
    change (link (p_add _ _ s)) with (link s). rewrite Hl. simpl snd.
    destruct (sget (w s) i1 >? eps).
    + by rewrite !p_add_other.
    + by rewrite p_add_other.
  - rewrite Hl. simpl snd.
    destruct (sget (w s) i1 >? eps); [by rewrite p_add_other|done].
Qed.

Lemma link_stage_away i n (s : Sim F) :
  link_num s <= length (link s) ->
  (forall l i0 i1, link s !! l = Some (i0, i1) -> i <> i0 /\ i <> i1) ->
  p (link_stage n s) !! i = p s !! i.
Proof.
  intros Hn Hfree. unfold link_stage.
  apply (for_range_skip (kernel_frame s) (fun s' => p s' !! i)).
  - intros j s' Hf.
    eapply kernel_frame_trans; [exact Hf|apply link_one_frame].
  - intros l s' Hl Hf.
    destruct (lookup_lt_is_Some_2 (link s) l) as [[i0 i1] E]; [lia|].
    destruct (Hfree l i0 i1 E) as [Hn0 Hn1].
    apply (link_one_away i n l i0 i1); [|done..].
    by rewrite (frame_link _ _ Hf).
  - apply kernel_frame_refl.
Qed.
End Untouched.

Section RealFreeFall.
Local Open Scope R_scope.

Lemma solver_iteration_free i n wi pv (s : Sim R) :
  (i < vertex_num s)%nat ->
  w s !! i = Some wi -> p s !! i = Some pv ->
  enable_LRA s = false ->
  (link_num s <= length (link s))%nat ->
  (forall l i0 i1, link s !! l = Some (i0, i1) -> i <> i0 /\ i <> i1) ->
  coll_r <= norm (vsub pv (coll_origin s)) ->
  p (solver_iteration n s) !! i = Some pv.
Proof.
  intros Hi Hw Hp HL Hn Hfree Hout. unfold solver_iteration. cbv zeta.
  rewrite HL.
  pose proof (link_stage_frame n s) as Hf.
  rewrite (collision_stage_at i wi pv).
  - by rewrite (frame_coll_origin _ _ Hf), collided_outside.
  - by rewrite (frame_vertex_num _ _ Hf).
  - by rewrite (frame_w _ _ Hf).
  - by rewrite link_stage_away.
Qed.

Lemma relaxed_free i k wi pv (s : Sim R) :
  (i < vertex_num s)%nat ->
  w s !! i = Some wi -> p (predict s) !! i = Some pv ->
  enable_LRA s = false ->
  (link_num s <= length (link s))%nat ->
  (forall l i0 i1, link s !! l = Some (i0, i1) -> i <> i0 /\ i <> i1) ->
  coll_r <= norm (vsub pv (coll_origin s)) ->
  p (relaxed k s) !! i = Some pv.
Proof.
  intros Hi Hw Hp HL Hn Hfree Hout. unfold relaxed.
  enough (Hinv : kernel_frame s (for_range k solver_iteration (predict s)) /\
                 p (for_range k solver_iteration (predict s)) !! i = Some pv)
    by apply Hinv.
  apply (for_range_inv (fun s' => kernel_frame s s' /\ p s' !! i = Some pv)).
  - intros n s' _ [Hf Hp']. split.
    + eapply kernel_frame_trans; [exact Hf|apply solver_iteration_frame].
    + apply (solver_iteration_free i n wi pv s').
      * by rewrite (frame_vertex_num _ _ Hf).
      * by rewrite (frame_w _ _ Hf).
      * exact Hp'.
      * by rewrite (frame_enable_LRA _ _ Hf).
      * by rewrite (frame_link_num _ _ Hf), (frame_link _ _ Hf).
      * by rewrite (frame_link _ _ Hf).
      * by rewrite (frame_coll_origin _ _ Hf).
  - split; [apply predict_frame|exact Hp].
Qed.

Lemma velocity_of_step (xi u : vec3 R) (d : R) :
  d <> 0 -> vdiv (vsub (vadd xi (vscale d u)) xi) d = u.
Proof.
  intros Hd. destruct xi, u. unfold vdiv, vsub, vadd, vscale. simpl.
  f_equal; field; exact Hd.
Qed.

End RealFreeFall.

(** X14.  In real arithmetic, with long-range attachment off, a vertex that
    is an end of no link and whose predicted position is at distance at
    least [coll_r] from the collider origin is integrated freely by a
    substep: its new velocity is [(v + dt * g * w) * exp(-dt * drag)] and
    its new position is [x + dt * new_velocity], however many solver
    iterations run and whatever happens to the other vertices
    ([dt] not zero). *)
Theorem unlinked_vertex_moves_freely (s : Sim R) (i : nat) (wi : R)
  (xi vi : vec3 R) :
  shaped s ->
  w s !! i = Some wi -> x s !! i = Some xi -> v s !! i = Some vi ->
  enable_LRA s = false ->
  link_num s <= length (link s) ->
  (forall l i0 i1, link s !! l = Some (i0, i1) -> i <> i0 /\ i <> i1) ->
  (coll_r <= norm (vsub (predicted_p s wi xi vi) (coll_origin s)))%R ->
  dt s <> 0%R ->
  v (substep s) !! i = Some (predicted_v s wi vi) /\
  x (substep s) !! i = Some (vadd xi (vscale (dt s) (predicted_v s wi vi))).
Proof.
  intros Hsh Hw Hx Hv HL Hn Hfree Hout Hdt.
  rewrite substep_is_cpu, substep_cpu_relaxed.
  pose proof (relaxed_frame (solver_num s) s) as Hf.
  destruct (predict_at i wi xi vi s Hsh Hw Hx Hv) as [_ Hp].
  assert (Hi : i < vertex_num s).
  { destruct Hsh as (Lx & _). rewrite <- Lx. by eapply lookup_lt_Some. }
  destruct (finalize_at i xi (predicted_p s wi xi vi)
              (relaxed (solver_num s) s)) as [Ev Ex].
  - by apply (frame_shaped s).
  - by rewrite relaxed_x.
  - by apply (relaxed_free i (solver_num s) wi).
  - rewrite Ev, Ex, (frame_dt _ _ Hf). split; [|done].
    f_equal. unfold predicted_p. by apply velocity_of_step.
Qed.

Lemma unlinked_vertex_moves_freely_witness :
  v (substep (lone_vertex 1 (Vec3 5 0 0) (Vec3 0 0 0))%R) !! 0%nat
  = Some (predicted_v (lone_vertex 1 (Vec3 5 0 0) (Vec3 0 0 0))%R 1%R vzero) /\
  x (substep (lone_vertex 1 (Vec3 5 0 0) (Vec3 0 0 0))%R) !! 0%nat
  = Some (vadd (Vec3 5 0 0)%R
            (vscale 1%R
               (predicted_v (lone_vertex 1 (Vec3 5 0 0) (Vec3 0 0 0))%R
                  1%R vzero))).
Proof.
  refine (unlinked_vertex_moves_freely
            (lone_vertex 1 (Vec3 5 0 0) (Vec3 0 0 0))%R 0 1%R
            (Vec3 5 0 0)%R vzero _ _ _ _ _ _ _ _ _).
  - by repeat split.
  - reflexivity.
  - reflexivity.
  - reflexivity.
  - reflexivity.
  - simpl. lia.
  - intros l i0 i1 E. by destruct l.
  - rewrite coll_r_R.
    eapply Rle_trans; [|apply norm_ge_x].
    unfold predicted_p, predicted_v, vsub, vadd, vscale, vscale_r, gravity,
      vzero.
    simpl.
    replace (5 + 1 * ((0 + 1 * 0 * 1) * exp (- 1 * 0)) - 0)%R with 5%R by ring.
    rewrite Rabs_pos_eq; lra.
  - simpl. lra.
Defined.

(** ** X15: the tether of an attachment vertex to itself *)

Section Binary32Tether.
Local Open Scope num_scope.

Lemma calc_dist_diag (a : vec3 f32) :
  finite3 a = true -> calc_dist a a = S754_zero false.
Proof.
  unfold finite3. intros Hf.
  apply andb_prop in Hf as [Hf Hz]. apply andb_prop in Hf as [Hx Hy].
  unfold calc_dist. cbv zeta. by rewrite !f32_sub_diag.
Qed.
End Binary32Tether.

(** X15.  In binary32, with long-range attachment on, the constructor
    tethers every attachment vertex to its own attachment point with rest
    length [+0]: the attachment position recorded for it is its own initial
    position, and the distance of a finite point to itself is [+0]. *)
Theorem attachment_vertex_tethered_to_itself (sdf_phy : SdfPhy f32)
  (frame_end : nat) (s : Sim f32) (a idx : nat) (bv : BMVert f32) :
  TiClothSimulation_init sdf_phy frame_end = Some s ->
  phy_enable_LRA sdf_phy = true ->
  attach s !! a = Some idx ->
  verts (bm_of (cloth_obj sdf_phy)) !! idx = Some bv ->
  finite3 (co bv) = true ->
  attach_pos s !! a = Some (co bv) /\
  x s !! idx = Some (co bv) /\
  tget (tether_len s) idx a = S754_zero false.
Proof.
  intros E HL Ha Hv Hf.
  destruct (init_attachments_and_tethers sdf_phy frame_end s E HL)
    as (_ & _ & _ & Hpos & Hlen).
  destruct (Hpos a idx Ha) as (bv' & Hv' & Hp).
  rewrite Hv in Hv'. injection Hv' as <-.
  destruct (Hlen idx a bv Hv) as [Hx Ht].
  { by eapply lookup_lt_Some. }
  split; [exact Hp|]. split; [exact Hx|].
  rewrite Ht, (vget_lookup _ _ _ Hp). by apply calc_dist_diag.
Qed.

Lemma attachment_vertex_tethered_to_itself_witness :
  exists s,
    TiClothSimulation_init tethered_phy 1 = Some s /\
    attach_pos s !! 0%nat = Some (Vec3 (of_int 1) (of_int 0) (of_int 0)) /\
    x s !! 0%nat = Some (Vec3 (of_int 1) (of_int 0) (of_int 0)) /\
    tget (tether_len s) 0 0 = S754_zero false.
Proof.
  destruct (TiClothSimulation_init tethered_phy 1) as [s|] eqn:E;
    [|vm_compute in E; discriminate].
  exists s. split; [reflexivity|].
  apply (attachment_vertex_tethered_to_itself tethered_phy 1 s 0 0
           {| index := 0; co := Vec3 (of_int 1) (of_int 0) (of_int 0) |}).
  - exact E.
  - reflexivity.
  - vm_compute in E. injection E as <-. reflexivity.
  - reflexivity.
  - reflexivity.
Defined.

(** ** X16: a tether of rest length zero *)

Section Binary32ZeroTether.
Local Open Scope num_scope.

(** The stretch test against a rest length [+0], at a positive finite
    distance: the overshoot is the distance itself and the quotient is
    [+infinity]. *)
Lemma zero_tether_test (dist : f32) :
  is_finite dist = true -> (dist >? of_int 0) = true ->
  dist - S754_zero false = dist /\
  ((dist - S754_zero false) / S754_zero false >? tether_give) = true.
Proof.
  by destruct dist as [[]|[]| |[] m e].
Qed.
End Binary32ZeroTether.

(** X16.  In binary32, a tether of rest length [+0] is never slack: for a
    vertex above [eps] at a positive finite distance [dist] from the
    attachment point, the stretch test divides by zero, passes, and the
    correction is applied with the whole distance as the overshoot,
    whatever [tether_give] is meant to allow. *)
Theorem zero_length_tether_always_pulls (s : Sim f32) (vi att : nat)
  (pv a : vec3 f32) (wi : f32) :
  w s !! vi = Some wi -> (wi >? eps)%num = true ->
  p s !! vi = Some pv -> attach_pos s !! att = Some a ->
  tget (tether_len s) vi att = S754_zero false ->
  let dist := norm (vsub pv a) in
  is_finite dist = true -> (dist >? of_int 0)%num = true ->
  tether_pair vi att s
  = p_add vi (vscale k_LRA (tether_dp wi pv a dist dist)) s.
Proof.
  intros Hw Hg Hp Ha Ht dist Hfin Hpos.
  destruct (zero_tether_test dist Hfin Hpos) as [E1 E2].
  unfold tether_pair. cbv zeta.
  rewrite (sget_lookup _ _ _ Hw), Hg, (vget_lookup _ _ _ Hp),
    (vget_lookup _ _ _ Ha), Ht.
  fold dist. by rewrite E2, E1.
Qed.

Lemma zero_length_tether_always_pulls_witness :
  tether_pair 0 0
    (set_p [Vec3 (of_int 3) (of_int 0) (of_int 0)]
       (tethered (S754_zero false)))
  = p_add 0
      (vscale k_LRA
         (tether_dp (of_int 1) (Vec3 (of_int 3) (of_int 0) (of_int 0))
            (Vec3 (of_int 1) (of_int 0) (of_int 0))
            (norm (vsub (Vec3 (of_int 3) (of_int 0) (of_int 0))
                     (Vec3 (of_int 1) (of_int 0) (of_int 0))))
            (norm (vsub (Vec3 (of_int 3) (of_int 0) (of_int 0))
                     (Vec3 (of_int 1) (of_int 0) (of_int 0))))))
      (set_p [Vec3 (of_int 3) (of_int 0) (of_int 0)]
         (tethered (S754_zero false))).
Proof.
  apply (zero_length_tether_always_pulls
           (set_p [Vec3 (of_int 3) (of_int 0) (of_int 0)]
              (tethered (S754_zero false))) 0 0
           (Vec3 (of_int 3) (of_int 0) (of_int 0))
           (Vec3 (of_int 1) (of_int 0) (of_int 0)) (of_int 1));
    vm_compute; reflexivity.
Defined.

(** ** X17 and X18: NaN in a position *)

Section Binary32NaN.
Context {E : Elementary f32}.
Local Open Scope num_scope.

Lemma f32_nan_add (a : f32) : S754_nan + a = S754_nan.
Proof. reflexivity. Qed.

Lemma f32_nan_sub (a : f32) : S754_nan - a = S754_nan.
Proof. reflexivity. Qed.

Lemma f32_sub_nan (a : f32) : a - S754_nan = S754_nan.
Proof. by destruct a. Qed.

Lemma f32_nan_mul (a : f32) : S754_nan * a = S754_nan.
Proof. reflexivity. Qed.

Lemma f32_nan_div (a : f32) : S754_nan / a = S754_nan.
Proof. reflexivity. Qed.

Lemma nan3_vadd (d : vec3 f32) : vadd nan3 d = nan3.
Proof. reflexivity. Qed.

Lemma nan3_vsub (b : vec3 f32) : vsub nan3 b = nan3.
Proof. reflexivity. Qed.

Lemma vsub_nan3 (b : vec3 f32) : vsub b nan3 = nan3.
Proof. unfold vsub, nan3. simpl vx. simpl vy. simpl vz.
       by rewrite !f32_sub_nan. Qed.

Lemma nan3_vdiv (d : f32) : vdiv (vsub nan3 (vzero : vec3 f32)) d = nan3.
Proof. reflexivity. Qed.

Lemma nan_vscale (u : vec3 f32) : vscale S754_nan u = nan3.
Proof. reflexivity. Qed.

(** Both corrections of a link one of whose ends is at NaN are NaN. *)
Lemma link_dp_nan (w0 kp length : f32) :
  vscale kp (link_dp0 w0 nan3 length) = nan3 /\
  vscale kp (link_dp1 w0 nan3 length) = nan3.
Proof.
  unfold link_dp0, link_dp1.
  change (normalized nan3) with nan3.
  by rewrite !vscale_nan3.
Qed.

(** No addition to a predicted position takes a NaN away. *)
Lemma p_add_keeps_nan i j d (s : Sim f32) :
  p s !! i = Some nan3 -> p (p_add j d s) !! i = Some nan3.
Proof.
  intros Hp. destruct (decide (i = j)) as [<-|Hne].
  - rewrite p_add_same by (by eapply lookup_lt_Some).
    by rewrite (vget_lookup _ _ _ Hp).
  - by rewrite p_add_other.
Qed.

Lemma tether_pair_keeps_nan i vi att (s : Sim f32) :
  p s !! i = Some nan3 -> p (tether_pair vi att s) !! i = Some nan3.
Proof.
  intros Hp. unfold tether_pair. cbv zeta.
  destruct (sget (w s) vi >? eps); [|done].
  destruct (_ >? tether_give); [|done].
  by apply p_add_keeps_nan.
Qed.

Lemma link_one_keeps_nan i n l (s : Sim f32) :
  p s !! i = Some nan3 -> p (link_one n l s) !! i = Some nan3.
Proof.
  intros Hp. unfold link_one. cbv zeta.
  destruct (sget (w s) (fst (default (0, 0) (link s !! l))) >? eps).
  - destruct (sget (w (p_add _ _ s)) _ >? eps).
    + by apply p_add_keeps_nan, p_add_keeps_nan.
    + by apply p_add_keeps_nan.
  - destruct (sget (w s) _ >? eps); [by apply p_add_keeps_nan|done].
Qed.

Lemma collide_vertex_keeps_nan i vi (s : Sim f32) :
  p s !! i = Some nan3 -> p (collide_vertex vi s) !! i = Some nan3.
Proof.
  intros Hp. unfold collide_vertex. cbv zeta.
  destruct (sget (w s) vi >? eps); [|done].
  destruct (_ <? of_int 0); [|done].
  by apply p_add_keeps_nan.
Qed.

Lemma loop_keeps_nan i n (body : nat -> Sim f32 -> Sim f32) (s : Sim f32) :
  (forall j s, p s !! i = Some nan3 -> p (body j s) !! i = Some nan3) ->
  p s !! i = Some nan3 -> p (for_range n body s) !! i = Some nan3.
Proof.
  intros Hb. apply (for_range_inv (fun s' => p s' !! i = Some nan3)).
  intros j s' _. apply Hb.
Qed.

Lemma tether_stage_keeps_nan i (s : Sim f32) :
  p s !! i = Some nan3 -> p (tether_stage s) !! i = Some nan3.
Proof.
  apply loop_keeps_nan. intros vi s'. apply loop_keeps_nan.
  intros att s''. apply tether_pair_keeps_nan.
Qed.

Lemma link_stage_keeps_nan i n (s : Sim f32) :
  p s !! i = Some nan3 -> p (link_stage n s) !! i = Some nan3.
Proof. apply loop_keeps_nan. intros l s'. apply link_one_keeps_nan. Qed.

Lemma collision_stage_keeps_nan i (s : Sim f32) :
  p s !! i = Some nan3 -> p (collision_stage s) !! i = Some nan3.
Proof. apply loop_keeps_nan. intros l s'. apply collide_vertex_keeps_nan. Qed.

Lemma solver_iteration_keeps_nan i n (s : Sim f32) :
  p s !! i = Some nan3 -> p (solver_iteration n s) !! i = Some nan3.
Proof.
  intros Hp. unfold solver_iteration. cbv zeta.
  apply collision_stage_keeps_nan, link_stage_keeps_nan.
  destruct (enable_LRA s); [by apply tether_stage_keeps_nan|done].
Qed.

(** The predict stage starts a vertex whose position is NaN from NaN. *)
Lemma predict_nan i (s : Sim f32) :
  shaped s -> x s !! i = Some nan3 -> p (predict s) !! i = Some nan3.
Proof.
  intros (Lx & Lp & Lv) Hx.
  assert (Hi : i < vertex_num s).
  { rewrite <- Lx. by eapply lookup_lt_Some. }
  unfold predict.
  apply (for_range_at (fun s' => kernel_frame s s' /\ x s' = x s)
           (fun s' => p s' !! i) (fun _ => Some nan3) i).
  - intros j s' [Hf Hx']. split; [|by rewrite predict_vertex_x].
    eapply kernel_frame_trans; [exact Hf|apply predict_vertex_frame].
  - intros j s' Hne _. by destruct (predict_vertex_other i j s') as [_ ->].
  - intros s' [Hf Hx'].
    destruct Hf as (_ & _ & Hlp & Hlv).
    destruct (predict_vertex_same i s') as [_ ->]; [lia..|].
    by rewrite Hx', (vget_lookup _ _ _ Hx).
  - split; [apply kernel_frame_refl|done].
  - exact Hi.
Qed.

Lemma relaxed_keeps_nan i k (s : Sim f32) :
  shaped s -> x s !! i = Some nan3 -> p (relaxed k s) !! i = Some nan3.
Proof.
  intros Hsh Hx. unfold relaxed. apply loop_keeps_nan.
  - intros n s'. apply solver_iteration_keeps_nan.
  - by apply predict_nan.
Qed.

(** What the finalize stage makes of a predicted position at NaN. *)
Lemma finalize_nan i (s : Sim f32) :
  shaped s -> p s !! i = Some nan3 ->
  x (finalize s) !! i = Some nan3 /\ v (finalize s) !! i = Some nan3.
Proof.
  intros Hsh Hp.
  destruct (lookup_lt_is_Some_2 (x s) i) as [xi Hx].
  { destruct Hsh as (-> & <- & _). by eapply lookup_lt_Some. }
  destruct (finalize_at i xi nan3 s Hsh Hx Hp) as [-> ->]. done.
Qed.

Lemma substep_nan i (s : Sim f32) :
  shaped s -> x s !! i = Some nan3 ->
  x (substep s) !! i = Some nan3 /\ v (substep s) !! i = Some nan3.
Proof.
  intros Hsh Hx. rewrite substep_is_cpu, substep_cpu_relaxed.
  apply finalize_nan.
  - apply (frame_shaped s); [apply relaxed_frame|exact Hsh].
  - by apply relaxed_keeps_nan.
Qed.

Lemma run_substeps_nan i c (s : Sim f32) :
  shaped s -> x s !! i = Some nan3 ->
  shaped (run_substeps c s) /\ x (run_substeps c s) !! i = Some nan3.
Proof.
  intros Hsh Hx. unfold run_substeps.
  apply (for_range_inv (fun s' => shaped s' /\ x s' !! i = Some nan3));
    [|done].
  intros step s' _ [Hsh' Hx']. split.
  - apply (frame_shaped (set_coll_origin (c step) s'));
      [apply substep_frame|exact Hsh'].
  - by apply substep_nan.
Qed.
End Binary32NaN.

(** X17.  In binary32, NaN in a position never goes away: a vertex whose
    position is [(NaN, NaN, NaN)] has that position, and that velocity,
    after every substep, whatever its inverse mass, its links and the
    collider do; so it has it after any number of frames. *)
Theorem nan_position_is_absorbing {E : Elementary f32}
  (location : nat -> nat -> vec3 f32) (k : nat) (s : Sim f32) (i : nat) :
  shaped s -> x s !! i = Some nan3 ->
  (x (substep s) !! i = Some nan3 /\ v (substep s) !! i = Some nan3) /\
  x (after_frames location k s) !! i = Some nan3.
Proof.
  intros Hsh Hx. split; [by apply substep_nan|].
  unfold after_frames.
  enough (Hinv : shaped (for_range k (fun frame s0 =>
                           run_substeps (location frame) s0) s) /\
                 x (for_range k (fun frame s0 =>
                      run_substeps (location frame) s0) s) !! i = Some nan3)
    by apply Hinv.
  apply (for_range_inv (fun s' => shaped s' /\ x s' !! i = Some nan3));
    [|done].
  intros frame s' _ [Hsh' Hx']. by apply run_substeps_nan.
Qed.

Lemma nan_position_is_absorbing_witness :
  (x (@substep _ _ f32_first_iteration
        (lone_vertex (of_int 1) nan3 vzero)) !! 0%nat = Some nan3 /\
   v (@substep _ _ f32_first_iteration
        (lone_vertex (of_int 1) nan3 vzero)) !! 0%nat = Some nan3) /\
  x (@after_frames _ _ f32_first_iteration (fun _ _ => vzero) 2
       (lone_vertex (of_int 1) nan3 vzero)) !! 0%nat = Some nan3.
Proof.
  apply (@nan_position_is_absorbing f32_first_iteration (fun _ _ => vzero) 2
           (lone_vertex (of_int 1) nan3 vzero) 0).
  - by repeat split.
  - reflexivity.
Defined.

Section Establish.
Context {S : Type}.

(** A loop one of whose iterations turns [P] into [Q], both kept by every
    iteration, ends in [Q]. *)
Lemma for_range_establish (P Q : S -> Prop) l n (body : nat -> S -> S) s :
  (forall j s, P s -> P (body j s)) ->
  (forall j s, Q s -> Q (body j s)) ->
  (forall s, P s -> Q (body l s)) ->
  P s -> l < n -> Q (for_range n body s).
Proof.
  intros HP HQ HPQ Hs. induction n as [|n IH]; [lia|].
  intros Hl. rewrite for_range_succ.
  destruct (decide (l = n)) as [->|Hne].
  - apply HPQ. apply for_range_inv; [|exact Hs]. intros; by apply HP.
  - apply HQ, IH. lia.
Qed.
End Establish.

Section Binary32Spread.
Context {E : Elementary f32}.
Local Open Scope num_scope.

Lemma link_one_spreads i j n l wj (s : Sim f32) :
  link s !! l = Some (i, j) \/ link s !! l = Some (j, i) ->
  p s !! i = Some nan3 -> j < length (p s) ->
  w s !! j = Some wj -> (wj >? eps) = true ->
  p (link_one n l s) !! j = Some nan3.
Proof.
  intros [Hl|Hl] Hp Hj Hw Hg; unfold link_one; cbv zeta.
  - destruct (sget (w s) (fst (default (0, 0) (link s !! l))) >? eps).
    + change (w (p_add _ _ s)) with (w s).
      change (link (p_add _ _ s)) with (link s).
      rewrite Hl. simpl fst. simpl snd.
      rewrite (sget_lookup _ _ _ Hw), Hg, (vget_lookup _ _ _ Hp), nan3_vsub.
      destruct (link_dp_nan wj (link_kp (sget (link_k s) l) n)
                  (sget (link_len s) l)) as [_ ->].
      rewrite p_add_same by (simpl; by rewrite length_insert).
      by rewrite vadd_nan3.
    + rewrite Hl. simpl fst. simpl snd.
      rewrite (sget_lookup _ _ _ Hw), Hg, (vget_lookup _ _ _ Hp), nan3_vsub.
      destruct (link_dp_nan wj (link_kp (sget (link_k s) l) n)
                  (sget (link_len s) l)) as [_ ->].
      rewrite p_add_same by done.
      by rewrite vadd_nan3.
  - rewrite Hl. simpl fst. simpl snd.
    rewrite (sget_lookup _ _ _ Hw), Hg, (vget_lookup _ _ _ Hp), vsub_nan3.
    destruct (link_dp_nan wj (link_kp (sget (link_k s) l) n)
                (sget (link_len s) l)) as [-> _].
    assert (Hj1 : p (p_add j nan3 s) !! j = Some nan3).
    { rewrite p_add_same by done. by rewrite vadd_nan3. }
    change (w (p_add j nan3 s)) with (w s).
    destruct (sget (w s) i >? eps); [|exact Hj1].
    by apply p_add_keeps_nan.
Qed.

Lemma link_stage_spreads i j n l wj (s : Sim f32) :
  link s !! l = Some (i, j) \/ link s !! l = Some (j, i) ->
  l < link_num s ->
  p s !! i = Some nan3 -> j < length (p s) ->
  w s !! j = Some wj -> (wj >? eps) = true ->
  p (link_stage n s) !! j = Some nan3.
Proof.
  intros Hl Hlt Hp Hj Hw Hg. unfold link_stage.
  enough (Hq : kernel_frame s (for_range (link_num s) (link_one n) s) /\
               p (for_range (link_num s) (link_one n) s) !! j = Some nan3)
    by apply Hq.
  apply (for_range_establish
           (fun s' => kernel_frame s s' /\ p s' !! i = Some nan3)
           (fun s' => kernel_frame s s' /\ p s' !! j = Some nan3) l).
  - intros k s' [Hf Hp']. split; [|by apply link_one_keeps_nan].
    eapply kernel_frame_trans; [exact Hf|apply link_one_frame].
  - intros k s' [Hf Hp']. split; [|by apply link_one_keeps_nan].
    eapply kernel_frame_trans; [exact Hf|apply link_one_frame].
  - intros s' [Hf Hp']. split.
    + eapply kernel_frame_trans; [exact Hf|apply link_one_frame].
    + apply (link_one_spreads i j n l wj).
      * by rewrite (frame_link _ _ Hf).
      * exact Hp'.
      * destruct Hf as (_ & _ & -> & _). exact Hj.
      * by rewrite (frame_w _ _ Hf).
      * exact Hg.
  - split; [apply kernel_frame_refl|exact Hp].
  - exact Hlt.
Qed.

Lemma solver_iteration_spreads i j n l wj (s : Sim f32) :
  link s !! l = Some (i, j) \/ link s !! l = Some (j, i) ->
  l < link_num s ->
  p s !! i = Some nan3 -> j < length (p s) ->
  w s !! j = Some wj -> (wj >? eps) = true ->
  p (solver_iteration n s) !! j = Some nan3.
Proof.
  intros Hl Hlt Hp Hj Hw Hg. unfold solver_iteration. cbv zeta.
  assert (Hf : kernel_frame s (if enable_LRA s then tether_stage s else s)).
  { destruct (enable_LRA s);
      [apply tether_stage_frame|apply kernel_frame_refl]. }
  apply collision_stage_keeps_nan.
  apply (link_stage_spreads i j n l wj).
  - by rewrite (frame_link _ _ Hf).
  - by rewrite (frame_link_num _ _ Hf).
  - destruct (enable_LRA s); [by apply tether_stage_keeps_nan|done].
  - destruct Hf as (_ & _ & -> & _). exact Hj.
  - by rewrite (frame_w _ _ Hf).
  - exact Hg.
Qed.

Lemma relaxed_spreads i j k l wj (s : Sim f32) :
  shaped s -> 0 < k ->
  link s !! l = Some (i, j) \/ link s !! l = Some (j, i) ->
  l < link_num s ->
  x s !! i = Some nan3 -> j < vertex_num s ->
  w s !! j = Some wj -> (wj >? eps) = true ->
  p (relaxed k s) !! j = Some nan3.
Proof.
  intros Hsh Hk Hl Hlt Hx Hj Hw Hg. unfold relaxed.
  pose proof (predict_frame s) as Hf0.
  enough (Hq : kernel_frame s (for_range k solver_iteration (predict s)) /\
               p (for_range k solver_iteration (predict s)) !! j
               = Some nan3)
    by apply Hq.
  apply (for_range_establish
           (fun s' => kernel_frame s s' /\ p s' !! i = Some nan3)
           (fun s' => kernel_frame s s' /\ p s' !! j = Some nan3) 0).
  - intros n s' [Hf Hp']. split; [|by apply solver_iteration_keeps_nan].
    eapply kernel_frame_trans; [exact Hf|apply solver_iteration_frame].
  - intros n s' [Hf Hp']. split; [|by apply solver_iteration_keeps_nan].
    eapply kernel_frame_trans; [exact Hf|apply solver_iteration_frame].
  - intros s' [Hf Hp']. split.
    + eapply kernel_frame_trans; [exact Hf|apply solver_iteration_frame].
    + apply (solver_iteration_spreads i j 0 l wj).
      * by rewrite (frame_link _ _ Hf).
      * by rewrite (frame_link_num _ _ Hf).
      * exact Hp'.
      * destruct Hf as (_ & _ & -> & _). destruct Hsh as (_ & -> & _).
        exact Hj.
      * by rewrite (frame_w _ _ Hf).
      * exact Hg.
  - split; [exact Hf0|by apply predict_nan].
  - exact Hk.
Qed.
End Binary32Spread.

(** X18.  In binary32, NaN spreads along links: if one end of a link has
    position [(NaN, NaN, NaN)] and the other end has inverse mass above
    [eps], then after one substep with at least one solver iteration the
    other end has position and velocity [(NaN, NaN, NaN)] too. *)
Theorem nan_spreads_along_links {E : Elementary f32} (s : Sim f32)
  (l i j : nat) (wj : f32) :
  shaped s -> 0 < solver_num s -> l < link_num s ->
  link s !! l = Some (i, j) \/ link s !! l = Some (j, i) ->
  x s !! i = Some nan3 -> j < vertex_num s ->
  w s !! j = Some wj -> (wj >? eps)%num = true ->
  x (substep s) !! j = Some nan3 /\ v (substep s) !! j = Some nan3.
Proof.
  intros Hsh Hk Hlt Hl Hx Hj Hw Hg.
  rewrite substep_is_cpu, substep_cpu_relaxed.
  apply finalize_nan.
  - apply (frame_shaped s); [apply relaxed_frame|exact Hsh].
  - by apply (relaxed_spreads i j (solver_num s) l wj).
Qed.

Lemma nan_spreads_along_links_witness :
  x (@substep _ _ f32_first_iteration
       (set_x [nan3; Vec3 (of_int 5) (of_int 0) (of_int 0)] pair_sim32))
    !! 1%nat = Some nan3 /\
  v (@substep _ _ f32_first_iteration
       (set_x [nan3; Vec3 (of_int 5) (of_int 0) (of_int 0)] pair_sim32))
    !! 1%nat = Some nan3.
Proof.
  apply (@nan_spreads_along_links f32_first_iteration
           (set_x [nan3; Vec3 (of_int 5) (of_int 0) (of_int 0)] pair_sim32)
           0 0 1 (of_int 1)).
  - by repeat split.
  - simpl. lia.
  - simpl. lia.
  - left. reflexivity.
  - reflexivity.
  - simpl. lia.
  - reflexivity.
  - reflexivity.
Defined.

(** ** X19: the constructor's output as input of the solver *)

Section ConstructorRows.
Context {F : Type} `{Num F}.

(** Every row of the link table of a constructor that returns is the row of
    an edge or of a face. *)
Lemma init_row_shape (sdf_phy : SdfPhy F) frame_end (s : Sim F) l :
  TiClothSimulation_init sdf_phy frame_end = Some s ->
  l < length (edges (bm_of (cloth_obj sdf_phy)))
      + 2 * length (faces (bm_of (cloth_obj sdf_phy))) ->
  exists a b k,
    link_row s l
    = (Some (index a, index b), Some (calc_dist (co a) (co b)), Some k) /\
    (k = k_stretch \/ k = k_bend).
Proof.
  intros E Hlen.
  set (b := bm_of (cloth_obj sdf_phy)) in *.
  destruct (init_rows sdf_phy frame_end s E) as (Hfr & _ & Hs & Hb).
  fold b in Hs, Hb.
  destruct (decide (l < length (edges b))) as [Hlt|Hge].
  - destruct (lookup_lt_is_Some_2 _ _ Hlt) as [e He].
    exists (fst e), (snd e), k_stretch. split; [by apply Hs|by left].
  - set (k := l - length (edges b)).
    assert (Hk : l = length (edges b) + 2 * (k / 2) + k mod 2).
    { pose proof (Nat.div_mod_eq k 2). lia. }
    assert (Hi : k / 2 < length (faces b)).
    { apply Nat.Div0.div_lt_upper_bound. lia. }
    destruct (lookup_lt_is_Some_2 _ _ Hi) as [fv Hfv].
    destruct (Hb (k / 2) fv (k mod 2) Hi Hfv) as (a & c & Ha & Hc & Hrow).
    { apply Nat.mod_upper_bound. lia. }
    rewrite <- Hk in Hrow.
    exists a, c, k_bend. split; [exact Hrow|by right].
Qed.

Lemma init_link_lengths (sdf_phy : SdfPhy F) frame_end (s : Sim F) :
  TiClothSimulation_init sdf_phy frame_end = Some s ->
  let n := length (edges (bm_of (cloth_obj sdf_phy)))
           + 2 * length (faces (bm_of (cloth_obj sdf_phy))) in
  link_num s = n /\ length (link s) = n /\
  length (link_len s) = n /\ length (link_k s) = n /\
  vertex_num s = length (verts (bm_of (cloth_obj sdf_phy))).
Proof.
  intros E n.
  destruct (init_rows sdf_phy frame_end s E) as (Hfr & _).
  assert (Hn : link_num s = n).
  { change (link_num s) with (link_num (builder_static s)).
    destruct Hfr as (-> & _). simpl. unfold n. lia. }
  rewrite (builder_vertex_num _ _ Hfr).
  destruct Hfr as (_ & _ & _ & L1 & L2 & L3 & _).
  rewrite L1, L2, L3, Hn. simpl. rewrite !length_replicate.
  unfold n. repeat split; lia.
Qed.
End ConstructorRows.

Section RealPreconditions.
Local Open Scope R_scope.

Lemma pin_fold_range (pin : nat) (gs : list (nat * R)) (acc : R) :
  (forall wt, (pin, wt) ∈ gs -> 0 <= wt <= 1) ->
  0 <= acc <= 1 ->
  0 <= fold_left
         (fun acc g => if Nat.eqb (fst g) pin then 1 - snd g else acc)
         gs acc <= 1.
Proof.
  revert acc. induction gs as [|[g wt] gs IH]; intros acc Hgs Hacc;
    [exact Hacc|].
  simpl. apply IH.
  - intros wt' Hin. apply Hgs. by apply list_elem_of_further.
  - destruct (Nat.eqb_spec g pin) as [->|Hne]; [|exact Hacc].
    specialize (Hgs wt (list_elem_of_here _ _)). lra.
Qed.

Lemma pin_inverse_mass_range (pin : nat) (gs : list (nat * R)) :
  (forall wt, (pin, wt) ∈ gs -> 0 <= wt <= 1) ->
  0 <= pin_inverse_mass pin gs <= 1.
Proof.
  intros Hgs. apply (pin_fold_range pin gs 1 Hgs). lra.
Qed.

Lemma calc_dist_nonneg (a b : vec3 R) : 0 <= calc_dist a b.
Proof. unfold calc_dist. cbv zeta. apply sqrt_pos. Qed.

Lemma stiffness_constants :
  0 < @k_stretch R _ < 1 /\ 0 < @k_bend R _ < 1.
Proof. unfold k_stretch, k_bend. simpl. lra. Qed.

Lemma link_kp_range (k : R) (n : nat) : 0 < k < 1 -> 0 < link_kp k n < 1.
Proof.
  intros [Hk0 Hk1].
  assert (Hy : 0 < 1 / IZR (Z.of_nat n + 1)).
  { apply Rdiv_lt_0_compat; [lra|]. apply IZR_lt. lia. }
  pose proof (Rpower_below_one (1 - k) (1 / IZR (Z.of_nat n + 1))) as Hp.
  assert (E : link_kp k n = 1 - Rpower (1 - k) (1 / IZR (Z.of_nat n + 1)))
    by reflexivity.
  rewrite E. lra.
Qed.
End RealPreconditions.

(** X19.  In real arithmetic, when the constructor returns for a mesh whose
    pin-group weights all lie between 0 and 1, its output meets what the
    link and tether corrections presuppose: every inverse mass lies between
    0 and 1, every rest length is non-negative, every stiffness is
    [k_stretch] or [k_bend], and for every link and every solver iteration
    the factor [kp * (w0 + w1) / 2] by which a correction scales the length
    error lies between 0 and 1 for any two vertices. *)
Theorem constructor_meets_solver_preconditions (sdf_phy : SdfPhy R)
  (frame_end : nat) (s : Sim R) :
  TiClothSimulation_init sdf_phy frame_end = Some s ->
  (forall i gs wt,
     vertex_groups (cloth_obj sdf_phy) !! i = Some gs ->
     (pin_group sdf_phy, wt) ∈ gs -> (0 <= wt <= 1)%R) ->
  (forall i wi, w s !! i = Some wi -> (0 <= wi <= 1)%R) /\
  (forall l len, link_len s !! l = Some len -> (0 <= len)%R) /\
  (forall l k, link_k s !! l = Some k -> k = k_stretch \/ k = k_bend) /\
  (forall l n i0 i1 w0 w1,
     l < link_num s -> w s !! i0 = Some w0 -> w s !! i1 = Some w1 ->
     (0 <= link_kp (sget (link_k s) l) n * (w0 + w1) / 2 <= 1)%R).
Proof.
  intros E Hwt.
  destruct (init_link_lengths sdf_phy frame_end s E)
    as (Hn & L1 & L2 & L3 & Hv).
  destruct (init_shaped sdf_phy frame_end s E) as (_ & Lw & _).
  pose proof (init_groups_cover sdf_phy frame_end s E) as Hcover.
  assert (Hw : forall i wi, w s !! i = Some wi -> (0 <= wi <= 1)%R).
  { intros i wi Hwi.
    assert (Hi : i < length (verts (bm_of (cloth_obj sdf_phy)))).
    { rewrite <- Hv, <- Lw. by eapply lookup_lt_Some. }
    destruct (lookup_lt_is_Some_2 _ _ Hi) as [bv Hbv].
    destruct (lookup_lt_is_Some_2 (vertex_groups (cloth_obj sdf_phy)) i)
      as [gs Hgs]; [lia|].
    destruct (init_vertex_fields sdf_phy frame_end s i bv gs E Hbv Hgs)
      as (s1 & _ & _ & _ & Ew & _).
    rewrite Ew in Hwi. injection Hwi as <-.
    apply pin_inverse_mass_range. intros wt. by apply (Hwt i gs wt). }
  assert (Hk : forall l k, link_k s !! l = Some k ->
                           k = k_stretch \/ k = k_bend).
  { intros l k Hl.
    destruct (init_row_shape sdf_phy frame_end s l E)
      as (a & b & k' & Hrow & Hk').
    { rewrite <- L3. by eapply lookup_lt_Some. }
    unfold link_row in Hrow. injection Hrow as _ _ Hrow.
    rewrite Hl in Hrow. by injection Hrow as ->. }
  split; [exact Hw|]. split; [|split; [exact Hk|]].
  - intros l len Hl.
    destruct (init_row_shape sdf_phy frame_end s l E) as (a & b & k & Hrow & _).
    { rewrite <- L2. by eapply lookup_lt_Some. }
    unfold link_row in Hrow. injection Hrow as _ Hrow _.
    rewrite Hl in Hrow. injection Hrow as ->. apply calc_dist_nonneg.
  - intros l n i0 i1 w0 w1 Hl Hw0 Hw1.
    destruct (lookup_lt_is_Some_2 (link_k s) l) as [k Hlk]; [lia|].
    rewrite (sget_lookup _ _ _ Hlk).
    assert (Hkr : (0 < k < 1)%R).
    { destruct stiffness_constants as [Hs Hb].
      by destruct (Hk l k Hlk) as [->| ->]. }
    pose proof (link_kp_range k n Hkr) as Hkp.
    pose proof (Hw i0 w0 Hw0). pose proof (Hw i1 w1 Hw1).
    split; nra.
Qed.

Lemma constructor_meets_solver_preconditions_witness :
  (forall i wi, w (tri_sim 2) !! i = Some wi -> (0 <= wi <= 1)%R) /\
  (forall l len, link_len (tri_sim 2) !! l = Some len -> (0 <= len)%R) /\
  (forall l k, link_k (tri_sim 2) !! l = Some k ->
               k = k_stretch \/ k = k_bend) /\
  (forall l n i0 i1 w0 w1,
     l < link_num (tri_sim 2) ->
     w (tri_sim 2) !! i0 = Some w0 -> w (tri_sim 2) !! i1 = Some w1 ->
     (0 <= link_kp (sget (link_k (tri_sim 2)) l) n * (w0 + w1) / 2 <= 1)%R).
Proof.
  apply (constructor_meets_solver_preconditions (tri_phy 2) 2 (tri_sim 2)).
  - reflexivity.
  - intros i gs wt Hgs Hin.
    destruct i as [|[|[|i]]]; simpl in Hgs; try done;
      injection Hgs as <-; try (by apply elem_of_nil in Hin).
    apply list_elem_of_singleton in Hin. injection Hin as ->. lra.
Defined.

(** ** X20: the substeps a run of the generator performs *)

Section Flatten.
Context {S : Type}.

Lemma for_range_add n m (body : nat -> S -> S) s :
  for_range (n + m) body s
  = for_range m (fun j => body (n + j)) (for_range n body s).
Proof.
  induction m as [|m IH]; [by rewrite Nat.add_0_r|].
  by rewrite Nat.add_succ_r, !for_range_succ, IH.
Qed.

Lemma for_range_ext_lt n (body body' : nat -> S -> S) s :
  (forall i s, i < n -> body i s = body' i s) ->
  for_range n body s = for_range n body' s.
Proof.
  intros Hb. induction n as [|n IH]; [reflexivity|].
  rewrite !for_range_succ.
  rewrite IH by (intros i s' Hi; apply Hb; lia).
  apply Hb. lia.
Qed.
End Flatten.

Section FlatFrames.
Context {F : Type} `{Num F} `{Elementary F}.

Lemma after_frames_flat (location : nat -> nat -> vec3 F) k (s : Sim F) :
  after_frames location k s
  = for_range (k * substep_num s)
      (fun t s' =>
         substep (set_coll_origin
                    (location (t / substep_num s) (t mod substep_num s)) s'))
      s.
Proof.
  induction k as [|k IH]; [reflexivity|].
  assert (Eb : substep_num (after_frames location k s) = substep_num s).
  { destruct (after_frames_keeps location k s) as (E & _).
    exact (f_equal substep_num E). }
  unfold after_frames in *. rewrite for_range_succ.
  unfold run_substeps at 1. rewrite Eb.
  replace (S k * substep_num s) with (k * substep_num s + substep_num s)
    by lia.
  rewrite for_range_add, <- IH.
  apply for_range_ext_lt. intros j s' Hj.
  rewrite Nat.div_add_l by lia.
  rewrite Nat.div_small by done.
  rewrite (Nat.add_comm (k * substep_num s) j), Nat.Div0.mod_add.
  rewrite Nat.mod_small by done.
  by rewrite Nat.add_0_r.
Qed.
End FlatFrames.

(** X20.  A run of the generator performs exactly
    [frame_num * substep_num] substeps, in one sequence: the state it ends
    in is the state after that many substeps, substep number [t] being run
    with the collider origin read at step [t mod substep_num] of frame
    [t / substep_num]; and the update yielded for frame [k] carries the
    positions after the first [k * substep_num] of them. *)
Theorem generator_runs_frames_times_substeps {F : Type} `{Num F}
  `{Elementary F} (location : nat -> nat -> vec3 F) (s : Sim F) :
  let step := fun t s' =>
    substep (set_coll_origin
               (location (t / substep_num s) (t mod substep_num s)) s') in
  snd (animate location s) = for_range (frame_num s * substep_num s) step s /\
  forall k, k < frame_num s ->
    fst (animate location s) !! k
    = Some (MeshUpdate (x (for_range (k * substep_num s) step s))).
Proof.
  intros step.
  destruct (main_loop_frames location (frame_num s) 0 s) as [E1 E2].
  change (fun k => location (0 + k)) with location in E1, E2.
  unfold animate. rewrite E1, E2. split.
  - exact (after_frames_flat location (frame_num s) s).
  - intros k Hk. rewrite list_lookup_fmap, lookup_seq_lt by done.
    simpl. rewrite (after_frames_flat location k s). reflexivity.
Qed.

Lemma generator_runs_frames_times_substeps_witness :
  fst (animate still (tri_sim 2)) !! 1%nat
  = Some (MeshUpdate
            (x (for_range (1 * substep_num (tri_sim 2))
                  (fun t s' =>
                     substep (set_coll_origin
                                (still (t / substep_num (tri_sim 2))
                                   (t mod substep_num (tri_sim 2))) s'))
                  (tri_sim 2)))).
Proof.
  destruct (generator_runs_frames_times_substeps still (tri_sim 2))
    as [_ Hk].
  apply (Hk 1). change (1 < 2). lia.
Defined.
